(** * Bitcoin quantum-attack simulator: a shallow embedding of
    [bitcoin_quantum_simulator.py] and the properties of its core
    (UTXO registry, transaction builder, mempool, attack engine and block
    selector).

    Modelling conventions.
    - Python objects that are shared and mutated ([UTXO], [Transaction],
      [QuantumAttacker]) live in object stores of a [World]; a reference is
      the index of the object in its store, and lists hold references, as
      Python lists do.
    - Python [float] values (amounts, fees, times, probabilities) are read
      as exact rationals [Q]: no rounding, no NaN, no infinities.  Python
      [int] values are [Z].  The two formulas whose figures the properties
      quote are given in binary64 as well ([Binary64]), and the figures are
      computed there too.
    - [hashlib.sha256(..).hexdigest()], [str] of a float, the [random] module
      and [time.time()] are ambient: they are the fields of [Env], about
      which nothing is assumed.
    - [print], [explain] and [time.sleep] produce no state.  The arithmetic
      inside their format strings is kept where it can raise
      ([ZeroDivisionError]).
    - A Python exception is an outcome [Raise]; the world it leaves behind
      is kept, since mutations made before the exception persist. *)

From Stdlib Require Import List String Ascii ZArith QArith Bool Lia Arith.
From Stdlib Require Import DecimalString Permutation Floats.
Import ListNotations.

#[local] Set Warnings "-inexact-float".

Local Open Scope string_scope.
Local Open Scope Q_scope.

(** ** Python primitives *)

(** [str(n)] for an [int]. *)
Definition str_int (n : Z) : string := NilZero.string_of_int (Z.to_int n).

(** [s[:n]]. *)
Definition prefix_slice (n : nat) (s : string) : string := substring 0 n s.

(** [needle in s]. *)
Definition str_contains (needle s : string) : bool :=
match index 0 needle s with Some _ => true | None => false end.

(** [a < b] and [a > b] on numbers. *)
Definition Qltb (a b : Q) : bool := negb (Qle_bool b a).
Definition Qgtb (a b : Q) : bool := Qltb b a.

(** [min(a, b)]: the first of the smallest arguments. *)
Definition py_min (a b : Q) : Q := if Qltb b a then b else a.

(** [sum(..)] of numbers. *)
Definition py_sum (l : list Q) : Q := fold_left Qplus l 0.

(** Equality of tuples of strings (dictionary keys). *)
Fixpoint key_eqb (k1 k2 : list string) : bool :=
match k1, k2 with
| [], [] => true
| a :: k1', b :: k2' => String.eqb a b && key_eqb k1' k2'
| _, _ => false
end.

(** ** Sorting

    [list.sort(key=.., reverse=True)] and [sorted] are stable: elements with
    equal keys keep their relative order, also under [reverse=True].  A
    stable sort is determined by the order, so insertion sort is a model of
    it. *)

Section Sorting.
Context {A : Type}.
Variable key : A -> Q.

(** Insert [x], which precedes every element of [l] in the original list:
    it goes before the first element whose key is not greater. *)
Fixpoint insert_desc (x : A) (l : list A) : list A :=
match l with
| [] => [x]
| y :: l' => if Qgtb (key y) (key x) then y :: insert_desc x l' else x :: y :: l'
end.

Definition sort_desc (l : list A) : list A := fold_right insert_desc [] l.

End Sorting.

Fixpoint insert_str (x : string) (l : list string) : list string :=
match l with
| [] => [x]
| y :: l' => if String.ltb y x then y :: insert_str x l' else x :: y :: l'
end.

(** [sorted(l)] on strings (code-point order). *)
Definition sorted_str (l : list string) : list string := fold_right insert_str [] l.

(** ** Data model *)

Inductive AddressType : Type :=
| P2PKH
| P2WPKH
| P2TR
| P2SH_MULTISIG_2OF3
| P2WSH_MULTISIG_3OF5.

(** [addr_type.value] *)
Definition AddressType_value (a : AddressType) : string :=
match a with
| P2PKH => "P2PKH (Legacy)"
| P2WPKH => "P2WPKH (SegWit)"
| P2TR => "P2TR (Taproot)"
| P2SH_MULTISIG_2OF3 => "P2SH Multisig 2-of-3"
| P2WSH_MULTISIG_3OF5 => "P2WSH Multisig 3-of-5"
end.

Definition AddressType_eqb (a b : AddressType) : bool :=
match a, b with
| P2PKH, P2PKH | P2WPKH, P2WPKH | P2TR, P2TR
| P2SH_MULTISIG_2OF3, P2SH_MULTISIG_2OF3
| P2WSH_MULTISIG_3OF5, P2WSH_MULTISIG_3OF5 => true
| _, _ => false
end.

Inductive TxStatus : Type :=
| CREATED
| BROADCAST
| ATTACKED
| CONFIRMED
| STOLEN
| RBF_REPLACED.

Definition TxStatus_eqb (a b : TxStatus) : bool :=
match a, b with
| CREATED, CREATED | BROADCAST, BROADCAST | ATTACKED, ATTACKED
| CONFIRMED, CONFIRMED | STOLEN, STOLEN | RBF_REPLACED, RBF_REPLACED => true
| _, _ => false
end.

(** References into the object stores. *)
Definition uref := nat.
Definition tref := nat.
Definition aref := nat.

Module QuantumComputer.
Record t : Type := mk {
  name : string;
  qubits : Z;
  error_rate : Q;
  key_derivation_time : Q;
  success_probability : Q
}.

Definition can_break_secp256k1 (self : t) : bool :=
(2000 <=? qubits self)%Z && Qltb (error_rate self) (1 # 1000).
End QuantumComputer.

Module UTXO.
Record t : Type := mk {
  txid : string;
  vout : Z;
  address : string;
  address_type : AddressType;
  amount : Q;
  privkey : string;
  pubkey : string;
  pubkey_hash : string;
  script_pubkey : string;
  spent : bool;
  pubkey_exposed : bool;
  exposure_count : Z;
  created_block : Z
}.


Definition set_pubkey_exposed (v : bool) (u : t) : t :=
mk (txid u) (vout u) (address u) (address_type u) (amount u) (privkey u)
   (pubkey u) (pubkey_hash u) (script_pubkey u) (spent u) v
   (exposure_count u) (created_block u).

Definition set_exposure_count (v : Z) (u : t) : t :=
mk (txid u) (vout u) (address u) (address_type u) (amount u) (privkey u)
   (pubkey u) (pubkey_hash u) (script_pubkey u) (spent u) (pubkey_exposed u)
   v (created_block u).
End UTXO.

(** An element of [Transaction.outputs]: a dict with the keys ['address']
    and ['amount']. *)
Record Output : Type := mkOutput {
  out_address : string;
  out_amount : Q
}.

(** An element of [tx.attack_details]: a dict with five keys. *)
Module AttackDetail.
Record t : Type := mk {
  attacker : string;
  competing_txid : string;
  attack_fee : Q;
  destination : string;
  value : Q
}.
End AttackDetail.

Module Transaction.
(** [attack_details] is the attribute that [_execute_quantum_attack] adds
    to the object: [None] while the object does not have it. *)
Record t : Type := mk {
  txid : string;
  inputs : list uref;
  outputs : list Output;
  fee : Q;
  pubkeys_exposed : list string;
  signatures : list string;
  status : TxStatus;
  broadcast_time : Q;
  confirmation_time : option Q;
  rbf_enabled : bool;
  locktime : Z;
  witness_data : option string;
  competing_txs : list string;
  attack_details : option (list AttackDetail.t)
}.

Definition set_status (v : TxStatus) (x : t) : t :=
mk (txid x) (inputs x) (outputs x) (fee x) (pubkeys_exposed x) (signatures x)
   v (broadcast_time x) (confirmation_time x) (rbf_enabled x) (locktime x)
   (witness_data x) (competing_txs x) (attack_details x).

Definition set_competing_txs (v : list string) (x : t) : t :=
mk (txid x) (inputs x) (outputs x) (fee x) (pubkeys_exposed x) (signatures x)
   (status x) (broadcast_time x) (confirmation_time x) (rbf_enabled x)
   (locktime x) (witness_data x) v (attack_details x).

Definition set_attack_details (v : option (list AttackDetail.t)) (x : t) : t :=
mk (txid x) (inputs x) (outputs x) (fee x) (pubkeys_exposed x) (signatures x)
   (status x) (broadcast_time x) (confirmation_time x) (rbf_enabled x)
   (locktime x) (witness_data x) (competing_txs x) v.
End Transaction.

Module QuantumAttacker.
Record t : Type := mk {
  name : string;
  quantum_computer : QuantumComputer.t;
  btc_balance : Q;
  successful_attacks : Z;
  failed_attacks : Z;
  total_stolen : Q;
  attack_strategy : string
}.

Definition set_failed_attacks (v : Z) (a : t) : t :=
mk (name a) (quantum_computer a) (btc_balance a) (successful_attacks a) v
   (total_stolen a) (attack_strategy a).

(** The three statements that credit a stolen value. *)
Definition credit (v : Q) (a : t) : t :=
mk (name a) (quantum_computer a) (btc_balance a + v)
   (successful_attacks a + 1)%Z (failed_attacks a) (total_stolen a + v)
   (attack_strategy a).

(** [estimate_attack_time]: [base_time * num_keys * 0.7]. *)
Definition estimate_attack_time (self : t) (num_keys : Z) : Q :=
let base_time := QuantumComputer.key_derivation_time (quantum_computer self) in
base_time * inject_Z num_keys * (7 # 10).
End QuantumAttacker.

(** The formulas of [estimate_attack_time] and of the attack fee on Python's
    own numbers, IEEE 754 binary64.  A key count becomes a float when it is
    multiplied by one. *)
Module Binary64.
Definition estimate_attack_time (base_time : float) (num_keys : Z) : float :=
(base_time * PrimFloat.of_uint63 (Uint63.of_Z num_keys) * 0.7)%float.

(** [min(tx.fee * 10, total_value * 0.5)] *)
Definition attack_fee (fee total_value : float) : float :=
let a := (fee * 10)%float in
let b := (total_value * 0.5)%float in
if (b <? a)%float then b else a.

Definition attack_output_value (fee total_value : float) : float :=
(total_value - attack_fee fee total_value)%float.
End Binary64.

(** [BitcoinNetwork]: the fields of [self].  [mempool] is a [dict]: an
    association list in insertion order with unique keys.  [blockchain] is
    never read or written after [__init__]; its elements are not modelled. *)
Module BitcoinNetwork.
Record t : Type := mk {
  current_block : Z;
  current_time : Q;
  block_time_avg : Q;
  mempool : list (string * tref);
  blockchain : list unit;
  utxo_set : list uref;
  quantum_attackers : list aref;
  network_hash_rate : Z;
  difficulty_adjustment : Q
}.

Definition set_current_block (v : Z) (n : t) : t :=
mk v (current_time n) (block_time_avg n) (mempool n) (blockchain n)
   (utxo_set n) (quantum_attackers n) (network_hash_rate n)
   (difficulty_adjustment n).

Definition set_current_time (v : Q) (n : t) : t :=
mk (current_block n) v (block_time_avg n) (mempool n) (blockchain n)
   (utxo_set n) (quantum_attackers n) (network_hash_rate n)
   (difficulty_adjustment n).

Definition set_mempool (v : list (string * tref)) (n : t) : t :=
mk (current_block n) (current_time n) (block_time_avg n) v (blockchain n)
   (utxo_set n) (quantum_attackers n) (network_hash_rate n)
   (difficulty_adjustment n).

Definition set_utxo_set (v : list uref) (n : t) : t :=
mk (current_block n) (current_time n) (block_time_avg n) (mempool n)
   (blockchain n) v (quantum_attackers n) (network_hash_rate n)
   (difficulty_adjustment n).

Definition set_quantum_attackers (v : list aref) (n : t) : t :=
mk (current_block n) (current_time n) (block_time_avg n) (mempool n)
   (blockchain n) (utxo_set n) v (network_hash_rate n)
   (difficulty_adjustment n).
End BitcoinNetwork.

(** ** The world: the network object, the object stores and the ambient
    library *)

(** What the program takes from outside: [i] counts the calls made so far
    to the [random] module, resp. to [time.time()]. *)
Record Env : Type := mkEnv {
  sha256_hex : string -> string;
  str_float : Q -> string;
  random_random : nat -> Q;
  random_randint : nat -> Z;
  time_time : nat -> Q
}.

Record World : Type := mkWorld {
  env : Env;
  net : BitcoinNetwork.t;
  utxos : uref -> UTXO.t;
  utxo_count : nat;
  txs : tref -> Transaction.t;
  tx_count : nat;
  attackers : aref -> QuantumAttacker.t;
  attacker_count : nat;
  rand_calls : nat;
  time_calls : nat
}.

Definition set_net (v : BitcoinNetwork.t) (w : World) : World :=
mkWorld (env w) v (utxos w) (utxo_count w) (txs w) (tx_count w) (attackers w)
        (attacker_count w) (rand_calls w) (time_calls w).

(** Store updates: the object at [r] becomes [f] of itself. *)
Definition update {X : Type} (r : nat) (f : X -> X) (store : nat -> X) : nat -> X :=
fun r' => if Nat.eqb r' r then f (store r') else store r'.
Arguments update : simpl never.

Definition update_utxo (r : uref) (f : UTXO.t -> UTXO.t) (w : World) : World :=
mkWorld (env w) (net w) (update r f (utxos w)) (utxo_count w) (txs w)
        (tx_count w) (attackers w) (attacker_count w) (rand_calls w)
        (time_calls w).

Definition update_tx (r : tref) (f : Transaction.t -> Transaction.t) (w : World) : World :=
mkWorld (env w) (net w) (utxos w) (utxo_count w) (update r f (txs w))
        (tx_count w) (attackers w) (attacker_count w) (rand_calls w)
        (time_calls w).

Definition update_attacker (r : aref) (f : QuantumAttacker.t -> QuantumAttacker.t)
  (w : World) : World :=
mkWorld (env w) (net w) (utxos w) (utxo_count w) (txs w) (tx_count w)
        (update r f (attackers w)) (attacker_count w) (rand_calls w)
        (time_calls w).

(** Object creation: the new object gets the next free reference. *)
Definition new_utxo (u : UTXO.t) (w : World) : uref * World :=
(utxo_count w,
 mkWorld (env w) (net w) (update (utxo_count w) (fun _ => u) (utxos w))
         (S (utxo_count w)) (txs w) (tx_count w) (attackers w)
         (attacker_count w) (rand_calls w) (time_calls w)).

Definition new_tx (x : Transaction.t) (w : World) : tref * World :=
(tx_count w,
 mkWorld (env w) (net w) (utxos w) (utxo_count w)
         (update (tx_count w) (fun _ => x) (txs w)) (S (tx_count w))
         (attackers w) (attacker_count w) (rand_calls w) (time_calls w)).

Definition new_attacker (a : QuantumAttacker.t) (w : World) : aref * World :=
(attacker_count w,
 mkWorld (env w) (net w) (utxos w) (utxo_count w) (txs w) (tx_count w)
         (update (attacker_count w) (fun _ => a) (attackers w))
         (S (attacker_count w)) (rand_calls w) (time_calls w)).

(** ** The monad of the program: state and exceptions *)

Inductive exn : Type :=
| ZeroDivisionError
| AttributeError
| IndexError.

Inductive outcome (A : Type) : Type :=
| Ok (a : A)
| Raise (e : exn).
Arguments Ok {A} a.
Arguments Raise {A} e.

Definition M (A : Type) : Type := World -> outcome A * World.

Definition ret {A : Type} (a : A) : M A := fun w => (Ok a, w).

Definition raise {A : Type} (e : exn) : M A := fun w => (Raise e, w).

Definition bind {A B : Type} (m : M A) (k : A -> M B) : M B :=
fun w =>
  match m w with
  | (Ok a, w') => k a w'
  | (Raise e, w') => (Raise e, w')
  end.

Definition get : M World := fun w => (Ok w, w).

Definition modify (f : World -> World) : M unit := fun w => (Ok tt, f w).

Notation "x <- m ;; k" := (bind m (fun x => k))
  (at level 61, m at next level, right associativity).
Notation "m ;; k" := (bind m (fun _ => k))
  (at level 61, right associativity).

(** [for x in l: body(x)] *)
Fixpoint for_each {A : Type} (l : list A) (body : A -> M unit) : M unit :=
match l with
| [] => ret tt
| x :: l' => body x ;; for_each l' body
end.

(** [[f(x) for x in l]] *)
Fixpoint map_M {A B : Type} (f : A -> M B) (l : list A) : M (list B) :=
match l with
| [] => ret []
| x :: l' => y <- f x ;; ys <- map_M f l' ;; ret (y :: ys)
end.

(** [a / b] *)
Definition py_div (a b : Q) : M Q :=
if Qeq_bool b 0 then raise ZeroDivisionError else ret (a / b).

(** [random.random()], [random.randint(1000, 9999)] and [time.time()]:
    the next value of the ambient source. *)
Definition bump_rand (w : World) : World :=
mkWorld (env w) (net w) (utxos w) (utxo_count w) (txs w) (tx_count w)
        (attackers w) (attacker_count w) (S (rand_calls w)) (time_calls w).

Definition bump_time (w : World) : World :=
mkWorld (env w) (net w) (utxos w) (utxo_count w) (txs w) (tx_count w)
        (attackers w) (attacker_count w) (rand_calls w) (S (time_calls w)).

Definition draw_random : M Q :=
fun w => (Ok (random_random (env w) (rand_calls w)), bump_rand w).

Definition draw_randint : M Z :=
fun w => (Ok (random_randint (env w) (rand_calls w)), bump_rand w).

Definition read_clock : M Q :=
fun w => (Ok (time_time (env w) (time_calls w)), bump_time w).

Definition sha256 (s : string) : M string :=
fun w => (Ok (sha256_hex (env w) s), w).

Definition str_of_float (x : Q) : M string :=
fun w => (Ok (str_float (env w) x), w).

(** A constructor call: the world gets one more object. *)
Definition construct {A : Type} (alloc : World -> A * World) : M A :=
fun w => let (r, w') := alloc w in (Ok r, w').

(** ** [BitcoinNetwork.__init__] *)

Definition blank_utxo : UTXO.t :=
UTXO.mk "" 0 "" P2PKH 0 "" "" "" "" false false 0 0.

Definition blank_tx : Transaction.t :=
Transaction.mk "" [] [] 0 [] [] CREATED 0 None false 0 None [] None.

Definition blank_attacker : QuantumAttacker.t :=
QuantumAttacker.mk "" (QuantumComputer.mk "" 0 0 0 0) 0 0 0 0 "AGGRESSIVE".

(** [BitcoinNetwork()] in a process that has created no object yet.  A
    reference that has not been handed out yet stands for a blank object; a
    program holds no such reference. *)
Definition BitcoinNetwork_init (e : Env) : World :=
mkWorld e
  (BitcoinNetwork.mk 850000 (time_time e 0) 600 [] [] [] [] 600000000 1)
  (fun _ => blank_utxo) 0 (fun _ => blank_tx) 0 (fun _ => blank_attacker) 0
  0 1.

(** ** [BitcoinNetwork.create_utxo] *)

Definition create_utxo (addr_type : AddressType) (amount : Q) (num_signers : Z)
  : M uref :=
r1 <- draw_random ;;
s1 <- str_of_float r1 ;;
txid <- sha256 s1 ;;
r2 <- draw_random ;;
s2 <- str_of_float r2 ;;
privkey <- sha256 s2 ;;
pubkey <- sha256 privkey ;;
h <- sha256 pubkey ;;
let pubkey_hash := prefix_slice 40 h in
let legacy :=
  ("1" ++ prefix_slice 33 pubkey_hash,
   "OP_DUP OP_HASH160 " ++ prefix_slice 40 pubkey_hash
     ++ " OP_EQUALVERIFY OP_CHECKSIG") in
let '(address, script) :=
  if AddressType_eqb addr_type P2PKH then legacy
  else if AddressType_eqb addr_type P2WPKH then
    ("bc1q" ++ prefix_slice 38 pubkey_hash, "OP_0 " ++ prefix_slice 40 pubkey_hash)
  else if AddressType_eqb addr_type P2TR then
    ("bc1p" ++ prefix_slice 58 pubkey_hash, "OP_1 " ++ prefix_slice 64 pubkey_hash)
  else if str_contains "MULTISIG" (AddressType_value addr_type) then
    ("3" ++ prefix_slice 33 pubkey_hash,
     "OP_" ++ str_int num_signers ++ " ... OP_CHECKMULTISIG")
  else legacy in
w <- get ;;
r <- construct (new_utxo
       (UTXO.mk txid 0 address addr_type amount privkey pubkey pubkey_hash
          script false false 0 (BitcoinNetwork.current_block (net w)))) ;;
modify (fun w =>
  set_net (BitcoinNetwork.set_utxo_set
             (BitcoinNetwork.utxo_set (net w) ++ [r])%list (net w)) w) ;;
ret r.

(** ** [BitcoinNetwork.create_transaction] *)

(** The body of the loop over [inputs]: the public key and the signature
    that the iteration appends. *)
Definition expose_input (txid : string) (r : uref) : M (string * string) :=
w <- get ;;
(if negb (UTXO.pubkey_exposed (utxos w r)) then
   modify (update_utxo r (UTXO.set_pubkey_exposed true)) ;;
   modify (update_utxo r
             (fun u => UTXO.set_exposure_count (UTXO.exposure_count u + 1)%Z u))
 else ret tt) ;;
w <- get ;;
signature <- sha256 (txid ++ UTXO.privkey (utxos w r)) ;;
ret (UTXO.pubkey (utxos w r), signature).

Definition create_transaction (inputs : list uref) (outputs : list Output)
  (fee : Q) (rbf : bool) : M tref :=
w <- get ;;
let joined := String.concat "" (map (fun r => UTXO.txid (utxos w r)) inputs) in
r <- draw_random ;;
s <- str_of_float r ;;
txid <- sha256 (joined ++ s) ;;
exposed <- map_M (expose_input txid) inputs ;;
w <- get ;;
construct (new_tx
  (Transaction.mk txid inputs outputs fee (map fst exposed) (map snd exposed)
     CREATED (BitcoinNetwork.current_time (net w)) None rbf 0 None [] None)).

(** ** [BitcoinNetwork.broadcast_transaction] *)

(** [sum(inp.amount for inp in tx.inputs)] *)
Definition total_input (w : World) (t : tref) : Q :=
py_sum (map (fun r => UTXO.amount (utxos w r)) (Transaction.inputs (txs w t))).

(** [sum(out['amount'] for out in tx.outputs)] *)
Definition total_output (w : World) (t : tref) : Q :=
py_sum (map out_amount (Transaction.outputs (txs w t))).

(** [d[k] = v] on a dict: an existing key keeps its place. *)
Fixpoint dict_set (k : string) (v : tref) (d : list (string * tref))
  : list (string * tref) :=
match d with
| [] => [(k, v)]
| (k', v') :: d' =>
    if String.eqb k' k then (k', v) :: d' else (k', v') :: dict_set k v d'
end.

Fixpoint dict_get (k : string) (d : list (string * tref)) : option tref :=
match d with
| [] => None
| (k', v') :: d' => if String.eqb k' k then Some v' else dict_get k d'
end.

(** The fee percentage is computed for the report before anything is
    changed. *)
Definition broadcast_transaction (t : tref) : M unit :=
w <- get ;;
_ <- py_div (Transaction.fee (txs w t)) (total_input w t) ;;
modify (update_tx t (Transaction.set_status BROADCAST)) ;;
modify (fun w =>
  set_net (BitcoinNetwork.set_mempool
             (dict_set (Transaction.txid (txs w t)) t
                (BitcoinNetwork.mempool (net w))) (net w)) w).

(** ** [QuantumAttacker.should_attack] *)

Definition should_attack (a : aref) (t : tref) : M bool :=
w <- get ;;
let total_value := total_input w t in
let strategy := QuantumAttacker.attack_strategy (attackers w a) in
if String.eqb strategy "AGGRESSIVE" then ret (Qgtb total_value (1 # 10))
else if String.eqb strategy "SELECTIVE" then ret (Qgtb total_value 5)
else if Qgtb total_value 1 then r <- draw_random ;; ret (Qgtb r (1 # 2))
else ret false.

(** ** [BitcoinNetwork._execute_quantum_attack] *)

Definition record_failed_attack (a : aref) : M unit :=
modify (update_attacker a
  (fun x => QuantumAttacker.set_failed_attacks
              (QuantumAttacker.failed_attacks x + 1)%Z x)).

(** [if not hasattr(tx, 'attack_details'): tx.attack_details = []] followed
    by [tx.attack_details.append(d)]. *)
Definition append_attack_detail (d : AttackDetail.t) (x : Transaction.t)
  : Transaction.t :=
match Transaction.attack_details x with
| None => Transaction.set_attack_details (Some [d]) x
| Some l => Transaction.set_attack_details (Some (l ++ [d])%list) x
end.

Definition attack_time_of (w : World) (a : aref) (t : tref) : Q :=
QuantumAttacker.estimate_attack_time (attackers w a)
  (Z.of_nat (List.length (Transaction.pubkeys_exposed (txs w t)))).

Definition block_time_remaining_at (w : World) (now : Q) (t : tref) : Q :=
BitcoinNetwork.block_time_avg (net w)
  - (now - Transaction.broadcast_time (txs w t)).

Definition attack_fee_of (w : World) (t : tref) : Q :=
py_min (Transaction.fee (txs w t) * 10) (total_input w t * (1 # 2)).

Definition _execute_quantum_attack (a : aref) (t : tref) : M unit :=
w <- get ;;
let total_value := total_input w t in
let attack_time := attack_time_of w a t in
now <- read_clock ;;
let block_time_remaining := block_time_remaining_at w now t in
if Qgtb attack_time block_time_remaining then record_failed_attack a
else
  r <- draw_random ;;
  if Qgtb r (QuantumComputer.success_probability
               (QuantumAttacker.quantum_computer (attackers w a)))
  then record_failed_attack a
  else
    n <- draw_randint ;;
    let attacker_name := QuantumAttacker.name (attackers w a) in
    let attacker_address :=
      "bc1q_quantum_attacker_" ++ attacker_name ++ "_" ++ str_int n in
    let attack_fee := attack_fee_of w t in
    let attack_output_value := total_value - attack_fee in
    competing_txid <-
      sha256 ("attack" ++ Transaction.txid (txs w t) ++ attacker_name) ;;
    _ <- py_div attack_fee (Transaction.fee (txs w t)) ;;
    modify (update_tx t (Transaction.set_status ATTACKED)) ;;
    modify (update_tx t
      (fun x => Transaction.set_competing_txs
                  (Transaction.competing_txs x ++ [competing_txid])%list x)) ;;
    modify (update_tx t
      (append_attack_detail
         (AttackDetail.mk attacker_name competing_txid attack_fee
            attacker_address attack_output_value))).

(** ** [BitcoinNetwork.quantum_attack_scan] *)

Fixpoint filter_M {A : Type} (p : A -> M bool) (l : list A) : M (list A) :=
match l with
| [] => ret []
| x :: l' =>
    b <- p x ;;
    rest <- filter_M p l' ;;
    ret (if b then x :: rest else rest)
end.

(** The loop that fills [targets_found]. *)
Definition find_targets (a : aref) (pool : list (string * tref)) : M (list tref) :=
found <- filter_M (fun entry : string * tref =>
           w <- get ;;
           if TxStatus_eqb (Transaction.status (txs w (snd entry))) ATTACKED
           then ret false
           else should_attack a (snd entry)) pool ;;
ret (map snd found).

Definition quantum_attack_scan : M unit :=
w <- get ;;
match BitcoinNetwork.mempool (net w) with
| [] => ret tt
| _ :: _ =>
    for_each (BitcoinNetwork.quantum_attackers (net w)) (fun a =>
      w <- get ;;
      targets_found <- find_targets a (BitcoinNetwork.mempool (net w)) ;;
      match targets_found with
      | [] => ret tt
      | _ :: _ => for_each targets_found (_execute_quantum_attack a)
      end)
end.

(** ** [BitcoinNetwork.mine_block] *)

(** [t.fee / sum(i.amount for i in t.inputs)] *)
Definition fee_rate (t : tref) : M Q :=
w <- get ;;
py_div (Transaction.fee (txs w t)) (total_input w t).

(** [tuple(sorted([f"{inp.txid}:{inp.vout}" for inp in tx.inputs]))] *)
Definition input_key (w : World) (t : tref) : list string :=
sorted_str
  (map (fun r => UTXO.txid (utxos w r) ++ ":" ++ str_int (UTXO.vout (utxos w r)))
     (Transaction.inputs (txs w t))).

(** [double_spend_groups[k].append(t)] on a [defaultdict(list)]. *)
Fixpoint group_append (k : list string) (t : tref)
  (groups : list (list string * list tref)) : list (list string * list tref) :=
match groups with
| [] => [(k, [t])]
| (k', ts) :: groups' =>
    if key_eqb k' k then (k', (ts ++ [t])%list) :: groups'
    else (k', ts) :: group_append k t groups'
end.

Definition double_spend_groups (w : World) (tx_list : list tref)
  : list (list string * list tref) :=
fold_left (fun groups t => group_append (input_key w t) t groups) tx_list [].

(** The loop over [quantum_attackers] for one entry of
    [winner.attack_details]. *)
Definition credit_attackers (d : AttackDetail.t) : M unit :=
w <- get ;;
for_each (BitcoinNetwork.quantum_attackers (net w)) (fun a =>
  w <- get ;;
  if String.eqb (QuantumAttacker.name (attackers w a)) (AttackDetail.attacker d)
  then modify (update_attacker a (QuantumAttacker.credit (AttackDetail.value d)))
  else ret tt).

(** [conflicting_txs.sort(key=lambda t: t.fee, reverse=True)] *)
Definition sort_by_fee (w : World) (conflicting_txs : list tref) : list tref :=
sort_desc (fun t => Transaction.fee (txs w t)) conflicting_txs.

(** The body of the loop over the groups; its result is the transaction
    that the iteration appends to [confirmed_txs]. *)
Definition resolve_group (conflicting_txs : list tref) : M tref :=
w <- get ;;
if (1 <? List.length conflicting_txs)%nat then
  match sort_by_fee w conflicting_txs with
  | [] => raise IndexError
  | winner :: losers =>
      (if TxStatus_eqb (Transaction.status (txs w winner)) ATTACKED then
         match Transaction.attack_details (txs w winner) with
         | None => raise AttributeError
         | Some details =>
             for_each details credit_attackers ;;
             modify (update_tx winner (Transaction.set_status STOLEN))
         end
       else modify (update_tx winner (Transaction.set_status CONFIRMED))) ;;
      ret winner
  end
else
  match conflicting_txs with
  | [] => raise IndexError
  | tx :: _ =>
      modify (update_tx tx (Transaction.set_status CONFIRMED)) ;;
      ret tx
  end.

(** [mine_block] returns nothing; the model returns its local
    [confirmed_txs], so that the confirmed set can be talked about. *)
Definition mine_block : M (list tref) :=
w <- get ;;
match BitcoinNetwork.mempool (net w) with
| [] =>
    modify (fun w =>
      set_net (BitcoinNetwork.set_current_block
                 (BitcoinNetwork.current_block (net w) + 1)%Z (net w)) w) ;;
    ret []
| _ :: _ =>
    let values := map snd (BitcoinNetwork.mempool (net w)) in
    keys <- map_M fee_rate values ;;
    let tx_list := map snd (sort_desc fst (combine keys values)) in
    for_each (firstn 5 tx_list) (fun t => _ <- fee_rate t ;; ret tt) ;;
    w <- get ;;
    confirmed_txs <-
      map_M (fun group => resolve_group (snd group))
        (double_spend_groups w tx_list) ;;
    modify (fun w => set_net (BitcoinNetwork.set_mempool [] (net w)) w) ;;
    modify (fun w =>
      set_net (BitcoinNetwork.set_current_block
                 (BitcoinNetwork.current_block (net w) + 1)%Z (net w)) w) ;;
    modify (fun w =>
      set_net (BitcoinNetwork.set_current_time
                 (BitcoinNetwork.current_time (net w)
                  + BitcoinNetwork.block_time_avg (net w)) (net w)) w) ;;
    ret confirmed_txs
end.

(** ** What the driver does around the core *)

(** [QuantumAttacker(name, qc, attack_strategy=..)] followed by
    [network.quantum_attackers.extend([..])]. *)
Definition register_attacker (name : string) (qc : QuantumComputer.t)
  (strategy : string) : M aref :=
a <- construct (new_attacker (QuantumAttacker.mk name qc 0 0 0 0 strategy)) ;;
modify (fun w =>
  set_net (BitcoinNetwork.set_quantum_attackers
             (BitcoinNetwork.quantum_attackers (net w) ++ [a])%list (net w)) w) ;;
ret a.


(** ** Sequences of operations *)

Inductive Op : Type :=
| CreateOutput (addr_type : AddressType) (amount : Q) (num_signers : Z)
| BuildTransaction (inputs : list uref) (outputs : list Output) (fee : Q)
    (rbf : bool)
| Broadcast (t : tref)
| RunAttackScan
| MineBlock
| RegisterAttacker (name : string) (qc : QuantumComputer.t) (strategy : string).

Definition forget {A : Type} (m : M A) : M unit := _ <- m ;; ret tt.

Definition exec (op : Op) : M unit :=
match op with
| CreateOutput addr_type amount num_signers =>
    forget (create_utxo addr_type amount num_signers)
| BuildTransaction inputs outputs fee rbf =>
    forget (create_transaction inputs outputs fee rbf)
| Broadcast t => broadcast_transaction t
| RunAttackScan => quantum_attack_scan
| MineBlock => forget mine_block
| RegisterAttacker name qc strategy =>
    forget (register_attacker name qc strategy)
end.

(** The world after a call, whatever its outcome. *)
Definition after {A : Type} (m : M A) (w : World) : World := snd (m w).

(** The world after a sequence of calls; a call that raises leaves its
    world to the next one. *)
Definition run (ops : list Op) (w : World) : World :=
fold_left (fun w op => after (exec op) w) ops w.

(** ** Two-state invariants

    A relation between the world before and the world after is a frame when
    it is a preorder that the ambient counters do not disturb.  [steps R m]
    says that every call of [m] stays inside [R], whatever its outcome. *)

Class Frame (R : World -> World -> Prop) : Prop := {
  frame_refl : forall w, R w w;
  frame_trans : forall w1 w2 w3, R w1 w2 -> R w2 w3 -> R w1 w3;
  frame_rand : forall w, R w (bump_rand w);
  frame_time : forall w, R w (bump_time w)
}.

Definition steps (R : World -> World -> Prop) {A : Type} (m : M A) : Prop :=
forall w, R w (after m w).

(** The UTXO part of the world evolves: references stay valid, [spent] is
    kept, an exposed key stays exposed with its counter, an unexposed one is
    exposed at most once and counted then, new objects are unspent, and the
    registry only gains references that are valid. *)
Definition utxo_evolves (w w' : World) : Prop :=
(utxo_count w <= utxo_count w')%nat
/\ (forall r, (r < utxo_count w)%nat ->
      UTXO.spent (utxos w' r) = UTXO.spent (utxos w r)
      /\ (UTXO.pubkey_exposed (utxos w r) = true ->
            UTXO.pubkey_exposed (utxos w' r) = true
            /\ UTXO.exposure_count (utxos w' r) = UTXO.exposure_count (utxos w r))
      /\ (UTXO.pubkey_exposed (utxos w r) = false ->
            (UTXO.pubkey_exposed (utxos w' r) = false
             /\ UTXO.exposure_count (utxos w' r) = UTXO.exposure_count (utxos w r))
            \/ (UTXO.pubkey_exposed (utxos w' r) = true
                /\ UTXO.exposure_count (utxos w' r)
                   = (UTXO.exposure_count (utxos w r) + 1)%Z)))
/\ (forall r, (utxo_count w <= r < utxo_count w')%nat ->
      UTXO.spent (utxos w' r) = false)
/\ (forall r, In r (BitcoinNetwork.utxo_set (net w')) ->
      In r (BitcoinNetwork.utxo_set (net w)) \/ (r < utxo_count w')%nat).

(** No transaction becomes [STOLEN]. *)
Definition no_new_stolen (w w' : World) : Prop :=
forall t, Transaction.status (txs w' t) = STOLEN ->
          Transaction.status (txs w t) = STOLEN.

(** Only the attackers' statistics and the ambient counters change. *)
Definition same_ledger (w w' : World) : Prop :=
net w' = net w /\ utxos w' = utxos w /\ txs w' = txs w
/\ utxo_count w' = utxo_count w /\ tx_count w' = tx_count w.

(** Only the UTXO objects and the ambient counters change. *)
Definition only_utxos (w w' : World) : Prop :=
net w' = net w /\ txs w' = txs w /\ tx_count w' = tx_count w
/\ utxo_count w' = utxo_count w /\ attackers w' = attackers w.

(** The mempool dictionary is the same. *)
Definition same_mempool (w w' : World) : Prop :=
BitcoinNetwork.mempool (net w') = BitcoinNetwork.mempool (net w).

(** The registry is all unspent. *)
Definition registry_unspent (w : World) : Prop :=
(forall r, (r < utxo_count w)%nat -> UTXO.spent (utxos w r) = false)
/\ (forall r, In r (BitcoinNetwork.utxo_set (net w)) -> (r < utxo_count w)%nat).

(** A program that cannot raise. *)
Definition succeeds {A : Type} (m : M A) : Prop :=
forall w, exists a, fst (m w) = Ok a.

(** ** Views of an attack

    What [_execute_quantum_attack] reads from the world [w] it starts in,
    and the two ways it changes it. *)


Definition attack_now (w : World) : Q := time_time (env w) (time_calls w).

Definition attack_draw (w : World) : Q := random_random (env w) (rand_calls w).

Definition attack_probability (w : World) (a : aref) : Q :=
QuantumComputer.success_probability
  (QuantumAttacker.quantum_computer (attackers w a)).

Definition competing_txid_of (w : World) (a : aref) (t : tref) : string :=
sha256_hex (env w)
  ("attack" ++ Transaction.txid (txs w t) ++ QuantumAttacker.name (attackers w a)).

Definition attack_detail_of (w : World) (a : aref) (t : tref) : AttackDetail.t :=
AttackDetail.mk (QuantumAttacker.name (attackers w a))
  (competing_txid_of w a t) (attack_fee_of w t)
  ("bc1q_quantum_attacker_" ++ QuantumAttacker.name (attackers w a) ++ "_"
     ++ str_int (random_randint (env w) (S (rand_calls w))))
  (total_input w t - attack_fee_of w t).

Definition failed_attack (a : aref) (w : World) : World :=
update_attacker a
  (fun x => QuantumAttacker.set_failed_attacks
              (QuantumAttacker.failed_attacks x + 1)%Z x) w.

Definition successful_attack (w0 : World) (a : aref) (t : tref) (w : World) : World :=
update_tx t (append_attack_detail (attack_detail_of w0 a t))
  (update_tx t
     (fun x => Transaction.set_competing_txs
                 (Transaction.competing_txs x ++ [competing_txid_of w0 a t])%list x)
     (update_tx t (Transaction.set_status ATTACKED) w)).

(** ** Views of block selection *)

(** The members of the group of [k] among [l], in the order of [l], and the
    groups of [l], for a key [keyf]. *)
Definition members_of (keyf : tref -> list string) (k : list string)
  (l : list tref) : list tref :=
filter (fun m => key_eqb (keyf m) k) l.

Definition group_by (keyf : tref -> list string) (l : list tref)
  : list (list string * list tref) :=
fold_left (fun groups t => group_append (keyf t) t groups) l [].

(** The transaction that a group puts first: the head of the group sorted
    by fee. *)
Definition winner (w : World) (members : list tref) : option tref :=
hd_error (sort_by_fee w members).

Definition fee_rate_of (w : World) (t : tref) : Q :=
Transaction.fee (txs w t) / total_input w t.

(** [tx_list] after the sort by fee rate, and the groups made from it. *)
Definition selection_order (w : World) : list tref :=
let values := map snd (BitcoinNetwork.mempool (net w)) in
map snd (sort_desc fst (combine (map (fee_rate_of w) values) values)).

Definition conflict_groups (w : World) : list (list string * list tref) :=
double_spend_groups w (selection_order w).

(** The last three statements of [mine_block]. *)
Definition finalize_block (w : World) : World :=
let w1 := set_net (BitcoinNetwork.set_mempool [] (net w)) w in
let w2 := set_net (BitcoinNetwork.set_current_block
                     (BitcoinNetwork.current_block (net w1) + 1)%Z (net w1)) w1 in
set_net (BitcoinNetwork.set_current_time
           (BitcoinNetwork.current_time (net w2)
            + BitcoinNetwork.block_time_avg (net w2)) (net w2)) w2.

(** What the loop over [groups] may have done between [w] and [w']: a
    transaction is as it was, or it is the winner of one of the groups and
    has become [CONFIRMED], or [STOLEN] from [ATTACKED] in a group of more
    than one. *)
Definition resolved (w : World) (groups : list (list tref)) (w' : World) : Prop :=
net w' = net w /\ utxos w' = utxos w
/\ forall t,
     txs w' t = txs w t
     \/ exists members,
          In members groups /\ winner w members = Some t
          /\ (txs w' t = Transaction.set_status CONFIRMED (txs w t)
              \/ (txs w' t = Transaction.set_status STOLEN (txs w t)
                  /\ Transaction.status (txs w t) = ATTACKED
                  /\ (1 < List.length members)%nat)).

(** The inputs of the transaction do not sum to zero. *)
Definition funded (w : World) (t : tref) : bool :=
negb (Qeq_bool (total_input w t) 0).


(** ** Worlds that the operations reach *)

(** The arguments of an operation are objects that exist. *)
Definition valid_op (w : World) (op : Op) : Prop :=
match op with
| BuildTransaction inputs _ _ _ => forall r, In r inputs -> (r < utxo_count w)%nat
| Broadcast t => (t < tx_count w)%nat
| _ => True
end.

Inductive reachable (e : Env) : World -> Prop :=
| reachable_init : reachable e (BitcoinNetwork_init e)
| reachable_step (w : World) (op : Op) :
    reachable e w -> valid_op w op -> reachable e (after (exec op) w).

(** What block selection relies on: transactions spend objects that exist,
    the mempool is keyed by the ids of distinct existing transactions whose
    inputs do not sum to zero, and an attacked transaction carries its
    attack details. *)
Definition mempool_ready (w : World) : Prop :=
(forall t r, (t < tx_count w)%nat -> In r (Transaction.inputs (txs w t)) ->
   (r < utxo_count w)%nat)
/\ (forall k t, In (k, t) (BitcoinNetwork.mempool (net w)) ->
      (t < tx_count w)%nat /\ Transaction.txid (txs w t) = k
      /\ ~ total_input w t == 0)
/\ NoDup (map fst (BitcoinNetwork.mempool (net w)))
/\ (forall t, Transaction.status (txs w t) = ATTACKED ->
      Transaction.attack_details (txs w t) <> None).

(** What an operation other than the two builders may change, as far as
    [mempool_ready] can tell. *)
Definition ready_frame (w w' : World) : Prop :=
net w' = net w /\ utxos w' = utxos w
/\ tx_count w' = tx_count w /\ utxo_count w' = utxo_count w
/\ forall t,
     Transaction.txid (txs w' t) = Transaction.txid (txs w t)
     /\ Transaction.inputs (txs w' t) = Transaction.inputs (txs w t)
     /\ ((Transaction.status (txs w t) = ATTACKED ->
          Transaction.attack_details (txs w t) <> None) ->
         Transaction.status (txs w' t) = ATTACKED ->
         Transaction.attack_details (txs w' t) <> None).

(** The numbers of objects are the same. *)
Definition same_counts (w w' : World) : Prop :=
tx_count w' = tx_count w /\ utxo_count w' = utxo_count w.

(** The amounts of the UTXOs are the same. *)
Definition same_amounts (w w' : World) : Prop :=
forall r, UTXO.amount (utxos w' r) = UTXO.amount (utxos w r).

(** ** Views for the properties beyond the claims *)

From Stdlib Require Import Lqa.

(** The attacker with another qubit count and error rate. *)
Definition with_capability (qubits : Z) (error_rate : Q) (a : QuantumAttacker.t)
  : QuantumAttacker.t :=
QuantumAttacker.mk (QuantumAttacker.name a)
  (QuantumComputer.mk
     (QuantumComputer.name (QuantumAttacker.quantum_computer a)) qubits
     error_rate
     (QuantumComputer.key_derivation_time (QuantumAttacker.quantum_computer a))
     (QuantumComputer.success_probability (QuantumAttacker.quantum_computer a)))
  (QuantumAttacker.btc_balance a) (QuantumAttacker.successful_attacks a)
  (QuantumAttacker.failed_attacks a) (QuantumAttacker.total_stolen a)
  (QuantumAttacker.attack_strategy a).

(** The first characters of the address that [create_utxo] gives to an
    address type. *)
Definition address_prefix (addr_type : AddressType) : string :=
match addr_type with
| P2WPKH => "bc1q"
| P2TR => "bc1p"
| P2PKH | P2SH_MULTISIG_2OF3 | P2WSH_MULTISIG_3OF5 => "1"
end.

Definition address_body_length (addr_type : AddressType) : nat :=
match addr_type with
| P2WPKH => 38
| P2TR => 58
| P2PKH | P2SH_MULTISIG_2OF3 | P2WSH_MULTISIG_3OF5 => 33
end.

(** The list behind [tx.attack_details]: empty while the attribute is not
    there. *)
Definition details_of (x : Transaction.t) : list AttackDetail.t :=
match Transaction.attack_details x with
| Some l => l
| None => []
end.

(** The fields of a transaction that are set when it is built. *)
Definition tx_fixed (x : Transaction.t) :=
(Transaction.txid x, Transaction.inputs x, Transaction.outputs x,
 Transaction.fee x, Transaction.pubkeys_exposed x, Transaction.signatures x,
 Transaction.broadcast_time x, Transaction.rbf_enabled x).

(** The fields of a transaction that have a default and no assignment. *)
Definition tx_unused (x : Transaction.t) :=
(Transaction.confirmation_time x, Transaction.locktime x,
 Transaction.witness_data x).

(** [competing_txs] holds the competing ids of the attack details. *)
Definition details_in_sync (x : Transaction.t) : Prop :=
Transaction.competing_txs x = map AttackDetail.competing_txid (details_of x).

(** How the transaction store evolves: existing transactions keep what
    they were built with, the records of attacks only grow, and in step;
    new transactions start without records; no status becomes
    [RBF_REPLACED]. *)
Definition tx_evolves (w w' : World) : Prop :=
(tx_count w <= tx_count w')%nat
/\ (forall t, (t < tx_count w)%nat ->
      tx_fixed (txs w' t) = tx_fixed (txs w t)
      /\ tx_unused (txs w' t) = tx_unused (txs w t)
      /\ exists ds,
           details_of (txs w' t) = (details_of (txs w t) ++ ds)%list
           /\ Transaction.competing_txs (txs w' t)
              = (Transaction.competing_txs (txs w t)
                   ++ map AttackDetail.competing_txid ds)%list)
/\ (forall t, (tx_count w <= t < tx_count w')%nat ->
      tx_unused (txs w' t) = (None, 0%Z, None)
      /\ details_in_sync (txs w' t))
/\ (forall t, Transaction.status (txs w' t) = RBF_REPLACED ->
      Transaction.status (txs w t) = RBF_REPLACED).

(** What holds of every transaction of a network since its creation. *)
Definition tx_store_ok (w : World) : Prop :=
(forall t, (t < tx_count w)%nat ->
   tx_unused (txs w t) = (None, 0%Z, None) /\ details_in_sync (txs w t))
/\ (forall t, Transaction.status (txs w t) <> RBF_REPLACED).

(** The fields of a UTXO other than the exposure flag and counter. *)
Definition utxo_fixed (u : UTXO.t) :=
(UTXO.txid u, UTXO.vout u, UTXO.address u, UTXO.address_type u, UTXO.amount u,
 UTXO.privkey u, UTXO.pubkey u, UTXO.pubkey_hash u, UTXO.script_pubkey u,
 UTXO.spent u, UTXO.created_block u).

Definition utxo_identity (w w' : World) : Prop :=
(utxo_count w <= utxo_count w')%nat
/\ forall r, (r < utxo_count w)%nat ->
     utxo_fixed (utxos w' r) = utxo_fixed (utxos w r).

(** How the network object evolves: the height and the time do not go
    back, and the constants and the list of blocks stay. *)
Definition chain_evolves (w w' : World) : Prop :=
(BitcoinNetwork.current_block (net w) <= BitcoinNetwork.current_block (net w'))%Z
/\ BitcoinNetwork.block_time_avg (net w') = BitcoinNetwork.block_time_avg (net w)
/\ BitcoinNetwork.blockchain (net w') = BitcoinNetwork.blockchain (net w)
/\ BitcoinNetwork.network_hash_rate (net w')
   = BitcoinNetwork.network_hash_rate (net w)
/\ BitcoinNetwork.difficulty_adjustment (net w')
   = BitcoinNetwork.difficulty_adjustment (net w)
/\ (0 <= BitcoinNetwork.block_time_avg (net w) ->
    BitcoinNetwork.current_time (net w) <= BitcoinNetwork.current_time (net w')).

(** Only the ambient counters differ. *)
Definition same_objects (w w' : World) : Prop :=
net w' = net w /\ utxos w' = utxos w /\ txs w' = txs w
/\ attackers w' = attackers w.

(** The values of the attack details that name [name]. *)
Definition credited_to (name : string) (details : list AttackDetail.t) : list Q :=
map AttackDetail.value
  (filter (fun d => String.eqb name (AttackDetail.attacker d)) details).

(** An attacker object after the crediting of [details]. *)
Definition credit_all (details : list AttackDetail.t) (a : QuantumAttacker.t)
  : QuantumAttacker.t :=
fold_left
  (fun x d =>
     if String.eqb (QuantumAttacker.name x) (AttackDetail.attacker d)
     then QuantumAttacker.credit (AttackDetail.value d) x else x)
  details a.

(** The status that the loop over the groups gives the transaction that a
    group puts first. *)
Definition decided_status (w : World) (members : list tref) (x : tref) : TxStatus :=
if (1 <? List.length members)%nat
   && TxStatus_eqb (Transaction.status (txs w x)) ATTACKED
then STOLEN else CONFIRMED.

(** Every operation of the sequence has arguments that exist when its turn
    comes. *)
Fixpoint valid_run (w : World) (ops : list Op) : Prop :=
match ops with
| [] => True
| op :: ops' => valid_op w op /\ valid_run (after (exec op) w) ops'
end.

(** The id of a UTXO as [mine_block] writes it: [f"{inp.txid}:{inp.vout}"]. *)
Definition outpoint (w : World) (r : uref) : string :=
UTXO.txid (utxos w r) ++ ":" ++ str_int (UTXO.vout (utxos w r)).

(** The UTXOs of the network have ids of their own. *)
Definition distinct_outpoints (w : World) : Prop :=
forall r r', (r < utxo_count w)%nat -> (r' < utxo_count w)%nat ->
  outpoint w r = outpoint w r' -> r = r'.

(** One of two transactions spends a UTXO that the other does not. *)
Definition inputs_differ (w : World) (t m : tref) : Prop :=
exists r,
  (In r (Transaction.inputs (txs w t)) /\ ~ In r (Transaction.inputs (txs w m)))
  \/ (In r (Transaction.inputs (txs w m)) /\ ~ In r (Transaction.inputs (txs w t))).
(** ** Concrete runs

    A stand-in for the ambient library, for running the program: the digest
    of a string is the string, a float prints as a fraction, the [i]-th call
    to [random] gives [i/100] resp. [1000 + i], and the clock stands at
    [1000]. *)
Definition demo_env : Env :=
mkEnv (fun s => s)
  (fun x => str_int (Qnum x) ++ "/" ++ str_int (Zpos (Qden x)))
  (fun i => inject_Z (Z.of_nat i) / 100)
  (fun i => (1000 + Z.of_nat i)%Z)
  (fun _ => 1000).

(** A network with one UTXO of amount 1. *)
Definition one_coin_world : World :=
after (create_utxo P2PKH 1 1) (BitcoinNetwork_init demo_env).

(** Outputs and fee that the UTXO of [one_coin_world] cannot pay. *)
Definition overspend_outputs : list Output := [mkOutput "1_merchant" 5].
Definition overspend_fee : Q := 1.

(** The high-value scenario of the simulation: one attacker whose attacks
    always succeed, and Carol's transaction of one input of 22.0 with a fee
    of 0.2, broadcast. *)
Definition pirate_computer : QuantumComputer.t :=
QuantumComputer.mk "IBM Quantum-X" 4000 (5 # 10000) 120 1.

Definition carol_setup : M tref :=
_ <- register_attacker "QuantumPirate" pirate_computer "AGGRESSIVE" ;;
carol_taproot <- create_utxo P2TR 22 1 ;;
tx3 <- create_transaction [carol_taproot]
         [mkOutput "bc1p_carol_recipient_taproot" (218 # 10)] (2 # 10) false ;;
broadcast_transaction tx3 ;;
ret tx3.

Definition carol_world : World := after carol_setup (BitcoinNetwork_init demo_env).

Definition carol_attacked : World := after quantum_attack_scan carol_world.

Definition carol_mined : World := after mine_block carol_attacked.



(** A transaction that is broadcast twice, and a second transaction object
    with the id of the first. *)
Definition broadcast_once : World :=
after (tx <- create_transaction [0%nat] [mkOutput "1_merchant" (1 # 2)] (1 # 10) false ;;
       broadcast_transaction tx) one_coin_world.

Definition twin_world : World :=
snd (new_tx (Transaction.mk (Transaction.txid (txs broadcast_once 0%nat))
               [0%nat] [mkOutput "1_other" (1 # 4)] (1 # 5) [] [] CONFIRMED 0
               None false 0 None [] None) broadcast_once).

(** A double spend: two transactions of the same input in the mempool, the
    one with the higher fee attacked with success. *)
Definition double_spend_setup : M unit :=
_ <- register_attacker "QuantumPirate" pirate_computer "AGGRESSIVE" ;;
carol_taproot <- create_utxo P2TR 22 1 ;;
tx_a <- create_transaction [carol_taproot]
          [mkOutput "bc1p_carol_recipient_taproot" (218 # 10)] (2 # 10) false ;;
tx_b <- create_transaction [carol_taproot]
          [mkOutput "bc1p_carol_other_recipient" (219 # 10)] (1 # 10) false ;;
broadcast_transaction tx_a ;;
broadcast_transaction tx_b ;;
_execute_quantum_attack 0%nat tx_a.

Definition double_spend_world : World :=
after double_spend_setup (BitcoinNetwork_init demo_env).

(** A transaction without inputs, built on a fresh network. *)
Definition no_input_world : World :=
after (create_transaction [] [mkOutput "1_merchant" 1] (1 # 10) false)
  (BitcoinNetwork_init demo_env).

(** The scenario of [carol_world] with a fee of zero. *)
Definition zero_fee_world : World :=
after (_ <- register_attacker "QuantumPirate" pirate_computer "AGGRESSIVE" ;;
       carol_taproot <- create_utxo P2TR 22 1 ;;
       tx <- create_transaction [carol_taproot]
               [mkOutput "bc1p_carol_recipient_taproot" 22] 0 false ;;
       broadcast_transaction tx)
  (BitcoinNetwork_init demo_env).

(** Two computers: one at the thresholds of [can_break_secp256k1] for the
    qubits, one above. *)
Definition threshold_computer : QuantumComputer.t :=
QuantumComputer.mk "Threshold" 2000 (5 # 10000) 120 (95 # 100).

Definition better_computer : QuantumComputer.t :=
QuantumComputer.mk "Better" 4000 (1 # 10000) 60 (99 # 100).


(** Two transactions in the mempool that share one input and differ in the
    other: the second spends what the first spends, and one output more. *)
Definition overlap_ops : list Op :=
[CreateOutput P2PKH 1 1;
 CreateOutput P2PKH 2 1;
 BuildTransaction [0%nat] [mkOutput "1_merchant" (1 # 2)] (1 # 10) false;
 BuildTransaction [0%nat; 1%nat] [mkOutput "1_other" 2] (2 # 10) false;
 Broadcast 0%nat;
 Broadcast 1%nat].

Definition overlap_world : World := run overlap_ops (BitcoinNetwork_init demo_env).

(** Two attackers of different strategies, a [SELECTIVE] one and an
    [AGGRESSIVE] one, and a broadcast transaction of one input of 22.0. *)
Definition two_strategies_world : World :=
after (_ <- register_attacker "QuantumSniper" pirate_computer "SELECTIVE" ;;
       _ <- register_attacker "QuantumPirate" pirate_computer "AGGRESSIVE" ;;
       carol_taproot <- create_utxo P2TR 22 1 ;;
       tx <- create_transaction [carol_taproot]
               [mkOutput "bc1p_carol_recipient_taproot" (218 # 10)] (2 # 10) false ;;
       broadcast_transaction tx)
  (BitcoinNetwork_init demo_env).

(** Two transactions in the mempool with two inputs each, one of them
    shared: the first spends UTXOs 0 and 1, the second UTXOs 0 and 2. *)
Definition shared_input_ops : list Op :=
[CreateOutput P2PKH 1 1;
 CreateOutput P2PKH 2 1;
 CreateOutput P2PKH 3 1;
 BuildTransaction [0%nat; 1%nat] [mkOutput "1_merchant" 2] (1 # 10) false;
 BuildTransaction [0%nat; 2%nat] [mkOutput "1_other" 3] (2 # 10) false;
 Broadcast 0%nat;
 Broadcast 1%nat].

Definition shared_input_world : World :=
run shared_input_ops (BitcoinNetwork_init demo_env).
(** * Properties *)

(** ** The monad *)

Section FrameRules.
Variable R : World -> World -> Prop.
Context {HR : Frame R}.

Lemma steps_ret {A : Type} (a : A) : steps R (ret a).
Proof. intro w. apply frame_refl. Qed.

Lemma steps_raise {A : Type} (e : exn) : steps R (@raise A e).
Proof. intro w. apply frame_refl. Qed.

Lemma steps_get : steps R get.
Proof. intro w. apply frame_refl. Qed.

Lemma steps_modify (f : World -> World) :
  (forall w, R w (f w)) -> steps R (modify f).
Proof. intros H w. apply H. Qed.

Lemma steps_construct {A : Type} (alloc : World -> A * World) :
  (forall w, R w (snd (alloc w))) -> steps R (construct alloc).
Proof.
  intros H w. specialize (H w). unfold after, construct.
  now destruct (alloc w).
Qed.

Lemma steps_bind {A B : Type} (m : M A) (k : A -> M B) :
  steps R m -> (forall a, steps R (k a)) -> steps R (bind m k).
Proof.
  intros Hm Hk w. specialize (Hm w). unfold after, bind in *.
  destruct (m w) as [[a | e] w1]; simpl in *.
  - eapply frame_trans; [exact Hm | apply Hk].
  - exact Hm.
Qed.

Lemma steps_for_each {A : Type} (l : list A) (body : A -> M unit) :
  (forall x, In x l -> steps R (body x)) -> steps R (for_each l body).
Proof.
  induction l as [| x l IH]; intros H; simpl.
  - apply steps_ret.
  - apply steps_bind.
    + apply H. now left.
    + intros _. apply IH. intros y Hy. apply H. now right.
Qed.

Lemma steps_map_M {A B : Type} (f : A -> M B) (l : list A) :
  (forall x, In x l -> steps R (f x)) -> steps R (map_M f l).
Proof.
  induction l as [| x l IH]; intros H; simpl.
  - apply steps_ret.
  - apply steps_bind.
    + apply H. now left.
    + intros y. apply steps_bind.
      * apply IH. intros z Hz. apply H. now right.
      * intros ys. apply steps_ret.
Qed.

Lemma steps_filter_M {A : Type} (p : A -> M bool) (l : list A) :
  (forall x, steps R (p x)) -> steps R (filter_M p l).
Proof.
  intros H. induction l as [| x l IH]; simpl.
  - apply steps_ret.
  - apply steps_bind; [apply H |].
    intros b. apply steps_bind; [exact IH |].
    intros rest. apply steps_ret.
Qed.

Lemma steps_py_div (a b : Q) : steps R (py_div a b).
Proof.
  unfold py_div. destruct (Qeq_bool b 0); [apply steps_raise | apply steps_ret].
Qed.

Lemma steps_draw_random : steps R draw_random.
Proof. intro w. apply frame_rand. Qed.

Lemma steps_draw_randint : steps R draw_randint.
Proof. intro w. apply frame_rand. Qed.

Lemma steps_read_clock : steps R read_clock.
Proof. intro w. apply frame_time. Qed.

Lemma steps_sha256 (s : string) : steps R (sha256 s).
Proof. intro w. apply frame_refl. Qed.

Lemma steps_str_of_float (x : Q) : steps R (str_of_float x).
Proof. intro w. apply frame_refl. Qed.

Lemma steps_forget {A : Type} (m : M A) : steps R m -> steps R (forget m).
Proof. intros H. apply steps_bind; [exact H | intros a; apply steps_ret]. Qed.

End FrameRules.

(** Walks through a program with the rules above; what is left are the
    state changes of the program. *)
Ltac frame_step :=
  cbv beta zeta;
  lazymatch goal with
  | |- steps _ (bind _ _) => apply steps_bind; [exact _ | | intro]
  | |- steps _ (ret _) => apply steps_ret; exact _
  | |- steps _ (raise _) => apply steps_raise; exact _
  | |- steps _ get => apply steps_get; exact _
  | |- steps _ (py_div _ _) => apply steps_py_div; exact _
  | |- steps _ draw_random => apply steps_draw_random; exact _
  | |- steps _ draw_randint => apply steps_draw_randint; exact _
  | |- steps _ read_clock => apply steps_read_clock; exact _
  | |- steps _ (sha256 _) => apply steps_sha256; exact _
  | |- steps _ (str_of_float _) => apply steps_str_of_float; exact _
  | |- steps _ (forget _) => apply steps_forget; [exact _ |]
  | |- steps _ (for_each _ _) => apply steps_for_each; [exact _ | intros ? ?]
  | |- steps _ (map_M _ _) => apply steps_map_M; [exact _ | intros ? ?]
  | |- steps _ (filter_M _ _) => apply steps_filter_M; [exact _ | intro]
  | |- steps _ (if ?b then _ else _) => destruct b
  | |- steps _ (match ?x with _ => _ end) => destruct x
  end.

(** Opens the operations that are made of the steps above, down to the
    state changes. *)
Ltac frame_open :=
  lazymatch goal with
  | |- steps _ (should_attack _ _) => unfold should_attack
  | |- steps _ (record_failed_attack _) => unfold record_failed_attack
  | |- steps _ (_execute_quantum_attack _ _) => unfold _execute_quantum_attack
  | |- steps _ (find_targets _ _) => unfold find_targets
  | |- steps _ quantum_attack_scan => unfold quantum_attack_scan
  | |- steps _ (fee_rate _) => unfold fee_rate
  | |- steps _ (credit_attackers _) => unfold credit_attackers
  | |- steps _ (resolve_group _) => unfold resolve_group
  | |- steps _ mine_block => unfold mine_block
  | |- steps _ (broadcast_transaction _) => unfold broadcast_transaction
  | |- steps _ (register_attacker _ _ _) => unfold register_attacker
  | |- steps _ (modify _) => apply steps_modify; intro
  | |- steps _ (construct _) => apply steps_construct; intro
  end.

Ltac frame_walk := repeat frame_step.
Ltac frame_all := repeat first [frame_step | frame_open].

(** ** The frames *)

Lemma utxo_evolves_same (w w' : World) :
  utxos w' = utxos w -> utxo_count w' = utxo_count w ->
  BitcoinNetwork.utxo_set (net w') = BitcoinNetwork.utxo_set (net w) ->
  utxo_evolves w w'.
Proof.
  intros Hu Hc Hs. unfold utxo_evolves. rewrite Hu, Hc, Hs.
  repeat split; auto; lia.
Qed.

Lemma utxo_evolves_trans (w1 w2 w3 : World) :
  utxo_evolves w1 w2 -> utxo_evolves w2 w3 -> utxo_evolves w1 w3.
Proof.
  intros (Hc1 & Hold1 & Hnew1 & Hreg1) (Hc2 & Hold2 & Hnew2 & Hreg2).
  unfold utxo_evolves. split; [lia |]. split; [| split].
  - intros r Hr.
    destruct (Hold1 r Hr) as (Hs1 & Ht1 & Hf1).
    assert (Hr2 : (r < utxo_count w2)%nat) by lia.
    destruct (Hold2 r Hr2) as (Hs2 & Ht2 & Hf2).
    split; [congruence |]. split.
    + intros He. destruct (Ht1 He) as [He1 Hn1].
      destruct (Ht2 He1) as [He2 Hn2]. split; congruence.
    + intros He. destruct (Hf1 He) as [[He1 Hn1] | [He1 Hn1]].
      * destruct (Hf2 He1) as [[He2 Hn2] | [He2 Hn2]].
        -- left. split; congruence.
        -- right. split; congruence.
      * destruct (Ht2 He1) as [He2 Hn2]. right. split; congruence.
  - intros r Hr.
    destruct (Nat.lt_ge_cases r (utxo_count w2)) as [Hlt | Hge].
    + destruct (Hold2 r Hlt) as (Hs2 & _). rewrite Hs2. apply Hnew1. lia.
    + apply Hnew2. lia.
  - intros r Hr. destruct (Hreg2 r Hr) as [Hin | Hlt]; [| now right].
    destruct (Hreg1 r Hin) as [Hin1 | Hlt1]; [now left | right; lia].
Qed.

#[export] Instance utxo_evolves_frame : Frame utxo_evolves.
Proof.
  split.
  - intros w. now apply utxo_evolves_same.
  - exact utxo_evolves_trans.
  - intros w. now apply utxo_evolves_same.
  - intros w. now apply utxo_evolves_same.
Qed.

#[export] Instance no_new_stolen_frame : Frame no_new_stolen.
Proof.
  split; unfold no_new_stolen; simpl; auto.
Qed.

#[export] Instance same_ledger_frame : Frame same_ledger.
Proof.
  split; unfold same_ledger; simpl; auto.
  intros w1 w2 w3 (H1 & H2 & H3 & H4 & H5) (K1 & K2 & K3 & K4 & K5).
  repeat split; congruence.
Qed.

#[export] Instance only_utxos_frame : Frame only_utxos.
Proof.
  split; unfold only_utxos; simpl; auto.
  intros w1 w2 w3 (H1 & H2 & H3 & H4 & H5) (K1 & K2 & K3 & K4 & K5).
  repeat split; congruence.
Qed.

#[export] Instance same_mempool_frame : Frame same_mempool.
Proof.
  split; unfold same_mempool; simpl; auto.
  intros w1 w2 w3 H1 H2. congruence.
Qed.

(** ** The UTXO registry under the operations *)

Lemma update_same {X : Type} (r : nat) (f : X -> X) (store : nat -> X) :
  update r f store r = f (store r).
Proof. unfold update. now rewrite Nat.eqb_refl. Qed.

Lemma update_other {X : Type} (r r' : nat) (f : X -> X) (store : nat -> X) :
  r' <> r -> update r f store r' = store r'.
Proof.
  intros H. unfold update. apply Nat.eqb_neq in H. now rewrite H.
Qed.

Lemma expose_input_evolves (txid : string) (r : uref) :
  steps utxo_evolves (expose_input txid r).
Proof.
  intros w. unfold after, expose_input, bind, get, modify, sha256, ret.
  destruct (UTXO.pubkey_exposed (utxos w r)) eqn:He; simpl.
  - apply frame_refl.
  - unfold utxo_evolves; simpl. split; [lia |]. split; [| split].
    + intros r0 Hr0. destruct (Nat.eq_dec r0 r) as [-> | Hne].
      * rewrite !update_same. simpl. split; [reflexivity |].
        split; [congruence |]. intros _. right. now split.
      * rewrite !update_other by assumption. split; [reflexivity |].
        split; [now split |]. intros Hf. left. now split.
    + intros r0 Hr0. lia.
    + intros r0 Hr0. now left.
Qed.

Lemma create_utxo_evolves (addr_type : AddressType) (amount : Q) (num_signers : Z) :
  steps utxo_evolves (create_utxo addr_type amount num_signers).
Proof.
  intros w. unfold after, create_utxo.
  unfold bind, draw_random, str_of_float, sha256, get, construct, modify, ret.
  simpl.
  match goal with
  | |- context [let '(address, script) := ?p in _] => destruct p as [address script]
  end.
  simpl. unfold utxo_evolves; simpl. split; [lia |]. split; [| split].
  - intros r Hr. rewrite update_other by lia.
    split; [reflexivity |]. split; [now split |]. intros Hf. left. now split.
  - intros r Hr. assert (r = utxo_count w) as -> by lia.
    now rewrite update_same.
  - intros r Hr. apply in_app_or in Hr. destruct Hr as [Hr | [<- | []]].
    + now left.
    + right. lia.
Qed.

Lemma create_transaction_evolves (inputs : list uref) (outputs : list Output)
  (fee : Q) (rbf : bool) :
  steps utxo_evolves (create_transaction inputs outputs fee rbf).
Proof.
  unfold create_transaction. frame_walk.
  - apply expose_input_evolves.
  - intros w. unfold after, construct, new_tx. simpl.
    now apply utxo_evolves_same.
Qed.

Lemma exec_evolves (op : Op) : steps utxo_evolves (exec op).
Proof.
  destruct op; unfold exec.
  - apply steps_forget; [exact _ | apply create_utxo_evolves].
  - apply steps_forget; [exact _ | apply create_transaction_evolves].
  - frame_all; now apply utxo_evolves_same.
  - frame_all; now apply utxo_evolves_same.
  - frame_all; now apply utxo_evolves_same.
  - frame_all; now apply utxo_evolves_same.
Qed.

Lemma run_evolves (ops : list Op) (w : World) : utxo_evolves w (run ops w).
Proof.
  revert w. induction ops as [| op ops IH]; intros w; simpl.
  - apply frame_refl.
  - eapply frame_trans; [apply exec_evolves | apply IH].
Qed.

(** ** [create_transaction], step by step *)

(** What one iteration of the loop over [inputs] does to the world. *)
Lemma expose_input_eq (txid : string) (r : uref) (w : World) :
  exists p,
    expose_input txid r w
    = (Ok p,
       if UTXO.pubkey_exposed (utxos w r) then w
       else update_utxo r
              (fun u => UTXO.set_exposure_count (UTXO.exposure_count u + 1)%Z u)
              (update_utxo r (UTXO.set_pubkey_exposed true) w)).
Proof.
  unfold expose_input, bind, get, modify, sha256, ret.
  destruct (UTXO.pubkey_exposed (utxos w r)); simpl; eauto.
Qed.

Lemma expose_input_same (txid : string) (r : uref) (w : World) :
  UTXO.pubkey_exposed (utxos (after (expose_input txid r) w) r) = true
  /\ UTXO.exposure_count (utxos (after (expose_input txid r) w) r)
     = (if UTXO.pubkey_exposed (utxos w r)
        then UTXO.exposure_count (utxos w r)
        else UTXO.exposure_count (utxos w r) + 1)%Z.
Proof.
  unfold after. destruct (expose_input_eq txid r w) as [p ->]. simpl.
  destruct (UTXO.pubkey_exposed (utxos w r)) eqn:He; simpl.
  - now rewrite He.
  - now rewrite !update_same.
Qed.

Lemma expose_input_other (txid : string) (r r0 : uref) (w : World) :
  r0 <> r \/ UTXO.pubkey_exposed (utxos w r0) = true ->
  utxos (after (expose_input txid r) w) r0 = utxos w r0.
Proof.
  intros H. unfold after. destruct (expose_input_eq txid r w) as [p ->]. simpl.
  destruct (UTXO.pubkey_exposed (utxos w r)) eqn:He; simpl; [reflexivity |].
  assert (r0 <> r) by (destruct H; congruence).
  now rewrite !update_other.
Qed.

Lemma map_M_cons_after {A B : Type} (f : A -> M B) (x : A) (l : list A) (w : World) :
  (exists b, fst (f x w) = Ok b) ->
  after (map_M f (x :: l)) w = after (map_M f l) (after (f x) w).
Proof.
  intros [b Hb]. unfold after. simpl. unfold bind, ret.
  destruct (f x w) as [[b' | e] w1]; simpl in *; [| discriminate].
  now destruct (map_M f l w1) as [[ys | e] w2].
Qed.

Lemma expose_loop_stable (txid : string) (inputs : list uref) (r : uref) (w : World) :
  UTXO.pubkey_exposed (utxos w r) = true ->
  utxos (after (map_M (expose_input txid) inputs) w) r = utxos w r.
Proof.
  revert w. induction inputs as [| x l IH]; intros w He; [reflexivity |].
  rewrite map_M_cons_after.
  - rewrite IH; rewrite expose_input_other; auto.
  - destruct (expose_input_eq txid x w) as [p ->]. now exists p.
Qed.

Lemma expose_loop_in (txid : string) (inputs : list uref) (r : uref) (w : World) :
  In r inputs ->
  UTXO.pubkey_exposed (utxos (after (map_M (expose_input txid) inputs) w) r) = true
  /\ UTXO.exposure_count (utxos (after (map_M (expose_input txid) inputs) w) r)
     = (if UTXO.pubkey_exposed (utxos w r)
        then UTXO.exposure_count (utxos w r)
        else UTXO.exposure_count (utxos w r) + 1)%Z.
Proof.
  revert w. induction inputs as [| x l IH]; intros w Hin; [destruct Hin |].
  rewrite map_M_cons_after
    by (destruct (expose_input_eq txid x w) as [p ->]; now exists p).
  destruct (Nat.eq_dec r x) as [-> | Hne].
  - destruct (expose_input_same txid x w) as [He Hc].
    rewrite expose_loop_stable by exact He. now split.
  - destruct Hin as [-> | Hin]; [congruence |].
    destruct (IH (after (expose_input txid x) w) Hin) as [He Hc].
    split; [exact He |]. rewrite Hc.
    now rewrite expose_input_other by (now left).
Qed.

Lemma expose_loop_only_utxos (txid : string) (inputs : list uref) :
  steps only_utxos (map_M (expose_input txid) inputs).
Proof.
  frame_walk. intros w. unfold after.
  destruct (expose_input_eq txid x w) as [p ->]. simpl.
  destruct (UTXO.pubkey_exposed (utxos w x)); [apply frame_refl |].
  unfold only_utxos. simpl. auto.
Qed.

Lemma succeeds_bind {A B : Type} (m : M A) (k : A -> M B) :
  succeeds m -> (forall a, succeeds (k a)) -> succeeds (bind m k).
Proof.
  intros Hm Hk w. destruct (Hm w) as [a Ha]. unfold bind.
  destruct (m w) as [[a' | e] w1]; simpl in Ha; [apply Hk | discriminate].
Qed.

Lemma succeeds_map_M {A B : Type} (f : A -> M B) (l : list A) :
  (forall x, succeeds (f x)) -> succeeds (map_M f l).
Proof.
  intros H. induction l as [| x l IH]; simpl.
  - intros w. now exists [].
  - apply succeeds_bind; [apply H |]. intros y.
    apply succeeds_bind; [exact IH |]. intros ys w. now exists (y :: ys).
Qed.

Lemma expose_input_succeeds (txid : string) (r : uref) :
  succeeds (expose_input txid r).
Proof. intros w. destruct (expose_input_eq txid r w) as [p ->]. now exists p. Qed.

(** [create_transaction] has no failing path: it runs the loop and builds
    the object. *)
Lemma create_transaction_eq (inputs : list uref) (outputs : list Output)
  (fee : Q) (rbf : bool) (w : World) :
  exists txid exposed,
    let w1 := after (map_M (expose_input txid) inputs) (bump_rand w) in
    create_transaction inputs outputs fee rbf w
    = (Ok (tx_count w),
       snd (new_tx
              (Transaction.mk txid inputs outputs fee (map fst exposed)
                 (map snd exposed) CREATED
                 (BitcoinNetwork.current_time (net w1)) None rbf 0 None [] None)
              w1))
    /\ tx_count w1 = tx_count w.
Proof.
  unfold create_transaction, bind, get, draw_random, str_of_float, sha256.
  simpl.
  set (txid := sha256_hex (env w) _).
  destruct (succeeds_map_M (expose_input txid) inputs
              (expose_input_succeeds txid) (bump_rand w)) as [exposed He].
  assert (Hc : tx_count (after (map_M (expose_input txid) inputs) (bump_rand w))
               = tx_count w).
  { now destruct (expose_loop_only_utxos txid inputs (bump_rand w))
      as (_ & _ & -> & _). }
  exists txid, exposed. split; [| exact Hc].
  unfold after in *.
  destruct (map_M (expose_input txid) inputs (bump_rand w)) as [[ps | e] w1];
    simpl in *; [| discriminate].
  injection He as ->. unfold construct, new_tx. simpl. now rewrite Hc.
Qed.

(** ** C3: the transaction builder *)

Lemma create_transaction_succeeds (inputs : list uref) (outputs : list Output)
  (fee : Q) (rbf : bool) :
  succeeds (create_transaction inputs outputs fee rbf).
Proof.
  intros w.
  destruct (create_transaction_eq inputs outputs fee rbf w)
    as (txid & exposed & H & _).
  rewrite H. now exists (tx_count w).
Qed.

Lemma create_transaction_utxos (inputs : list uref) (outputs : list Output)
  (fee : Q) (rbf : bool) (w : World) :
  exists txid,
    utxos (after (create_transaction inputs outputs fee rbf) w)
    = utxos (after (map_M (expose_input txid) inputs) (bump_rand w)).
Proof.
  destruct (create_transaction_eq inputs outputs fee rbf w)
    as (txid & exposed & H & _).
  exists txid. unfold after at 1. now rewrite H.
Qed.

Lemma create_transaction_exposes (inputs : list uref) (outputs : list Output)
  (fee : Q) (rbf : bool) (w : World) (r : uref) :
  In r inputs ->
  let w' := after (create_transaction inputs outputs fee rbf) w in
  UTXO.pubkey_exposed (utxos w' r) = true
  /\ UTXO.exposure_count (utxos w' r)
     = (if UTXO.pubkey_exposed (utxos w r)
        then UTXO.exposure_count (utxos w r)
        else UTXO.exposure_count (utxos w r) + 1)%Z.
Proof.
  intros Hin w'. subst w'.
  destruct (create_transaction_utxos inputs outputs fee rbf w) as [txid ->].
  exact (expose_loop_in txid inputs r (bump_rand w) Hin).
Qed.

(** C3, as the code has it.  [create_transaction] makes no check of the
    funds and has no failing path: whatever the inputs, the outputs and the
    fee (also when the outputs and the fee exceed the inputs), it returns a
    transaction in status [CREATED], and the call has exposed every input:
    the flag is set afterwards, and the counter has gone up by one exactly
    when the flag was not set before. *)
Theorem create_transaction_never_fails
  (w : World) (inputs : list uref) (outputs : list Output) (fee : Q)
  (rbf : bool) :
  exists t w',
    create_transaction inputs outputs fee rbf w = (Ok t, w')
    /\ Transaction.status (txs w' t) = CREATED
    /\ Transaction.inputs (txs w' t) = inputs
    /\ Transaction.outputs (txs w' t) = outputs
    /\ Transaction.fee (txs w' t) = fee
    /\ forall r, In r inputs ->
         UTXO.pubkey_exposed (utxos w' r) = true
         /\ UTXO.exposure_count (utxos w' r)
            = (if UTXO.pubkey_exposed (utxos w r)
               then UTXO.exposure_count (utxos w r)
               else UTXO.exposure_count (utxos w r) + 1)%Z.
Proof.
  pose proof (create_transaction_exposes inputs outputs fee rbf w) as He.
  unfold after in He.
  destruct (create_transaction_eq inputs outputs fee rbf w)
    as (txid & exposed & H & Hc).
  rewrite H in He. rewrite H. simpl in He.
  eexists. eexists. split; [reflexivity |].
  simpl. rewrite Hc, update_same. simpl. repeat split; now apply He.
Qed.

Lemma create_transaction_never_fails_witness :
  exists t w',
    create_transaction [0%nat] overspend_outputs overspend_fee false one_coin_world
    = (Ok t, w')
    /\ Transaction.status (txs w' t) = CREATED
    /\ Transaction.inputs (txs w' t) = [0%nat]
    /\ Transaction.outputs (txs w' t) = overspend_outputs
    /\ Transaction.fee (txs w' t) = overspend_fee
    /\ UTXO.pubkey_exposed (utxos w' 0%nat) = true
    /\ UTXO.exposure_count (utxos w' 0%nat)
       = (if UTXO.pubkey_exposed (utxos one_coin_world 0%nat)
          then UTXO.exposure_count (utxos one_coin_world 0%nat)
          else UTXO.exposure_count (utxos one_coin_world 0%nat) + 1)%Z.
Proof.
  destruct (create_transaction_never_fails one_coin_world [0%nat]
              overspend_outputs overspend_fee false)
    as (t & w' & H & Hs & Hi & Ho & Hf & He).
  exists t, w'. split; [exact H |]. split; [exact Hs |]. split; [exact Hi |].
  split; [exact Ho |]. split; [exact Hf |].
  apply He. simpl. now left.
Defined.

(** C3, as the claim states it, fails: the outputs and the fee exceed the
    only input, and the call returns a transaction all the same, having set
    the exposure flag of the input and counted it. *)
Lemma create_transaction_overspend :
  total_input
    (after (create_transaction [0%nat] overspend_outputs overspend_fee false)
       one_coin_world) 0%nat
  < total_output
      (after (create_transaction [0%nat] overspend_outputs overspend_fee false)
         one_coin_world) 0%nat
    + overspend_fee
  /\ fst (create_transaction [0%nat] overspend_outputs overspend_fee false
            one_coin_world) = Ok 0%nat
  /\ UTXO.pubkey_exposed (utxos one_coin_world 0%nat) = false
  /\ UTXO.exposure_count (utxos one_coin_world 0%nat) = 0%Z
  /\ UTXO.pubkey_exposed
       (utxos (after (create_transaction [0%nat] overspend_outputs
                        overspend_fee false) one_coin_world) 0%nat) = true
  /\ UTXO.exposure_count
       (utxos (after (create_transaction [0%nat] overspend_outputs
                        overspend_fee false) one_coin_world) 0%nat) = 1%Z.
Proof. vm_compute. repeat split; reflexivity. Qed.

(** ** C7 and C10: the exposure flag and the [spent] field *)

Lemma create_utxo_eq (addr_type : AddressType) (amount : Q) (num_signers : Z)
  (w : World) :
  exists u w',
    create_utxo addr_type amount num_signers w = (Ok (utxo_count w), w')
    /\ utxos w' = update (utxo_count w) (fun _ => u) (utxos w)
    /\ utxo_count w' = S (utxo_count w)
    /\ UTXO.pubkey_exposed u = false /\ UTXO.exposure_count u = 0%Z
    /\ UTXO.spent u = false /\ UTXO.amount u = amount
    /\ txs w' = txs w /\ tx_count w' = tx_count w
    /\ BitcoinNetwork.mempool (net w') = BitcoinNetwork.mempool (net w).
Proof.
  unfold create_utxo.
  unfold bind, draw_random, str_of_float, sha256, get, construct, modify, ret.
  simpl.
  match goal with
  | |- context [let '(address, script) := ?p in _] => destruct p as [address script]
  end.
  simpl. eexists. eexists. split; [reflexivity |]. simpl.
  repeat split; reflexivity.
Qed.


Lemma registry_unspent_init (e : Env) : registry_unspent (BitcoinNetwork_init e).
Proof. split; simpl; [intros r Hr; lia | intros r []]. Qed.

Lemma registry_unspent_evolves (w w' : World) :
  registry_unspent w -> utxo_evolves w w' -> registry_unspent w'.
Proof.
  intros [Hs Hr] (Hc & Hold & Hnew & Hreg). split.
  - intros r Hlt. destruct (Nat.lt_ge_cases r (utxo_count w)) as [Ho | Hn].
    + destruct (Hold r Ho) as [-> _]. now apply Hs.
    + apply Hnew. lia.
  - intros r Hin. destruct (Hreg r Hin) as [Ho | Hlt]; [| exact Hlt].
    specialize (Hr r Ho). lia.
Qed.



(** C10.  No operation of the core writes the [spent] field.  In every
    world reached from a fresh network by the core operations, every UTXO
    of the registry is unspent; from any world, a sequence of operations
    leaves the [spent] field of every existing UTXO as it was; and
    [create_transaction] never raises, in any world: it does not look at
    the field. *)
Theorem spent_is_never_set
  (e : Env) (ops : list Op) (r : uref) (w0 : World) (ops0 : list Op)
  (r0 : uref) (inputs : list uref) (outputs : list Output) (fee : Q)
  (rbf : bool) :
  In r (BitcoinNetwork.utxo_set (net (run ops (BitcoinNetwork_init e)))) ->
  (r0 < utxo_count w0)%nat ->
  UTXO.spent (utxos (run ops (BitcoinNetwork_init e)) r) = false
  /\ UTXO.spent (utxos (run ops0 w0) r0) = UTXO.spent (utxos w0 r0)
  /\ exists t, fst (create_transaction inputs outputs fee rbf w0) = Ok t.
Proof.
  intros Hin Hr0. split; [| split].
  - destruct (registry_unspent_evolves _ _ (registry_unspent_init e)
                (run_evolves ops (BitcoinNetwork_init e))) as [Hs Hreg].
    apply Hs, Hreg, Hin.
  - destruct (run_evolves ops0 w0) as (_ & Hold & _).
    now destruct (Hold r0 Hr0) as [-> _].
  - apply create_transaction_succeeds.
Qed.

Lemma spent_is_never_set_witness :
  UTXO.spent
    (utxos (run [CreateOutput P2TR 22 1;
                 BuildTransaction [0%nat] overspend_outputs overspend_fee false;
                 Broadcast 0%nat; RunAttackScan; MineBlock]
              (BitcoinNetwork_init demo_env)) 0%nat) = false
  /\ UTXO.spent (utxos (run [MineBlock] one_coin_world) 0%nat)
     = UTXO.spent (utxos one_coin_world 0%nat)
  /\ exists t,
       fst (create_transaction [0%nat] overspend_outputs overspend_fee false
              one_coin_world) = Ok t.
Proof.
  apply (spent_is_never_set demo_env
           [CreateOutput P2TR 22 1;
            BuildTransaction [0%nat] overspend_outputs overspend_fee false;
            Broadcast 0%nat; RunAttackScan; MineBlock]
           0%nat one_coin_world [MineBlock] 0%nat [0%nat] overspend_outputs
           overspend_fee false).
  - vm_compute. now left.
  - vm_compute. lia.
Defined.

(** ** C4, C2: the attack engine *)

(** The four ways through [_execute_quantum_attack]. *)
Lemma execute_quantum_attack_eq (a : aref) (t : tref) (w : World) :
  _execute_quantum_attack a t w
  = if Qgtb (attack_time_of w a t)
         (block_time_remaining_at w (attack_now w) t)
    then (Ok tt, failed_attack a (bump_time w))
    else if Qgtb (attack_draw w) (attack_probability w a)
    then (Ok tt, failed_attack a (bump_rand (bump_time w)))
    else if Qeq_bool (Transaction.fee (txs w t)) 0
    then (Raise ZeroDivisionError, bump_rand (bump_rand (bump_time w)))
    else (Ok tt,
          successful_attack w a t (bump_rand (bump_rand (bump_time w)))).
Proof.
  unfold _execute_quantum_attack, bind, get, read_clock. simpl.
  unfold attack_now.
  destruct (Qgtb (attack_time_of w a t) _); [reflexivity |].
  unfold draw_random, attack_draw, attack_probability. simpl.
  destruct (Qgtb _ _); [reflexivity |].
  unfold draw_randint, sha256, py_div. simpl.
  destruct (Qeq_bool (Transaction.fee (txs w t)) 0); reflexivity.
Qed.

Lemma Qgtb_true (x y : Q) : Qgtb x y = true <-> ~ x <= y.
Proof.
  unfold Qgtb, Qltb. rewrite negb_true_iff, <- not_true_iff_false.
  now rewrite Qle_bool_iff.
Qed.

Lemma Qgtb_false (x y : Q) : Qgtb x y = false <-> x <= y.
Proof.
  unfold Qgtb, Qltb. rewrite negb_false_iff. apply Qle_bool_iff.
Qed.

(** C4.  An attack on a transaction in status [BROADCAST] puts it in status
    [ATTACKED] only if the estimated attack time is at most the time that
    remains before the next block and the random draw is at most the success
    probability of the attacker.  If either fails, the attacker's
    [failed_attacks] goes up by one and the transaction stays as it is, in
    status [BROADCAST]. *)
Theorem attack_succeeds_only_in_time_and_luck (w : World) (a : aref) (t : tref) :
  Transaction.status (txs w t) = BROADCAST ->
  let attack_time := attack_time_of w a t in
  let remaining := block_time_remaining_at w (attack_now w) t in
  let w' := after (_execute_quantum_attack a t) w in
  (Transaction.status (txs w' t) = ATTACKED ->
   attack_time <= remaining /\ attack_draw w <= attack_probability w a)
  /\ (~ (attack_time <= remaining /\ attack_draw w <= attack_probability w a) ->
      QuantumAttacker.failed_attacks (attackers w' a)
      = (QuantumAttacker.failed_attacks (attackers w a) + 1)%Z
      /\ txs w' = txs w
      /\ Transaction.status (txs w' t) = BROADCAST)
  /\ (attack_time <= remaining -> attack_draw w <= attack_probability w a ->
      ~ Transaction.fee (txs w t) == 0 ->
      Transaction.status (txs w' t) = ATTACKED
      /\ attackers w' = attackers w).
Proof.
  intros Hb attack_time remaining w'. subst w'. unfold after.
  rewrite execute_quantum_attack_eq. fold attack_time remaining.
  destruct (Qgtb attack_time remaining) eqn:Htime;
    [| destruct (Qgtb (attack_draw w) (attack_probability w a)) eqn:Hdraw;
       [| destruct (Qeq_bool (Transaction.fee (txs w t)) 0) eqn:Hfee]];
    simpl.
  - apply Qgtb_true in Htime. rewrite Hb, update_same. simpl.
    repeat split; try tauto; try discriminate.
  - apply Qgtb_true in Hdraw. rewrite Hb, update_same. simpl.
    repeat split; try tauto; try discriminate.
  - apply Qgtb_false in Htime. apply Qgtb_false in Hdraw.
    apply Qeq_bool_iff in Hfee. rewrite Hb.
    repeat split; try tauto; try discriminate.
  - apply Qgtb_false in Htime. apply Qgtb_false in Hdraw.
    rewrite !update_same. unfold append_attack_detail.
    repeat split; try tauto;
      destruct (Transaction.attack_details _); reflexivity.
Qed.

Lemma attack_succeeds_only_in_time_and_luck_witness :
  let w := carol_world in
  let attack_time := attack_time_of w 0%nat 0%nat in
  let remaining := block_time_remaining_at w (attack_now w) 0%nat in
  let w' := after (_execute_quantum_attack 0%nat 0%nat) w in
  (Transaction.status (txs w' 0%nat) = ATTACKED ->
   attack_time <= remaining /\ attack_draw w <= attack_probability w 0%nat)
  /\ (~ (attack_time <= remaining /\ attack_draw w <= attack_probability w 0%nat) ->
      QuantumAttacker.failed_attacks (attackers w' 0%nat)
      = (QuantumAttacker.failed_attacks (attackers w 0%nat) + 1)%Z
      /\ txs w' = txs w
      /\ Transaction.status (txs w' 0%nat) = BROADCAST)
  /\ (attack_time <= remaining -> attack_draw w <= attack_probability w 0%nat ->
      ~ Transaction.fee (txs w 0%nat) == 0 ->
      Transaction.status (txs w' 0%nat) = ATTACKED
      /\ attackers w' = attackers w).
Proof.
  apply (attack_succeeds_only_in_time_and_luck carol_world 0%nat 0%nat).
  reflexivity.
Defined.

(** No step of the attack scan writes to the mempool. *)
Lemma attack_scan_same_mempool : steps same_mempool quantum_attack_scan.
Proof. frame_all; reflexivity. Qed.

Lemma successful_attack_inputs (w0 w : World) (a : aref) (t t0 : tref) :
  Transaction.inputs (txs (successful_attack w0 a t w) t0)
  = Transaction.inputs (txs w t0).
Proof.
  unfold successful_attack, update_tx, update; simpl.
  destruct (Nat.eqb t0 t); [| reflexivity].
  unfold append_attack_detail. simpl.
  now destruct (Transaction.attack_details (txs w t0)).
Qed.

Lemma double_spend_groups_ext (w w' : World) (l : list tref) :
  (forall t, input_key w' t = input_key w t) ->
  double_spend_groups w' l = double_spend_groups w l.
Proof.
  intros H. unfold double_spend_groups. generalize (@nil (list string * list tref)).
  induction l as [| t l IH]; intros acc; simpl; [reflexivity |].
  now rewrite H, IH.
Qed.

(** C2, as the code has it.  A successful attack marks the transaction
    [ATTACKED] and appends the id of the competing transaction to its
    [competing_txs], but no transaction is created and none is put in the
    mempool: the mempool is the one before the attack, and so are the
    conflict groups that block selection forms. *)
Theorem attack_inserts_nothing (w : World) (a : aref) (t : tref) :
  attack_time_of w a t <= block_time_remaining_at w (attack_now w) t ->
  attack_draw w <= attack_probability w a ->
  ~ Transaction.fee (txs w t) == 0 ->
  let w' := after (_execute_quantum_attack a t) w in
  Transaction.status (txs w' t) = ATTACKED
  /\ Transaction.competing_txs (txs w' t)
     = (Transaction.competing_txs (txs w t) ++ [competing_txid_of w a t])%list
  /\ BitcoinNetwork.mempool (net w') = BitcoinNetwork.mempool (net w)
  /\ tx_count w' = tx_count w
  /\ forall tx_list, double_spend_groups w' tx_list = double_spend_groups w tx_list.
Proof.
  intros Htime Hdraw Hfee w'. subst w'. unfold after.
  rewrite execute_quantum_attack_eq.
  apply Qgtb_false in Htime. apply Qgtb_false in Hdraw. rewrite Htime, Hdraw.
  destruct (Qeq_bool (Transaction.fee (txs w t)) 0) eqn:Hz;
    [apply Qeq_bool_iff in Hz; contradiction |].
  cbn [snd]. split; [| split; [| split; [| split]]]; try reflexivity.
  - unfold successful_attack, update_tx; simpl. rewrite !update_same.
    unfold append_attack_detail.
    now destruct (Transaction.attack_details _).
  - unfold successful_attack, update_tx; simpl. rewrite !update_same.
    unfold append_attack_detail.
    now destruct (Transaction.attack_details _).
  - intros tx_list. apply double_spend_groups_ext. intros t0.
    unfold input_key. now rewrite successful_attack_inputs.
Qed.

Lemma attack_inserts_nothing_witness :
  let w := carol_world in
  let w' := after (_execute_quantum_attack 0%nat 0%nat) w in
  Transaction.status (txs w' 0%nat) = ATTACKED
  /\ Transaction.competing_txs (txs w' 0%nat)
     = (Transaction.competing_txs (txs w 0%nat)
          ++ [competing_txid_of w 0%nat 0%nat])%list
  /\ BitcoinNetwork.mempool (net w') = BitcoinNetwork.mempool (net w)
  /\ tx_count w' = tx_count w
  /\ forall tx_list, double_spend_groups w' tx_list = double_spend_groups w tx_list.
Proof.
  apply (attack_inserts_nothing carol_world 0%nat 0%nat).
  - vm_compute. discriminate.
  - vm_compute. discriminate.
  - vm_compute. discriminate.
Defined.

(** C8, as the code has it.  In the scenario of the claim (one input of
    22.0, fee 0.2, success probability 1.0, attack time below the time that
    remains) the attack is recorded with a fee of 2.0 and a value of 20.0 and
    the transaction goes from [BROADCAST] to [ATTACKED]; block selection then
    finds it alone in its conflict group and confirms it: it ends
    [CONFIRMED], not [STOLEN], and the attacker is credited with nothing.
    The fee and the value are 2.0 and 20.0 in binary64 too. *)
Theorem carol_is_attacked_but_confirmed :
  (Transaction.status (txs carol_world 0%nat) = BROADCAST
   /\ total_input carol_world 0%nat == 22
   /\ Transaction.fee (txs carol_world 0%nat) == 2 # 10
   /\ attack_probability carol_world 0%nat == 1
   /\ attack_time_of carol_world 0%nat 0%nat
      < block_time_remaining_at carol_world (attack_now carol_world) 0%nat)
  /\ (Transaction.status (txs carol_attacked 0%nat) = ATTACKED
      /\ exists d,
           Transaction.attack_details (txs carol_attacked 0%nat) = Some [d]
           /\ AttackDetail.attack_fee d == 2
           /\ AttackDetail.attack_fee d
              == py_min (10 * (2 # 10)) ((1 # 2) * 22)
           /\ AttackDetail.value d == 20)
  /\ (BitcoinNetwork.mempool (net carol_attacked)
      = BitcoinNetwork.mempool (net carol_world)
      /\ List.length (BitcoinNetwork.mempool (net carol_attacked)) = 1%nat)
  /\ (fst (mine_block carol_attacked) = Ok [0%nat]
      /\ Transaction.status (txs carol_mined 0%nat) = CONFIRMED
      /\ QuantumAttacker.total_stolen (attackers carol_mined 0%nat) == 0
      /\ QuantumAttacker.btc_balance (attackers carol_mined 0%nat) == 0
      /\ QuantumAttacker.successful_attacks (attackers carol_mined 0%nat) = 0%Z)
  /\ (Binary64.attack_fee 0.2 22 = 2%float
      /\ Binary64.attack_output_value 0.2 22 = 20%float).
Proof.
  split; [| split; [| split; [| split]]].
  - vm_compute. repeat split; reflexivity.
  - split; [vm_compute; reflexivity |].
    eexists. split; [vm_compute; reflexivity |].
    vm_compute. repeat split; reflexivity.
  - vm_compute. repeat split; reflexivity.
  - vm_compute. repeat split; reflexivity.
  - vm_compute. split; reflexivity.
Qed.

(** ** C9: the estimate of the attack time *)




(** ** C6: admission to the mempool *)

Lemma dict_get_set_same (k : string) (v : tref) (d : list (string * tref)) :
  dict_get k (dict_set k v d) = Some v.
Proof.
  induction d as [| [k' v'] d IH]; simpl.
  - now rewrite String.eqb_refl.
  - destruct (String.eqb k' k) eqn:E; simpl; now rewrite E.
Qed.

Lemma dict_get_set_other (k k0 : string) (v : tref) (d : list (string * tref)) :
  k0 <> k -> dict_get k0 (dict_set k v d) = dict_get k0 d.
Proof.
  intros Hne. induction d as [| [k' v'] d IH]; simpl.
  - apply String.eqb_neq in Hne. rewrite String.eqb_sym. now rewrite Hne.
  - destruct (String.eqb k' k) eqn:E; simpl.
    + apply String.eqb_eq in E. subst k'.
      assert (String.eqb k k0 = false) as ->; [| reflexivity].
      apply String.eqb_neq. congruence.
    + now rewrite IH.
Qed.

Lemma dict_set_keys (k : string) (v : tref) (d : list (string * tref)) :
  match dict_get k d with
  | Some _ => map fst (dict_set k v d) = map fst d
  | None => dict_set k v d = (d ++ [(k, v)])%list
  end.
Proof.
  induction d as [| [k' v'] d IH]; simpl; [reflexivity |].
  destruct (String.eqb k' k) eqn:E; simpl; [reflexivity |].
  destruct (dict_get k d); simpl; now rewrite IH.
Qed.

Lemma broadcast_transaction_eq (t : tref) (w : World) :
  broadcast_transaction t w
  = if Qeq_bool (total_input w t) 0 then (Raise ZeroDivisionError, w)
    else (Ok tt,
          set_net (BitcoinNetwork.set_mempool
                     (dict_set (Transaction.txid (txs w t)) t
                        (BitcoinNetwork.mempool (net w))) (net w))
            (update_tx t (Transaction.set_status BROADCAST) w)).
Proof.
  unfold broadcast_transaction, bind, get, py_div.
  destruct (Qeq_bool (total_input w t) 0); [reflexivity |].
  unfold ret, modify, set_net. simpl. now rewrite update_same.
Qed.

(** C6, as the code has it.  [broadcast_transaction] looks neither at the
    status of the transaction nor at the ids in the mempool.  For a
    transaction whose inputs do not sum to zero it returns normally, the
    status of the transaction is [BROADCAST] afterwards, and the mempool
    holds the transaction under its id: in place of the entry that was
    under that id, if there was one, and as a new last entry otherwise.
    The other entries and the other transactions are as before. *)
Theorem broadcast_accepts_and_overwrites (w : World) (t : tref) :
  ~ total_input w t == 0 ->
  exists w',
    broadcast_transaction t w = (Ok tt, w')
    /\ Transaction.status (txs w' t) = BROADCAST
    /\ dict_get (Transaction.txid (txs w t)) (BitcoinNetwork.mempool (net w'))
       = Some t
    /\ match dict_get (Transaction.txid (txs w t))
               (BitcoinNetwork.mempool (net w)) with
       | Some _ =>
           map fst (BitcoinNetwork.mempool (net w'))
           = map fst (BitcoinNetwork.mempool (net w))
       | None =>
           BitcoinNetwork.mempool (net w')
           = (BitcoinNetwork.mempool (net w)
                ++ [(Transaction.txid (txs w t), t)])%list
       end
    /\ (forall k, k <> Transaction.txid (txs w t) ->
          dict_get k (BitcoinNetwork.mempool (net w'))
          = dict_get k (BitcoinNetwork.mempool (net w)))
    /\ (forall t0, t0 <> t -> txs w' t0 = txs w t0).
Proof.
  intros Hz. rewrite broadcast_transaction_eq.
  destruct (Qeq_bool (total_input w t) 0) eqn:E;
    [apply Qeq_bool_iff in E; contradiction |].
  eexists. split; [reflexivity |]. simpl.
  split; [now rewrite update_same |].
  split; [apply dict_get_set_same |].
  split; [apply dict_set_keys |].
  split.
  - intros k Hk. now apply dict_get_set_other.
  - intros t0 Ht0. now apply update_other.
Qed.

Lemma broadcast_accepts_and_overwrites_witness :
  exists w',
    broadcast_transaction 1%nat twin_world = (Ok tt, w')
    /\ Transaction.status (txs w' 1%nat) = BROADCAST
    /\ dict_get (Transaction.txid (txs twin_world 1%nat))
         (BitcoinNetwork.mempool (net w')) = Some 1%nat
    /\ match dict_get (Transaction.txid (txs twin_world 1%nat))
               (BitcoinNetwork.mempool (net twin_world)) with
       | Some _ =>
           map fst (BitcoinNetwork.mempool (net w'))
           = map fst (BitcoinNetwork.mempool (net twin_world))
       | None =>
           BitcoinNetwork.mempool (net w')
           = (BitcoinNetwork.mempool (net twin_world)
                ++ [(Transaction.txid (txs twin_world 1%nat), 1%nat)])%list
       end
    /\ (forall k, k <> Transaction.txid (txs twin_world 1%nat) ->
          dict_get k (BitcoinNetwork.mempool (net w'))
          = dict_get k (BitcoinNetwork.mempool (net twin_world)))
    /\ (forall t0, t0 <> 1%nat -> txs w' t0 = txs twin_world t0).
Proof.
  apply (broadcast_accepts_and_overwrites twin_world 1%nat).
  vm_compute. discriminate.
Defined.

(** C6, as the claim states it, fails.  A transaction that is in the
    mempool, in status [BROADCAST], is accepted again; and a transaction
    object in status [CONFIRMED] that carries the id of a transaction of the
    mempool is accepted too, and takes its place. *)
Lemma broadcast_accepts_duplicates :
  (Transaction.status (txs broadcast_once 0%nat) = BROADCAST
   /\ dict_get (Transaction.txid (txs broadcast_once 0%nat))
        (BitcoinNetwork.mempool (net broadcast_once)) = Some 0%nat
   /\ fst (broadcast_transaction 0%nat broadcast_once) = Ok tt
   /\ Transaction.status
        (txs (after (broadcast_transaction 0%nat) broadcast_once) 0%nat)
      = BROADCAST)
  /\ (Transaction.status (txs twin_world 1%nat) = CONFIRMED
      /\ Transaction.txid (txs twin_world 1%nat)
         = Transaction.txid (txs twin_world 0%nat)
      /\ map snd (BitcoinNetwork.mempool (net twin_world)) = [0%nat]
      /\ fst (broadcast_transaction 1%nat twin_world) = Ok tt
      /\ Transaction.status
           (txs (after (broadcast_transaction 1%nat) twin_world) 1%nat)
         = BROADCAST
      /\ map snd
           (BitcoinNetwork.mempool
              (net (after (broadcast_transaction 1%nat) twin_world)))
         = [1%nat]).
Proof. vm_compute. repeat split; reflexivity. Qed.

(** ** Sorting and grouping *)

Section SortingFacts.
Context {A : Type}.
Variable key : A -> Q.

Lemma insert_desc_perm (x : A) (l : list A) :
  Permutation (insert_desc key x l) (x :: l).
Proof.
  induction l as [| y l IH]; simpl; [reflexivity |].
  destruct (Qgtb (key y) (key x)); [| reflexivity].
  rewrite IH. apply perm_swap.
Qed.

Lemma sort_desc_perm (l : list A) : Permutation (sort_desc key l) l.
Proof.
  induction l as [| x l IH]; simpl; [reflexivity |].
  rewrite insert_desc_perm. now constructor.
Qed.

(** The first element of the sorted list is an element with the greatest
    key. *)
Lemma sort_desc_head (l : list A) (x : A) :
  hd_error (sort_desc key l) = Some x ->
  In x l /\ forall y, In y l -> key y <= key x.
Proof.
  revert x. induction l as [| a l IH]; intros x; simpl; [discriminate |].
  destruct (sort_desc key l) as [| b r] eqn:Es; simpl.
  - intros [= <-]. split; [now left |].
    assert (l = []) as ->.
    { apply Permutation_nil. rewrite <- Es. apply sort_desc_perm. }
    intros y [<- | []]. apply Qle_refl.
  - destruct (IH b eq_refl) as [Hin Hmax].
    destruct (Qgtb (key b) (key a)) eqn:Hc; simpl; intros [= <-].
    + split; [now right |]. intros y [<- | Hy]; [| now apply Hmax].
      apply Qgtb_true in Hc. apply Qnot_le_lt in Hc. now apply Qlt_le_weak.
    + split; [now left |]. apply Qgtb_false in Hc.
      intros y [<- | Hy]; [apply Qle_refl |].
      eapply Qle_trans; [apply Hmax, Hy | exact Hc].
Qed.

Lemma sort_desc_nonempty (l : list A) :
  l <> [] -> exists x, hd_error (sort_desc key l) = Some x.
Proof.
  intros Hl. destruct (sort_desc key l) as [| x r] eqn:Es; [| now exists x].
  exfalso. apply Hl. apply Permutation_nil. rewrite <- Es.
  apply sort_desc_perm.
Qed.

End SortingFacts.

Lemma key_eqb_eq (k1 k2 : list string) : key_eqb k1 k2 = true <-> k1 = k2.
Proof.
  revert k2. induction k1 as [| a k1 IH]; intros [| b k2]; simpl;
    try (split; [discriminate | congruence]); [tauto |].
  rewrite andb_true_iff, String.eqb_eq, IH. split.
  - intros [-> ->]. reflexivity.
  - intros [= -> ->]. now split.
Qed.

Lemma key_eqb_refl (k : list string) : key_eqb k k = true.
Proof. now apply key_eqb_eq. Qed.

Lemma key_eqb_neq (k1 k2 : list string) : key_eqb k1 k2 = false <-> k1 <> k2.
Proof.
  rewrite <- key_eqb_eq. destruct (key_eqb k1 k2); split; congruence.
Qed.

Lemma key_eq_dec (k1 k2 : list string) : {k1 = k2} + {k1 <> k2}.
Proof. apply list_eq_dec, string_dec. Qed.

Section Grouping.
Variable keyf : tref -> list string.

Lemma group_append_keys (k : list string) (x : tref)
  (G : list (list string * list tref)) :
  (In k (map fst G) /\ map fst (group_append k x G) = map fst G)
  \/ (~ In k (map fst G) /\ map fst (group_append k x G) = (map fst G ++ [k])%list).
Proof.
  induction G as [| [k1 ms1] G IH]; simpl.
  - right. split; [tauto | reflexivity].
  - destruct (key_eqb k1 k) eqn:E; simpl.
    + apply key_eqb_eq in E. left. split; [now left | reflexivity].
    + apply key_eqb_neq in E.
      destruct IH as [[Hin ->] | [Hnin ->]]; [left | right];
        (split; [tauto | reflexivity]).
Qed.

Lemma group_append_other (k : list string) (x : tref)
  (G : list (list string * list tref)) (k' : list string) (ms' : list tref) :
  k' <> k -> In (k', ms') (group_append k x G) -> In (k', ms') G.
Proof.
  intros Hne. induction G as [| [k1 ms1] G IH]; simpl.
  - intros [[= <- _] | []]. congruence.
  - destruct (key_eqb k1 k) eqn:E; simpl.
    + apply key_eqb_eq in E. intros [[= <- _] | H]; [congruence | now right].
    + intros [H | H]; [now left | right; now apply IH].
Qed.

Lemma group_append_same (k : list string) (x : tref)
  (G : list (list string * list tref)) (ms' : list tref) :
  NoDup (map fst G) -> In (k, ms') (group_append k x G) ->
  (exists ms, In (k, ms) G /\ ms' = (ms ++ [x])%list)
  \/ (~ In k (map fst G) /\ ms' = [x]).
Proof.
  induction G as [| [k1 ms1] G IH]; simpl; intros Hnd.
  - intros [[= <-] | []]. right. split; [tauto | reflexivity].
  - inversion Hnd as [| ? ? Hk1 Hnd']; subst.
    destruct (key_eqb k1 k) eqn:E; simpl.
    + apply key_eqb_eq in E. subst k1. intros [[= <-] | H].
      * left. exists ms1. split; [now left | reflexivity].
      * exfalso. apply Hk1. change k with (fst (k, ms')). now apply in_map.
    + apply key_eqb_neq in E. intros [[= -> _] | H]; [congruence |].
      destruct (IH Hnd' H) as [(ms & Hin & ->) | [Hnin ->]].
      * left. exists ms. split; [now right | reflexivity].
      * right. split; [| reflexivity]. intros [? | ?]; congruence.
Qed.

(** The groups are the classes of the key: every group holds all the
    elements of its key, in order, is not empty, and no two groups have the
    same key. *)
Lemma group_by_spec (l : list tref) :
  NoDup (map fst (group_by keyf l))
  /\ (forall k ms, In (k, ms) (group_by keyf l) -> ms = members_of keyf k l /\ ms <> [])
  /\ (forall m, In m l -> In (keyf m) (map fst (group_by keyf l))).
Proof.
  induction l as [| x l IH] using rev_ind.
  - simpl. split; [constructor |]. split; [intros k ms [] | intros m []].
  - destruct IH as (Hnd & Hmem & Hcov).
    unfold group_by in *. rewrite fold_left_app. simpl.
    set (G := fold_left _ l []) in *.
    destruct (group_append_keys (keyf x) x G) as [[Hin Hk] | [Hnin Hk]].
    + split; [now rewrite Hk |]. split.
      * intros k ms H. unfold members_of. rewrite filter_app. simpl.
        destruct (key_eq_dec k (keyf x)) as [-> | Hne].
        -- rewrite key_eqb_refl.
           destruct (group_append_same _ _ _ _ Hnd H) as [(ms0 & H0 & ->) | [? _]];
             [| contradiction].
           destruct (Hmem _ _ H0) as [-> _]. split; [reflexivity |].
           now destruct (members_of keyf (keyf x) l).
        -- assert (key_eqb (keyf x) k = false) as ->
             by (apply key_eqb_neq; congruence).
           rewrite app_nil_r. apply Hmem.
           now apply (group_append_other (keyf x) x).
      * intros m Hm. rewrite Hk. apply in_app_or in Hm.
        destruct Hm as [Hm | [<- | []]]; [now apply Hcov | exact Hin].
    + split.
      { rewrite Hk. apply NoDup_app; [exact Hnd | repeat constructor; tauto |].
        intros k Hk1 [<- | []]. contradiction. }
      split.
      * intros k ms H. unfold members_of. rewrite filter_app. simpl.
        destruct (key_eq_dec k (keyf x)) as [-> | Hne].
        -- rewrite key_eqb_refl.
           destruct (group_append_same _ _ _ _ Hnd H) as [(ms0 & H0 & ->) | [_ ->]].
           ++ exfalso. apply Hnin. change (keyf x) with (fst (keyf x, ms0)).
              now apply in_map.
           ++ assert (filter (fun m => key_eqb (keyf m) (keyf x)) l = []) as ->.
              { destruct (filter _ l) as [| m r] eqn:Ef; [reflexivity |].
                assert (Hm : In m (filter (fun m => key_eqb (keyf m) (keyf x)) l))
                  by (rewrite Ef; now left).
                apply filter_In in Hm. destruct Hm as [Hm Hkm].
                apply key_eqb_eq in Hkm. exfalso. apply Hnin.
                rewrite <- Hkm. now apply Hcov. }
              split; [reflexivity | discriminate].
        -- assert (key_eqb (keyf x) k = false) as ->
             by (apply key_eqb_neq; congruence).
           rewrite app_nil_r. apply Hmem.
           now apply (group_append_other (keyf x) x).
      * intros m Hm. rewrite Hk. apply in_or_app. apply in_app_or in Hm.
        destruct Hm as [Hm | [<- | []]]; [left; now apply Hcov | right; now left].
Qed.

End Grouping.

(** ** Block selection *)

Lemma succeeds_ret {A : Type} (a : A) : succeeds (ret a).
Proof. intros w. now exists a. Qed.

Lemma succeeds_get : succeeds get.
Proof. intros w. now exists w. Qed.

Lemma succeeds_modify (f : World -> World) : succeeds (modify f).
Proof. intros w. now exists tt. Qed.

Lemma succeeds_for_each {A : Type} (l : list A) (body : A -> M unit) :
  (forall x, succeeds (body x)) -> succeeds (for_each l body).
Proof.
  intros H. induction l as [| x l IH]; simpl; [apply succeeds_ret |].
  apply succeeds_bind; [apply H | intros _; exact IH].
Qed.

Lemma credit_attackers_succeeds (d : AttackDetail.t) : succeeds (credit_attackers d).
Proof.
  unfold credit_attackers. apply succeeds_bind; [apply succeeds_get |].
  intros w. apply succeeds_for_each. intros a.
  apply succeeds_bind; [apply succeeds_get |]. intros w1.
  destruct (String.eqb _ _); [apply succeeds_modify | apply succeeds_ret].
Qed.

Lemma credit_loop_ledger (ds : list AttackDetail.t) :
  steps same_ledger (for_each ds credit_attackers).
Proof. frame_all; unfold same_ledger; simpl; auto. Qed.

Lemma credit_loop_eq (ds : list AttackDetail.t) (w : World) :
  for_each ds credit_attackers w = (Ok tt, after (for_each ds credit_attackers) w).
Proof.
  destruct (succeeds_for_each ds credit_attackers credit_attackers_succeeds w)
    as [[] H].
  unfold after. destruct (for_each ds credit_attackers w) as [o w1].
  simpl in *. now subst o.
Qed.

Lemma txs_update_tx_same (x : tref) (f : Transaction.t -> Transaction.t) (w : World) :
  txs (update_tx x f w) x = f (txs w x).
Proof. unfold update_tx. simpl. apply update_same. Qed.

Lemma txs_update_tx_other (x t : tref) (f : Transaction.t -> Transaction.t)
  (w : World) :
  t <> x -> txs (update_tx x f w) t = txs w t.
Proof. intros H. unfold update_tx. simpl. now apply update_other. Qed.

(** The ways through the body of the loop over the groups. *)
Lemma resolve_group_eq (members : list tref) (w : World) :
  resolve_group members w
  = match winner w members with
    | None => (Raise IndexError, w)
    | Some x =>
        if (1 <? List.length members)%nat
           && TxStatus_eqb (Transaction.status (txs w x)) ATTACKED
        then match Transaction.attack_details (txs w x) with
             | None => (Raise AttributeError, w)
             | Some details =>
                 (Ok x,
                  update_tx x (Transaction.set_status STOLEN)
                    (after (for_each details credit_attackers) w))
             end
        else (Ok x, update_tx x (Transaction.set_status CONFIRMED) w)
    end.
Proof.
  unfold resolve_group, winner, bind, get.
  destruct (1 <? List.length members)%nat eqn:Hlen.
  - destruct (sort_by_fee w members) as [| x losers]; simpl; [reflexivity |].
    destruct (TxStatus_eqb (Transaction.status (txs w x)) ATTACKED);
      [| reflexivity].
    destruct (Transaction.attack_details (txs w x)) as [details |];
      [| reflexivity].
    unfold bind. rewrite credit_loop_eq. reflexivity.
  - destruct members as [| x [| y rest]]; simpl in *; try reflexivity.
    discriminate.
Qed.

Lemma sort_desc_ext {A : Type} (key1 key2 : A -> Q) (l : list A) :
  (forall x, key1 x = key2 x) -> sort_desc key1 l = sort_desc key2 l.
Proof.
  intros H. induction l as [| x l IH]; simpl; [reflexivity |].
  rewrite IH. generalize (sort_desc key2 l). intros s.
  induction s as [| y s IHs]; simpl; [reflexivity |].
  now rewrite !H, IHs.
Qed.

Lemma resolved_fee (w : World) (groups : list (list tref)) (w' : World) (t : tref) :
  resolved w groups w' ->
  Transaction.fee (txs w' t) = Transaction.fee (txs w t)
  /\ Transaction.inputs (txs w' t) = Transaction.inputs (txs w t)
  /\ Transaction.attack_details (txs w' t) = Transaction.attack_details (txs w t).
Proof.
  intros (_ & _ & H). destruct (H t) as [-> | (ms & _ & _ & [-> | [-> _]])];
    repeat split; reflexivity.
Qed.

Lemma resolved_winner (w : World) (groups : list (list tref)) (w' : World)
  (members : list tref) :
  resolved w groups w' -> winner w' members = winner w members.
Proof.
  intros H. unfold winner, sort_by_fee. f_equal. apply sort_desc_ext.
  intros t. now destruct (resolved_fee w groups w' t H).
Qed.

Lemma resolved_refl (w : World) (groups : list (list tref)) : resolved w groups w.
Proof. repeat split; auto. Qed.

Lemma resolved_more (w w' : World) (groups groups' : list (list tref)) :
  (forall ms, In ms groups -> In ms groups') ->
  resolved w groups w' -> resolved w groups' w'.
Proof.
  intros Hsub (Hn & Hu & H). repeat split; auto. intros t.
  destruct (H t) as [Ht | (ms & Hin & Hrest)]; [now left |].
  right. exists ms. split; auto.
Qed.

Lemma resolved_trans (w w1 w2 : World) (G1 G2 : list (list tref)) :
  resolved w G1 w1 -> resolved w1 G2 w2 -> resolved w (G1 ++ G2)%list w2.
Proof.
  intros H1 H2. pose proof H1 as (Hn1 & Hu1 & K1). destruct H2 as (Hn2 & Hu2 & K2).
  split; [congruence |]. split; [congruence |]. intros t.
  destruct (K2 t) as [E2 | (ms & Hin & Hw & Hcase)].
  - rewrite E2. destruct (K1 t) as [E1 | (ms & Hin & Hrest)]; [now left |].
    right. exists ms. split; [apply in_or_app; now left | exact Hrest].
  - rewrite (resolved_winner w G1 w1 ms H1) in Hw.
    right. exists ms. split; [apply in_or_app; now right |]. split; [exact Hw |].
    destruct (K1 t) as [E1 | (ms1 & _ & _ & [E1 | (E1 & _)])].
    + rewrite E1 in Hcase. exact Hcase.
    + rewrite E1 in Hcase. left.
      destruct Hcase as [-> | (_ & Hs & _)]; [reflexivity | discriminate].
    + rewrite E1 in Hcase. left.
      destruct Hcase as [-> | (_ & Hs & _)]; [reflexivity | discriminate].
Qed.

Lemma resolve_group_resolved (members : list tref) (w : World) :
  resolved w [members] (after (resolve_group members) w)
  /\ forall x w1, resolve_group members w = (Ok x, w1) ->
       winner w members = Some x
       /\ (Transaction.status (txs w1 x) = CONFIRMED
           \/ Transaction.status (txs w1 x) = STOLEN).
Proof.
  unfold after. rewrite resolve_group_eq.
  destruct (winner w members) as [x |] eqn:Hw;
    [| split; [apply resolved_refl | discriminate]].
  destruct (1 <? List.length members)%nat eqn:Hlen; simpl;
    [destruct (TxStatus_eqb (Transaction.status (txs w x)) ATTACKED) eqn:Hst;
     [destruct (Transaction.attack_details (txs w x)) as [details |] eqn:Hd |] |].
  - destruct (credit_loop_ledger details w) as (Hn & Hu & Ht & _).
    split.
    + simpl. split; [exact Hn |]. split; [exact Hu |]. intros t.
      destruct (Nat.eq_dec t x) as [-> | Hne].
      * right. exists members. split; [now left |]. split; [exact Hw |].
        right. rewrite txs_update_tx_same, Ht. split; [reflexivity |].
        split; [now destruct (Transaction.status (txs w x)) |].
        now apply Nat.ltb_lt.
      * left. rewrite txs_update_tx_other by exact Hne. now rewrite Ht.
    + intros y w1 [= <- <-]. split; [reflexivity |]. right.
      now rewrite txs_update_tx_same.
  - split; [apply resolved_refl | discriminate].
  - split.
    + simpl. repeat split. intros t. destruct (Nat.eq_dec t x) as [-> | Hne].
      * right. exists members. split; [now left |]. split; [exact Hw |].
        left. now rewrite txs_update_tx_same.
      * left. now rewrite txs_update_tx_other.
    + intros y w1 [= <- <-]. split; [reflexivity |]. left.
      now rewrite txs_update_tx_same.
  - split.
    + simpl. repeat split. intros t. destruct (Nat.eq_dec t x) as [-> | Hne].
      * right. exists members. split; [now left |]. split; [exact Hw |].
        left. now rewrite txs_update_tx_same.
      * left. now rewrite txs_update_tx_other.
    + intros y w1 [= <- <-]. split; [reflexivity |]. left.
      now rewrite txs_update_tx_same.
Qed.

(** The loop over the groups. *)
Lemma resolve_loop (groups : list (list string * list tref)) (w : World) :
  resolved w (map snd groups)
    (after (map_M (fun group => resolve_group (snd group)) groups) w)
  /\ forall c w',
       map_M (fun group => resolve_group (snd group)) groups w = (Ok c, w') ->
       Forall2 (fun group x => winner w (snd group) = Some x) groups c
       /\ forall x, In x c ->
            Transaction.status (txs w' x) = CONFIRMED
            \/ Transaction.status (txs w' x) = STOLEN.
Proof.
  revert w. induction groups as [| g groups IH]; intros w.
  - split; [apply resolved_refl |]. intros c w' H. injection H as <- <-.
    split; [constructor | intros x []].
  - destruct (resolve_group_resolved (snd g) w) as [Hres Hok].
    unfold after in *. simpl. unfold bind, ret.
    destruct (resolve_group (snd g) w) as [[x | e] w1] eqn:Hg; simpl in Hres.
    + destruct (Hok x w1 eq_refl) as [Hwin Hterm].
      destruct (IH w1) as [Hres' Hok'].
      destruct (map_M _ groups w1) as [[c | e] w2] eqn:Hl; simpl in *.
      * split; [exact (resolved_trans _ _ _ _ _ Hres Hres') |].
        intros c' w' [= <- <-]. destruct (Hok' c w2 eq_refl) as [Hall Hterm'].
        split.
        -- constructor; [exact Hwin |].
           eapply Forall2_impl; [| exact Hall]. intros g' y Hy.
           now rewrite <- (resolved_winner w [snd g] w1 (snd g') Hres).
        -- intros y [<- | Hy]; [| now apply Hterm'].
           destruct Hres' as (_ & _ & K). destruct (K x) as [-> | (ms & _ & _ & Hc)];
             [exact Hterm |].
           destruct Hc as [-> | [-> _]]; [now left | now right].
      * split; [exact (resolved_trans _ _ _ _ _ Hres Hres') | discriminate].
    + split; [| discriminate].
      eapply resolved_more; [| exact Hres]. intros ms [<- | []]. now left.
Qed.

Lemma winner_in (w : World) (members : list tref) (x : tref) :
  winner w members = Some x ->
  In x members
  /\ forall m, In m members ->
       Transaction.fee (txs w m) <= Transaction.fee (txs w x).
Proof.
  unfold winner, sort_by_fee. intros H.
  exact (sort_desc_head (fun t => Transaction.fee (txs w t)) members x H).
Qed.

(** The loop runs through when no group is empty and every attacked
    transaction carries its attack details. *)
Lemma resolve_loop_ok (groups : list (list string * list tref)) (w : World) :
  (forall g, In g groups -> snd g <> []) ->
  (forall g t, In g groups -> In t (snd g) ->
     Transaction.status (txs w t) = ATTACKED ->
     Transaction.attack_details (txs w t) <> None) ->
  exists c, fst (map_M (fun group => resolve_group (snd group)) groups w) = Ok c.
Proof.
  revert w. induction groups as [| g groups IH]; intros w Hne Hdet.
  - now exists [].
  - simpl. unfold bind at 1.
    destruct (resolve_group_resolved (snd g) w) as [Hres _]. unfold after in Hres.
    rewrite resolve_group_eq in *.
    destruct (sort_desc_nonempty (fun t => Transaction.fee (txs w t)) (snd g))
      as [x Hx]; [apply Hne; now left |].
    fold (sort_by_fee w (snd g)) in Hx. fold (winner w (snd g)) in Hx.
    rewrite Hx in *. destruct (winner_in w (snd g) x Hx) as [Hin _].
    assert (Hnext : forall w1, resolved w [snd g] w1 ->
              exists c, fst ((ys <- map_M (fun group => resolve_group (snd group))
                                     groups ;; ret (x :: ys)) w1) = Ok c).
    { intros w1 Hr. destruct (IH w1) as [c Hc].
      - intros g' Hg'. apply Hne. now right.
      - intros g' t Hg' Ht Hst. destruct (resolved_fee w _ w1 t Hr) as (_ & _ & ->).
        destruct Hr as (_ & _ & K).
        destruct (K t) as [E | (ms & _ & _ & [E | [E _]])]; rewrite E in Hst;
          try discriminate.
        apply (Hdet g'); auto. now right.
      - unfold bind, ret.
        destruct (map_M _ groups w1) as [[ys | e] w2]; simpl in *;
          [now exists (x :: ys) | discriminate]. }
    destruct ((1 <? List.length (snd g))%nat
              && TxStatus_eqb (Transaction.status (txs w x)) ATTACKED) eqn:Hb.
    + apply andb_true_iff in Hb. destruct Hb as [_ Hst].
      assert (Transaction.status (txs w x) = ATTACKED)
        by now destruct (Transaction.status (txs w x)).
      destruct (Transaction.attack_details (txs w x)) as [details |] eqn:Hd.
      * apply Hnext. exact Hres.
      * exfalso. apply (Hdet g x); auto. now left.
    + apply Hnext. exact Hres.
Qed.

(** The fee rates: computing them changes nothing, and raises as soon as
    the inputs of one transaction sum to zero. *)
Lemma fee_rates_eq (l : list tref) (w : World) :
  map_M fee_rate l w
  = if forallb (funded w) l then (Ok (map (fee_rate_of w) l), w)
    else (Raise ZeroDivisionError, w).
Proof.
  induction l as [| t l IH]; simpl; [reflexivity |].
  unfold bind at 1. unfold fee_rate at 1. unfold bind, get, py_div, funded at 1.
  destruct (Qeq_bool (total_input w t) 0); simpl; [reflexivity |].
  unfold ret. rewrite IH. now destruct (forallb (funded w) l).
Qed.

Lemma fee_rates_shown (l : list tref) (w : World) :
  forallb (funded w) l = true ->
  for_each l (fun t => _ <- fee_rate t ;; ret tt) w = (Ok tt, w).
Proof.
  induction l as [| t l IH]; simpl; [reflexivity |].
  intros H. apply andb_true_iff in H. destruct H as [Ht Hl].
  unfold bind at 1. unfold fee_rate, bind, get, py_div, ret. unfold funded in Ht.
  apply negb_true_iff in Ht. rewrite Ht. simpl. now apply IH.
Qed.

Lemma map_snd_combine_map {A B : Type} (f : A -> B) (l : list A) :
  map snd (combine (map f l) l) = l.
Proof. induction l as [| x l IH]; simpl; [reflexivity | now rewrite IH]. Qed.

Lemma selection_order_perm (w : World) :
  Permutation (selection_order w) (map snd (BitcoinNetwork.mempool (net w))).
Proof.
  unfold selection_order. cbv zeta.
  eapply Permutation_trans; [apply Permutation_map, sort_desc_perm |].
  now rewrite map_snd_combine_map.
Qed.

Lemma forallb_perm {A : Type} (f : A -> bool) (l l' : list A) :
  Permutation l l' -> forallb f l' = true -> forallb f l = true.
Proof.
  intros Hp H. rewrite forallb_forall in *. intros x Hx. apply H.
  now apply (Permutation_in _ Hp).
Qed.

Lemma forallb_firstn {A : Type} (f : A -> bool) (n : nat) (l : list A) :
  forallb f l = true -> forallb f (firstn n l) = true.
Proof.
  revert n. induction l as [| x l IH]; intros [| n]; simpl; auto.
  intros H. apply andb_true_iff in H. destruct H as [-> H]. simpl. now apply IH.
Qed.

(** The ways through [mine_block]. *)
Lemma mine_block_eq (w : World) :
  mine_block w
  = match BitcoinNetwork.mempool (net w) with
    | [] =>
        (Ok [],
         set_net (BitcoinNetwork.set_current_block
                    (BitcoinNetwork.current_block (net w) + 1)%Z (net w)) w)
    | _ :: _ =>
        if forallb (funded w) (map snd (BitcoinNetwork.mempool (net w))) then
          match map_M (fun group => resolve_group (snd group))
                  (conflict_groups w) w with
          | (Ok c, w1) => (Ok c, finalize_block w1)
          | (Raise e, w1) => (Raise e, w1)
          end
        else (Raise ZeroDivisionError, w)
    end.
Proof.
  unfold mine_block. unfold bind at 1. unfold get at 1.
  destruct (BitcoinNetwork.mempool (net w)) as [| entry pool] eqn:Hpool;
    [reflexivity |].
  unfold bind at 1. rewrite fee_rates_eq.
  destruct (forallb (funded w) (map snd (entry :: pool))) eqn:Hf; [| reflexivity].
  assert (Hsel : map snd (sort_desc fst
                   (combine (map (fee_rate_of w) (map snd (entry :: pool)))
                      (map snd (entry :: pool))))
                 = selection_order w).
  { unfold selection_order. now rewrite Hpool. }
  rewrite Hsel. unfold bind at 1. rewrite fee_rates_shown.
  - unfold bind at 1. unfold get at 1. fold (conflict_groups w).
    unfold bind at 1.
    destruct (map_M _ (conflict_groups w) w) as [[c | e] w1]; reflexivity.
  - apply forallb_firstn. eapply forallb_perm; [apply selection_order_perm |].
    now rewrite Hpool.
Qed.

Lemma mine_block_resolved (w : World) :
  resolved w (map snd (conflict_groups w))
    (set_net (net w) (after mine_block w)).
Proof.
  unfold after. rewrite mine_block_eq.
  destruct (BitcoinNetwork.mempool (net w)) as [| entry pool];
    [repeat split; auto |].
  destruct (forallb _ _); [| repeat split; auto].
  destruct (resolve_loop (conflict_groups w) w) as [(Hn & Hu & K) _].
  unfold after in *.
  destruct (map_M _ (conflict_groups w) w) as [[c | e] w1]; simpl in *;
    repeat split; auto.
Qed.

(** ** C5: the way to [STOLEN] *)

Ltac no_new_stolen_leaf :=
  unfold no_new_stolen; intros ? ;
  unfold update_tx, update_utxo, update_attacker, set_net, new_tx, new_utxo,
    new_attacker; simpl;
  unfold update; try destruct (Nat.eqb _ _); simpl;
  unfold append_attack_detail;
  try destruct (Transaction.attack_details _); simpl;
  solve [auto | discriminate].

Lemma exec_no_new_stolen (op : Op) :
  op <> MineBlock -> steps no_new_stolen (exec op).
Proof.
  destruct op; intros Hop; try congruence; unfold exec.
  - unfold create_utxo. frame_all; no_new_stolen_leaf.
  - unfold create_transaction. frame_all; [| no_new_stolen_leaf].
    unfold expose_input. frame_all; no_new_stolen_leaf.
  - frame_all; no_new_stolen_leaf.
  - frame_all; no_new_stolen_leaf.
  - frame_all; no_new_stolen_leaf.
Qed.

Lemma filter_perm {A : Type} (f : A -> bool) (l l' : list A) :
  Permutation l l' -> Permutation (filter f l) (filter f l').
Proof.
  induction 1 as [| x l l' _ IH | x y l | l l' l'' _ IH1 _ IH2]; simpl.
  - constructor.
  - destruct (f x); [now constructor | exact IH].
  - destruct (f x), (f y); try reflexivity. apply perm_swap.
  - now transitivity (filter f l').
Qed.

(** What being the first of a conflict group means in terms of the
    mempool. *)
Lemma conflict_group_winner (w : World) (members : list tref) (t : tref) :
  In members (map snd (conflict_groups w)) ->
  winner w members = Some t ->
  let values := map snd (BitcoinNetwork.mempool (net w)) in
  In t values
  /\ (forall m, In m values -> input_key w m = input_key w t ->
        Transaction.fee (txs w m) <= Transaction.fee (txs w t))
  /\ List.length members
     = List.length (members_of (input_key w) (input_key w t) values).
Proof.
  intros Hin Hw values. apply in_map_iff in Hin.
  destruct Hin as ([k ms] & Hms & Hin). simpl in Hms. subst ms.
  destruct (group_by_spec (input_key w) (selection_order w)) as (_ & Hmem & _).
  destruct (Hmem k members Hin) as [Heq _].
  destruct (winner_in w members t Hw) as [Ht Hmax].
  pose proof Ht as Ht'. rewrite Heq in Ht'. apply filter_In in Ht'.
  destruct Ht' as [Hsel Hk]. apply key_eqb_eq in Hk. subst k.
  pose proof (selection_order_perm w) as Hp. fold values in Hp.
  split; [now apply (Permutation_in _ Hp) |]. split.
  - intros m Hm Hkm. apply Hmax. rewrite Heq. apply filter_In. split.
    + apply (Permutation_in _ (Permutation_sym Hp)), Hm.
    + now apply key_eqb_eq.
  - rewrite Heq. apply Permutation_length. unfold members_of.
    now apply filter_perm.
Qed.

(** C5.  Whatever the world and the operation, a transaction that is
    [STOLEN] after the operation and was not before has been through block
    selection: the operation is [mine_block], the transaction was in status
    [ATTACKED], it was in the mempool, no transaction of the mempool with
    the same sorted input ids had a higher fee, and there was more than one
    such transaction. *)
Theorem stolen_only_by_winning (w : World) (op : Op) (t : tref) :
  Transaction.status (txs (after (exec op) w) t) = STOLEN ->
  Transaction.status (txs w t) <> STOLEN ->
  let values := map snd (BitcoinNetwork.mempool (net w)) in
  op = MineBlock
  /\ Transaction.status (txs w t) = ATTACKED
  /\ In t values
  /\ (forall m, In m values -> input_key w m = input_key w t ->
        Transaction.fee (txs w m) <= Transaction.fee (txs w t))
  /\ (1 < List.length (members_of (input_key w) (input_key w t) values))%nat.
Proof.
  intros Hafter Hbefore values.
  assert (Hop : op = MineBlock).
  { destruct op; try reflexivity; exfalso; apply Hbefore;
      refine (exec_no_new_stolen _ _ w t Hafter); discriminate. }
  subst op. split; [reflexivity |].
  assert (Htx : txs (after (exec MineBlock) w) = txs (after mine_block w)).
  { unfold exec, forget, after, bind, ret.
    now destruct (mine_block w) as [[c | e] w1]. }
  rewrite Htx in Hafter.
  destruct (mine_block_resolved w) as (_ & _ & K). simpl in K.
  destruct (K t) as [E | (ms & Hin & Hw & [E | (E & Hst & Hlen)])].
  - rewrite E in Hafter. contradiction.
  - rewrite E in Hafter. discriminate.
  - destruct (conflict_group_winner w ms t Hin Hw) as (Ht & Hmax & Hl).
    fold values in Ht, Hmax, Hl.
    repeat split; try assumption. now rewrite <- Hl.
Qed.

Lemma stolen_only_by_winning_witness :
  let w := double_spend_world in
  let values := map snd (BitcoinNetwork.mempool (net w)) in
  MineBlock = MineBlock
  /\ Transaction.status (txs w 0%nat) = ATTACKED
  /\ In 0%nat values
  /\ (forall m, In m values -> input_key w m = input_key w 0%nat ->
        Transaction.fee (txs w m) <= Transaction.fee (txs w 0%nat))
  /\ (1 < List.length (members_of (input_key w) (input_key w 0%nat) values))%nat.
Proof.
  apply (stolen_only_by_winning double_spend_world MineBlock 0%nat).
  - vm_compute. reflexivity.
  - vm_compute. discriminate.
Defined.

(** ** C1: one winner per conflict group *)

Lemma Forall2_in_l {A B : Type} (R : A -> B -> Prop) (l : list A) (l' : list B)
  (a : A) :
  Forall2 R l l' -> In a l -> exists b, In b l' /\ R a b.
Proof.
  induction 1 as [| x y l l' Hxy _ IH]; intros Hin; [destruct Hin |].
  destruct Hin as [<- | Hin].
  - exists y. split; [now left | exact Hxy].
  - destruct (IH Hin) as (b & Hb & Hab). exists b. split; [now right | exact Hab].
Qed.

Lemma Forall2_in_r {A B : Type} (R : A -> B -> Prop) (l : list A) (l' : list B)
  (b : B) :
  Forall2 R l l' -> In b l' -> exists a, In a l /\ R a b.
Proof.
  induction 1 as [| x y l l' Hxy _ IH]; intros Hin; [destruct Hin |].
  destruct Hin as [<- | Hin].
  - exists x. split; [now left | exact Hxy].
  - destruct (IH Hin) as (a & Ha & Hab). exists a. split; [now right | exact Hab].
Qed.

(** A member of a conflict group that comes first in some conflict group
    comes first in its own. *)
Lemma winner_of_own_group (w : World) (k : list string) (members ms : list tref)
  (x m : tref) :
  In (k, members) (conflict_groups w) -> winner w members = Some x ->
  In ms (map snd (conflict_groups w)) -> winner w ms = Some m ->
  In m members -> m = x.
Proof.
  intros Hin Hx Hms Hm Hmem. apply in_map_iff in Hms.
  destruct Hms as ([k' ms'] & E & Hin'). simpl in E. subst ms'.
  destruct (group_by_spec (input_key w) (selection_order w)) as (_ & Hspec & _).
  destruct (Hspec k members Hin) as [Heq _].
  destruct (Hspec k' ms Hin') as [Heq' _].
  destruct (winner_in w ms m Hm) as [Hmin _].
  rewrite Heq in Hmem. rewrite Heq' in Hmin.
  apply filter_In in Hmem. apply filter_In in Hmin.
  destruct Hmem as [_ K1]. destruct Hmin as [_ K2].
  apply key_eqb_eq in K1. apply key_eqb_eq in K2.
  assert (ms = members) by congruence. subst ms. congruence.
Qed.

(** C1.  In a mempool of distinct transactions whose inputs do not sum to
    zero and whose attacked transactions carry their attack details,
    [mine_block] returns normally, and for every conflict group of more than
    one member that it forms (the transactions of the mempool with one
    sorted input-id tuple): the members are distinct, one of them, of the
    highest fee, ends [CONFIRMED] or [STOLEN] and is in the confirmed set,
    and every other member is left out of the confirmed set and is after the
    block as it was before. *)
Theorem one_winner_per_conflict_group
  (w : World) (k : list string) (members : list tref) :
  let values := map snd (BitcoinNetwork.mempool (net w)) in
  NoDup values ->
  (forall t, In t values -> ~ total_input w t == 0) ->
  (forall t, In t values -> Transaction.status (txs w t) = ATTACKED ->
     Transaction.attack_details (txs w t) <> None) ->
  In (k, members) (conflict_groups w) ->
  (1 < List.length members)%nat ->
  exists confirmed_txs w' x,
    mine_block w = (Ok confirmed_txs, w')
    /\ NoDup members
    /\ (forall m, In m members <-> In m values /\ input_key w m = k)
    /\ In x members
    /\ (forall m, In m members ->
          Transaction.fee (txs w m) <= Transaction.fee (txs w x))
    /\ (Transaction.status (txs w' x) = CONFIRMED
        \/ Transaction.status (txs w' x) = STOLEN)
    /\ In x confirmed_txs
    /\ (forall m, In m members -> m <> x ->
          ~ In m confirmed_txs /\ txs w' m = txs w m).
Proof.
  intros values Hnd Hfund Hdet Hin Hlen.
  pose proof (selection_order_perm w) as Hp. fold values in Hp.
  destruct (group_by_spec (input_key w) (selection_order w)) as (_ & Hspec & _).
  destruct (Hspec k members Hin) as [Heq Hne].
  assert (Hchar : forall m, In m members <-> In m values /\ input_key w m = k).
  { intros m. rewrite Heq. unfold members_of. rewrite filter_In, key_eqb_eq.
    split; intros [H1 H2]; (split; [| exact H2]).
    - now apply (Permutation_in _ Hp).
    - now apply (Permutation_in _ (Permutation_sym Hp)). }
  assert (Hgroups : forall g t, In g (conflict_groups w) -> In t (snd g) ->
                      In t values).
  { intros [k' ms'] t Hg Ht. simpl in Ht.
    destruct (Hspec k' ms' Hg) as [E _]. rewrite E in Ht.
    apply filter_In in Ht. now apply (Permutation_in _ Hp). }
  destruct (resolve_loop_ok (conflict_groups w) w) as [c Hc].
  { intros [k' ms'] Hg. simpl. now destruct (Hspec k' ms' Hg). }
  { intros g t Hg Ht. apply Hdet. now apply (Hgroups g). }
  destruct (resolve_loop (conflict_groups w) w) as [Hres Hloop].
  unfold after in Hres.
  destruct (map_M _ (conflict_groups w) w) as [o w1] eqn:Hrun.
  simpl in Hc, Hres. subst o.
  destruct (Hloop c w1 eq_refl) as [Hall Hterm].
  destruct (sort_desc_nonempty (fun t => Transaction.fee (txs w t)) members Hne)
    as [x Hx].
  fold (sort_by_fee w members) in Hx. fold (winner w members) in Hx.
  destruct (winner_in w members x Hx) as [Hxin Hmax].
  assert (Hxc : In x c).
  { destruct (Forall2_in_l _ _ _ _ Hall Hin) as (y & Hy & Hwy).
    simpl in Hwy. congruence. }
  exists c, (finalize_block w1), x. split.
  - rewrite mine_block_eq.
    assert (Hv : In x values) by (now apply Hchar).
    unfold values in Hv.
    destruct (BitcoinNetwork.mempool (net w)) as [| entry pool] eqn:Hpool;
      [destruct Hv |].
    assert (forallb (funded w) (map snd (entry :: pool)) = true) as ->.
    { apply forallb_forall. intros t Ht. unfold funded.
      apply negb_true_iff. apply not_true_iff_false. intros Hz.
      apply Qeq_bool_iff in Hz. apply (Hfund t); [| exact Hz].
      unfold values. first [exact Ht | now rewrite Hpool]. }
    now rewrite Hrun.
  - split.
    { rewrite Heq. apply NoDup_filter.
      now apply (Permutation_NoDup (Permutation_sym Hp)). }
    split; [exact Hchar |]. split; [exact Hxin |]. split; [exact Hmax |].
    split; [now apply Hterm |]. split; [exact Hxc |].
    intros m Hm Hmx. split.
    + intros Hmc. apply Hmx.
      destruct (Forall2_in_r _ _ _ _ Hall Hmc) as ([k' ms'] & Hg & Hw').
      simpl in Hw'.
      apply (winner_of_own_group w k members ms' x m Hin Hx); auto.
      apply in_map_iff. now exists (k', ms').
    + destruct Hres as (_ & _ & K). simpl.
      destruct (K m) as [E | (ms & Hms & Hw' & _)]; [exact E |].
      exfalso. apply Hmx.
      exact (winner_of_own_group w k members ms x m Hin Hx Hms Hw' Hm).
Qed.

Lemma one_winner_per_conflict_group_witness :
  let w := double_spend_world in
  let values := map snd (BitcoinNetwork.mempool (net w)) in
  let k := input_key w 0%nat in
  let members := [0%nat; 1%nat] in
  exists confirmed_txs w' x,
    mine_block w = (Ok confirmed_txs, w')
    /\ NoDup members
    /\ (forall m, In m members <-> In m values /\ input_key w m = k)
    /\ In x members
    /\ (forall m, In m members ->
          Transaction.fee (txs w m) <= Transaction.fee (txs w x))
    /\ (Transaction.status (txs w' x) = CONFIRMED
        \/ Transaction.status (txs w' x) = STOLEN)
    /\ In x confirmed_txs
    /\ (forall m, In m members -> m <> x ->
          ~ In m confirmed_txs /\ txs w' m = txs w m).
Proof.
  apply (one_winner_per_conflict_group double_spend_world
           (input_key double_spend_world 0%nat) [0%nat; 1%nat]).
  - vm_compute. repeat constructor; simpl; intuition discriminate.
  - intros t Ht. vm_compute in Ht.
    destruct Ht as [<- | [<- | []]]; vm_compute; discriminate.
  - intros t Ht. vm_compute in Ht.
    destruct Ht as [<- | [<- | []]]; vm_compute; discriminate.
  - vm_compute. now left.
  - simpl. lia.
Defined.

(** ** The worlds that block selection meets

    The hypotheses of the property of the conflict groups hold in every
    world that the operations reach from a fresh network. *)

#[export] Instance ready_frame_frame : Frame ready_frame.
Proof.
  split; unfold ready_frame; simpl;
    try solve [intros w; repeat split; auto].
  intros w1 w2 w3 (H1 & H2 & H3 & H4 & H5) (K1 & K2 & K3 & K4 & K5).
  repeat split; try congruence; destruct (H5 t) as (A1 & A2 & A3);
    destruct (K5 t) as (B1 & B2 & B3); try congruence.
  intros Hd. apply B3, A3, Hd.
Qed.

#[export] Instance same_counts_frame : Frame same_counts.
Proof.
  split; unfold same_counts; simpl; auto.
  intros w1 w2 w3 [H1 H2] [K1 K2]. split; congruence.
Qed.

#[export] Instance same_amounts_frame : Frame same_amounts.
Proof.
  split; unfold same_amounts; simpl; auto.
  intros w1 w2 w3 H K r. now rewrite K.
Qed.

Lemma after_forget {A : Type} (m : M A) (w : World) :
  after (forget m) w = after m w.
Proof.
  unfold after, forget, bind, ret. now destruct (m w) as [[a | e] w1].
Qed.

Lemma total_input_same (w w' : World) (t : tref) :
  Transaction.inputs (txs w' t) = Transaction.inputs (txs w t) ->
  (forall r, In r (Transaction.inputs (txs w t)) ->
     UTXO.amount (utxos w' r) = UTXO.amount (utxos w r)) ->
  total_input w' t = total_input w t.
Proof.
  intros Hi Ha. unfold total_input. rewrite Hi. f_equal.
  apply map_ext_in. exact Ha.
Qed.

Lemma ready_frame_ready (w w' : World) :
  ready_frame w w' -> mempool_ready w -> mempool_ready w'.
Proof.
  intros (Hn & Hu & Htc & Huc & Ht) (I1 & I2 & I3 & I4).
  unfold mempool_ready. rewrite Hn, Htc, Huc.
  split; [| split; [| split]].
  - intros t r Hlt Hr. destruct (Ht t) as (_ & Hi & _). rewrite Hi in Hr.
    now apply (I1 t).
  - intros k t Hin. destruct (I2 k t Hin) as (Hlt & Hid & Hz).
    destruct (Ht t) as (Hid' & Hi & _).
    split; [exact Hlt |]. split; [congruence |].
    rewrite (total_input_same w w' t Hi); [exact Hz |].
    intros r _. now rewrite Hu.
  - exact I3.
  - intros t Hst. destruct (Ht t) as (_ & _ & Hd). apply Hd; [apply I4 | exact Hst].
Qed.

Lemma execute_quantum_attack_ready (a : aref) (t : tref) :
  steps ready_frame (_execute_quantum_attack a t).
Proof.
  intros w. unfold after. rewrite execute_quantum_attack_eq.
  repeat match goal with |- context [if ?b then _ else _] => destruct b end;
    simpl; try (repeat split; auto; fail).
  unfold ready_frame, successful_attack. simpl.
  repeat split; auto;
    unfold update; destruct (Nat.eqb t0 t); simpl; auto;
    unfold append_attack_detail; simpl;
    destruct (Transaction.attack_details (txs w t0)); simpl; auto; discriminate.
Qed.

Lemma attack_scan_ready : steps ready_frame quantum_attack_scan.
Proof.
  unfold quantum_attack_scan. frame_walk.
  - unfold find_targets, should_attack. frame_walk.
  - apply execute_quantum_attack_ready.
Qed.

Lemma mine_block_counts : steps same_counts mine_block.
Proof. frame_all; unfold same_counts; simpl; auto. Qed.

Lemma mine_block_ready (w : World) :
  mempool_ready w -> mempool_ready (after mine_block w).
Proof.
  intros Hr. pose proof (mine_block_counts w) as [Htc Huc].
  pose proof (mine_block_resolved w) as Hres.
  assert (Hframe : ready_frame w (set_net (net w) (after mine_block w))).
  { destruct Hres as (Hn & Hu & K). unfold ready_frame. simpl in *.
    repeat split; auto;
      destruct (K t) as [-> | (ms & _ & _ & [-> | (-> & _)])]; simpl; auto;
      discriminate. }
  pose proof (ready_frame_ready _ _ Hframe Hr) as (I1 & I2 & I3 & I4).
  simpl in I1, I4.
  assert (Hpool : BitcoinNetwork.mempool (net (after mine_block w)) = []
                  \/ net (after mine_block w) = net w).
  { unfold after. rewrite mine_block_eq.
    destruct (BitcoinNetwork.mempool (net w)) as [| entry pool] eqn:Hp;
      [left; simpl; exact Hp |].
    destruct (forallb _ _); [| now right].
    destruct (resolve_loop (conflict_groups w) w) as [(Hn & _) _].
    unfold after in Hn.
    destruct (map_M _ (conflict_groups w) w) as [[c | e] w1]; simpl in *;
      [now left | now right]. }
  unfold mempool_ready.
  split; [exact I1 |]. split; [| split; [| exact I4]].
  - destruct Hpool as [-> | Hn]; [intros k t [] |].
    rewrite Hn. intros k t Hin. simpl in I2.
    destruct (I2 k t Hin) as (H1 & H2 & H3). repeat split; auto.
  - destruct Hpool as [-> | ->]; [constructor | exact I3].
Qed.

Lemma create_utxo_ready (addr_type : AddressType) (amount : Q) (num_signers : Z)
  (w : World) :
  mempool_ready w -> mempool_ready (after (create_utxo addr_type amount num_signers) w).
Proof.
  intros (I1 & I2 & I3 & I4). unfold after.
  destruct (create_utxo_eq addr_type amount num_signers w)
    as (u & w' & -> & Hu & Hc & _ & _ & _ & _ & Ht & Htc & Hp).
  simpl. unfold mempool_ready. rewrite Ht, Htc, Hp, Hc.
  split; [| split; [| split]]; auto.
  - intros t r Hlt Hr. specialize (I1 t r Hlt Hr). lia.
  - intros k t Hin. destruct (I2 k t Hin) as (Hlt & Hid & Hz).
    repeat split; auto.
    rewrite (total_input_same w w' t); [exact Hz | now rewrite Ht |].
    intros r Hr. rewrite Hu, update_other; [reflexivity |].
    specialize (I1 t r Hlt Hr). lia.
Qed.

Lemma expose_loop_amounts (txid : string) (inputs : list uref) :
  steps same_amounts (map_M (expose_input txid) inputs).
Proof.
  frame_walk. intros w r. unfold after.
  destruct (expose_input_eq txid x w) as [p ->]. simpl.
  destruct (UTXO.pubkey_exposed (utxos w x)); [reflexivity |]. simpl.
  unfold update. now destruct (Nat.eqb r x).
Qed.

Lemma new_tx_ready (w w2 : World) (x : Transaction.t) :
  net w2 = net w -> utxo_count w2 = utxo_count w ->
  tx_count w2 = S (tx_count w) ->
  (forall t, t <> tx_count w -> txs w2 t = txs w t) ->
  txs w2 (tx_count w) = x ->
  (forall r, UTXO.amount (utxos w2 r) = UTXO.amount (utxos w r)) ->
  (forall r, In r (Transaction.inputs x) -> (r < utxo_count w)%nat) ->
  Transaction.status x = CREATED ->
  mempool_ready w -> mempool_ready w2.
Proof.
  intros Hn Huc Htc Hold Hnew Ha Hvalid Hst (I1 & I2 & I3 & I4).
  unfold mempool_ready. rewrite Hn, Huc, Htc.
  split; [| split; [| split]]; auto.
  - intros t r Hlt Hr. destruct (Nat.eq_dec t (tx_count w)) as [-> | Hne].
    + rewrite Hnew in Hr. now apply Hvalid.
    + rewrite Hold in Hr by exact Hne. apply (I1 t); [lia | exact Hr].
  - intros k t Hin. destruct (I2 k t Hin) as (Hlt & Hid & Hz).
    assert (Ht : txs w2 t = txs w t) by (apply Hold; lia).
    split; [lia |]. split; [now rewrite Ht |].
    rewrite (total_input_same w w2 t); [exact Hz | now rewrite Ht |].
    intros r _. apply Ha.
  - intros t. destruct (Nat.eq_dec t (tx_count w)) as [-> | Hne].
    + rewrite Hnew, Hst. discriminate.
    + rewrite Hold by exact Hne. apply I4.
Qed.

Lemma create_transaction_ready (inputs : list uref) (outputs : list Output)
  (fee : Q) (rbf : bool) (w : World) :
  (forall r, In r inputs -> (r < utxo_count w)%nat) ->
  mempool_ready w ->
  mempool_ready (after (create_transaction inputs outputs fee rbf) w).
Proof.
  intros Hvalid Hready. unfold after.
  destruct (create_transaction_eq inputs outputs fee rbf w)
    as (txid & exposed & -> & Hcount).
  cbv zeta in *.
  destruct (expose_loop_only_utxos txid inputs (bump_rand w))
    as (Hn & Ht & Htc & Huc & _).
  pose proof (expose_loop_amounts txid inputs (bump_rand w)) as Ha.
  set (w1 := after (map_M (expose_input txid) inputs) (bump_rand w)) in *.
  simpl in Hn, Ht, Htc, Huc. unfold same_amounts in Ha. simpl in Ha.
  eapply new_tx_ready; try exact Hready.
  - exact Hn.
  - exact Huc.
  - simpl. now rewrite Htc.
  - intros t Hne. simpl. rewrite Htc, Ht. now apply update_other.
  - simpl. rewrite Htc, Ht. apply update_same.
  - exact Ha.
  - exact Hvalid.
  - reflexivity.
Qed.

Lemma dict_set_in (k : string) (v : tref) (d : list (string * tref))
  (k' : string) (v' : tref) :
  In (k', v') (dict_set k v d) -> (k' = k /\ v' = v) \/ In (k', v') d.
Proof.
  induction d as [| [k1 v1] d IH]; simpl.
  - intros [[= <- <-] | []]. now left.
  - destruct (String.eqb k1 k) eqn:E; simpl.
    + apply String.eqb_eq in E. subst k1.
      intros [[= <- <-] | H]; [now left | right; now right].
    + intros [H | H]; [right; now left |].
      destruct (IH H) as [? | ?]; [now left | right; now right].
Qed.

Lemma dict_set_nodup (k : string) (v : tref) (d : list (string * tref)) :
  NoDup (map fst d) -> NoDup (map fst (dict_set k v d)).
Proof.
  induction d as [| [k1 v1] d IH]; simpl; intros Hnd.
  - repeat constructor. intros [].
  - inversion Hnd as [| ? ? Hk1 Hnd']; subst.
    destruct (String.eqb k1 k) eqn:E; simpl; [now constructor |].
    constructor; [| now apply IH].
    intros Hin. apply in_map_iff in Hin. destruct Hin as ([k2 v2] & Hk & Hin).
    simpl in Hk. subst k2.
    destruct (dict_set_in _ _ _ _ _ Hin) as [[-> _] | Hold].
    + now rewrite String.eqb_refl in E.
    + apply Hk1. change k1 with (fst (k1, v2)). now apply in_map.
Qed.

Lemma broadcast_transaction_ready (t : tref) (w : World) :
  (t < tx_count w)%nat ->
  mempool_ready w -> mempool_ready (after (broadcast_transaction t) w).
Proof.
  intros Hvalid (I1 & I2 & I3 & I4). unfold after.
  rewrite broadcast_transaction_eq.
  destruct (Qeq_bool (total_input w t) 0) eqn:Hz;
    [simpl; unfold mempool_ready; auto |].
  simpl. unfold mempool_ready. simpl.
  assert (Htot : forall t0,
            total_input
              (set_net (BitcoinNetwork.set_mempool
                          (dict_set (Transaction.txid (txs w t)) t
                             (BitcoinNetwork.mempool (net w))) (net w))
                 (update_tx t (Transaction.set_status BROADCAST) w)) t0
            = total_input w t0).
  { intros t0. apply total_input_same; [| reflexivity]. simpl.
    unfold update. now destruct (Nat.eqb t0 t). }
  split; [| split; [| split]].
  - intros t0 r Hlt Hr. apply (I1 t0 r Hlt).
    unfold update in Hr. now destruct (Nat.eqb t0 t).
  - intros k t0 Hin. rewrite Htot.
    destruct (dict_set_in _ _ _ _ _ Hin) as [[-> ->] | Hold].
    + split; [exact Hvalid |]. rewrite update_same. split; [reflexivity |].
      intros H. apply Qeq_bool_iff in H. congruence.
    + destruct (I2 k t0 Hold) as (Hlt & Hid & Hnz). repeat split; auto.
      unfold update. now destruct (Nat.eqb t0 t).
  - now apply dict_set_nodup.
  - intros t0. unfold update. destruct (Nat.eqb t0 t); simpl;
      [discriminate | apply I4].
Qed.

Lemma register_attacker_ready (name : string) (qc : QuantumComputer.t)
  (strategy : string) (w : World) :
  mempool_ready w -> mempool_ready (after (register_attacker name qc strategy) w).
Proof. intros H. exact H. Qed.

(** Every world that the operations reach is ready for block selection. *)
Lemma reachable_ready (e : Env) (w : World) : reachable e w -> mempool_ready w.
Proof.
  induction 1 as [| w op _ IH Hvalid].
  - unfold mempool_ready. simpl. repeat split; try constructor;
      try (intros; lia); try (intros ? ? []); discriminate.
  - destruct op; unfold exec; rewrite ?after_forget.
    + now apply create_utxo_ready.
    + now apply create_transaction_ready.
    + now apply broadcast_transaction_ready.
    + exact (ready_frame_ready _ _ (attack_scan_ready w) IH).
    + now apply mine_block_ready.
    + now apply register_attacker_ready.
Qed.

Lemma nodup_values {A B : Type} (f : B -> A) (l : list (A * B)) :
  NoDup (map fst l) -> (forall k v, In (k, v) l -> f v = k) ->
  NoDup (map snd l).
Proof.
  induction l as [| [k v] l IH]; simpl; intros Hnd Hf; [constructor |].
  inversion Hnd as [| ? ? Hk Hnd']; subst. constructor.
  - intros Hin. apply in_map_iff in Hin. destruct Hin as ([k' v'] & Hv & Hin).
    simpl in Hv. subst v'. apply Hk.
    assert (k' = k).
    { rewrite <- (Hf k' v) by now right. apply Hf. now left. }
    subst k'. change k with (fst (k, v)). now apply in_map.
  - apply IH; [exact Hnd' |]. intros k' v' Hin. apply Hf. now right.
Qed.

(** In a world that is ready, the hypotheses on the mempool that the
    property of the conflict groups asks for hold. *)
Lemma ready_mempool (w : World) :
  mempool_ready w ->
  let values := map snd (BitcoinNetwork.mempool (net w)) in
  NoDup values
  /\ (forall t, In t values -> ~ total_input w t == 0)
  /\ (forall t, In t values -> Transaction.status (txs w t) = ATTACKED ->
        Transaction.attack_details (txs w t) <> None).
Proof.
  intros (I1 & I2 & I3 & I4) values. split; [| split].
  - apply (nodup_values (fun t => Transaction.txid (txs w t))); [exact I3 |].
    intros k t Hin. now destruct (I2 k t Hin) as (_ & ? & _).
  - intros t Hin. apply in_map_iff in Hin. destruct Hin as ([k t'] & E & Hin).
    simpl in E. subst t'. now destruct (I2 k t Hin) as (_ & _ & ?).
  - intros t _. apply I4.
Qed.

(** * Further properties of the code *)

(** ** Errors and edges of the mempool and of the attack *)

(** X1.  [broadcast_transaction] raises [ZeroDivisionError] on a
    transaction whose inputs sum to zero, before it changes anything: the
    status of the transaction and the mempool are as they were. *)
Theorem broadcast_unfunded_raises (w : World) (t : tref) :
  total_input w t == 0 ->
  broadcast_transaction t w = (Raise ZeroDivisionError, w).
Proof.
  intros Hz. rewrite broadcast_transaction_eq.
  apply Qeq_bool_iff in Hz. now rewrite Hz.
Qed.

Lemma broadcast_unfunded_raises_witness :
  broadcast_transaction 0%nat no_input_world
  = (Raise ZeroDivisionError, no_input_world).
Proof.
  apply (broadcast_unfunded_raises no_input_world 0%nat).
  vm_compute. reflexivity.
Defined.

(** X2.  A transaction that [create_transaction] builds from no inputs
    can never be broadcast: the builder returns it, whatever the outputs and
    the fee, and [broadcast_transaction] raises [ZeroDivisionError] on it
    and leaves the world as it is. *)
Theorem empty_transaction_cannot_be_broadcast
  (w : World) (outputs : list Output) (fee : Q) (rbf : bool) :
  exists t w1,
    create_transaction [] outputs fee rbf w = (Ok t, w1)
    /\ Transaction.inputs (txs w1 t) = []
    /\ broadcast_transaction t w1 = (Raise ZeroDivisionError, w1)
    /\ BitcoinNetwork.mempool (net w1) = BitcoinNetwork.mempool (net w).
Proof.
  destruct (create_transaction_eq [] outputs fee rbf w)
    as (txid & exposed & H & Hc).
  cbv zeta in H, Hc. rewrite H.
  eexists. eexists. split; [reflexivity |].
  assert (Hin : Transaction.inputs
                  (txs (snd (new_tx
                     (Transaction.mk txid [] outputs fee (map fst exposed)
                        (map snd exposed) CREATED
                        (BitcoinNetwork.current_time
                           (net (after (map_M (expose_input txid) [])
                                   (bump_rand w)))) None rbf 0 None [] None)
                     (after (map_M (expose_input txid) []) (bump_rand w))))
                     (tx_count w)) = []).
  { unfold new_tx. simpl. rewrite update_same. reflexivity. }
  split; [exact Hin |]. split; [| reflexivity].
  rewrite broadcast_transaction_eq.
  unfold total_input. rewrite Hin. reflexivity.
Qed.

(** X3.  An attack that is in time and passes the draw on a transaction
    whose fee is zero raises [ZeroDivisionError] (the report divides the
    attack fee by the fee) before it records anything: the transaction is
    not marked, and the attacker counts neither a success nor a failure. *)
Theorem zero_fee_attack_raises (w : World) (a : aref) (t : tref) :
  Transaction.fee (txs w t) == 0 ->
  attack_time_of w a t <= block_time_remaining_at w (attack_now w) t ->
  attack_draw w <= attack_probability w a ->
  exists w',
    _execute_quantum_attack a t w = (Raise ZeroDivisionError, w')
    /\ txs w' = txs w /\ attackers w' = attackers w
    /\ net w' = net w /\ utxos w' = utxos w.
Proof.
  intros Hfee Htime Hdraw. rewrite execute_quantum_attack_eq.
  apply Qgtb_false in Htime. apply Qgtb_false in Hdraw.
  apply Qeq_bool_iff in Hfee. rewrite Htime, Hdraw, Hfee.
  eexists. split; [reflexivity |]. repeat split.
Qed.

Lemma zero_fee_attack_raises_witness :
  exists w',
    _execute_quantum_attack 0%nat 0%nat zero_fee_world
    = (Raise ZeroDivisionError, w')
    /\ txs w' = txs zero_fee_world /\ attackers w' = attackers zero_fee_world
    /\ net w' = net zero_fee_world /\ utxos w' = utxos zero_fee_world.
Proof.
  apply (zero_fee_attack_raises zero_fee_world 0%nat 0%nat).
  - vm_compute. reflexivity.
  - vm_compute. discriminate.
  - vm_compute. discriminate.
Defined.

(** X4.  With an empty mempool or with no attacker registered,
    [quantum_attack_scan] returns at once: nothing is changed and no random
    number is drawn. *)
Theorem scan_without_targets (w : World) :
  BitcoinNetwork.mempool (net w) = []
  \/ BitcoinNetwork.quantum_attackers (net w) = [] ->
  quantum_attack_scan w = (Ok tt, w).
Proof.
  intros H. unfold quantum_attack_scan, bind, get.
  destruct (BitcoinNetwork.mempool (net w)) as [| entry pool]; [reflexivity |].
  destruct H as [H | H]; [discriminate |]. now rewrite H.
Qed.

Lemma scan_without_targets_witness :
  quantum_attack_scan one_coin_world = (Ok tt, one_coin_world).
Proof.
  apply (scan_without_targets one_coin_world). left. reflexivity.
Defined.

(** ** Targeting *)

Lemma should_attack_eq (a : aref) (t : tref) (w : World) :
  should_attack a t w
  = if String.eqb (QuantumAttacker.attack_strategy (attackers w a)) "AGGRESSIVE"
    then (Ok (Qgtb (total_input w t) (1 # 10)), w)
    else if String.eqb (QuantumAttacker.attack_strategy (attackers w a)) "SELECTIVE"
    then (Ok (Qgtb (total_input w t) 5), w)
    else if Qgtb (total_input w t) 1
    then (Ok (Qgtb (attack_draw w) (1 # 2)), bump_rand w)
    else (Ok false, w).
Proof.
  unfold should_attack, bind, get. simpl.
  repeat match goal with |- context [if ?b then _ else _] => destruct b end;
    reflexivity.
Qed.

Lemma Qgtb_weaken (x lo hi : Q) : lo <= hi -> Qgtb x hi = true -> Qgtb x lo = true.
Proof.
  rewrite !Qgtb_true. intros Hle Hx Hlo. apply Hx.
  now apply (Qle_trans _ lo).
Qed.

(** X5.  The strategies are nested: whatever transaction an attacker of
    any strategy decides to attack, an [AGGRESSIVE] attacker decides to
    attack too.  The decision changes nothing in the world but the count of
    the random numbers drawn. *)
Theorem aggressive_attacks_what_others_attack
  (w : World) (a a' : aref) (t : tref) :
  QuantumAttacker.attack_strategy (attackers w a') = "AGGRESSIVE" ->
  fst (should_attack a t w) = Ok true ->
  fst (should_attack a' t w) = Ok true
  /\ (after (should_attack a t) w = w
      \/ after (should_attack a t) w = bump_rand w).
Proof.
  intros Hagg. unfold after. rewrite !should_attack_eq, Hagg. simpl.
  destruct (String.eqb (QuantumAttacker.attack_strategy (attackers w a))
              "AGGRESSIVE"); [intros H; split; [exact H | now left] |].
  destruct (String.eqb (QuantumAttacker.attack_strategy (attackers w a))
              "SELECTIVE"); simpl.
  - intros [= H]. split; [| now left]. f_equal.
    apply (Qgtb_weaken _ (1 # 10) 5); [discriminate | exact H].
  - destruct (Qgtb (total_input w t) 1) eqn:H1; simpl; [| discriminate].
    intros _. split; [| now right]. f_equal.
    apply (Qgtb_weaken _ (1 # 10) 1); [discriminate | exact H1].
Qed.

Lemma aggressive_attacks_what_others_attack_witness :
  QuantumAttacker.attack_strategy (attackers two_strategies_world 0%nat)
  = "SELECTIVE"
  /\ fst (should_attack 1%nat 0%nat two_strategies_world) = Ok true
  /\ (after (should_attack 0%nat 0%nat) two_strategies_world
      = two_strategies_world
      \/ after (should_attack 0%nat 0%nat) two_strategies_world
         = bump_rand two_strategies_world).
Proof.
  split; [vm_compute; reflexivity |].
  apply (aggressive_attacks_what_others_attack two_strategies_world
           0%nat 1%nat 0%nat).
  - vm_compute. reflexivity.
  - vm_compute. reflexivity.
Defined.

(** X6.  [can_break_secp256k1] is monotone: a computer with at least the
    qubits and at most the error rate of one that can break the curve can
    break it too. *)
Theorem can_break_is_monotone (qc qc' : QuantumComputer.t) :
  QuantumComputer.can_break_secp256k1 qc = true ->
  (QuantumComputer.qubits qc <= QuantumComputer.qubits qc')%Z ->
  QuantumComputer.error_rate qc' <= QuantumComputer.error_rate qc ->
  QuantumComputer.can_break_secp256k1 qc' = true.
Proof.
  unfold QuantumComputer.can_break_secp256k1. intros H Hq He.
  apply andb_true_iff in H. destruct H as [H1 H2].
  apply andb_true_iff. split.
  - apply Z.leb_le in H1. apply Z.leb_le. lia.
  - unfold Qltb in *. apply negb_true_iff in H2. apply negb_true_iff.
    apply not_true_iff_false. apply not_true_iff_false in H2.
    intros Hle. apply H2. apply Qle_bool_iff. apply Qle_bool_iff in Hle.
    now apply (Qle_trans _ (QuantumComputer.error_rate qc')).
Qed.

Lemma can_break_is_monotone_witness :
  QuantumComputer.can_break_secp256k1 better_computer = true.
Proof.
  apply (can_break_is_monotone threshold_computer better_computer).
  - reflexivity.
  - vm_compute. discriminate.
  - vm_compute. discriminate.
Defined.

(** X7.  The attack never asks whether the computer can break the curve:
    with any other qubit count and error rate for the attacker, the attack
    has the same outcome and leaves the same transactions and the same
    counters of the attacker. *)
Theorem attack_ignores_capability
  (w : World) (a : aref) (t : tref) (qubits : Z) (error_rate : Q) :
  let w2 := update_attacker a (with_capability qubits error_rate) w in
  fst (_execute_quantum_attack a t w2) = fst (_execute_quantum_attack a t w)
  /\ txs (after (_execute_quantum_attack a t) w2)
     = txs (after (_execute_quantum_attack a t) w)
  /\ QuantumAttacker.failed_attacks
       (attackers (after (_execute_quantum_attack a t) w2) a)
     = QuantumAttacker.failed_attacks
         (attackers (after (_execute_quantum_attack a t) w) a)
  /\ QuantumAttacker.successful_attacks
       (attackers (after (_execute_quantum_attack a t) w2) a)
     = QuantumAttacker.successful_attacks
         (attackers (after (_execute_quantum_attack a t) w) a).
Proof.
  intros w2. unfold after. rewrite !execute_quantum_attack_eq.
  assert (Ha : attackers w2 a = with_capability qubits error_rate (attackers w a)).
  { unfold w2, update_attacker. simpl. apply update_same. }
  assert (Htime : attack_time_of w2 a t = attack_time_of w a t).
  { unfold attack_time_of. now rewrite Ha. }
  assert (Hprob : attack_probability w2 a = attack_probability w a).
  { unfold attack_probability. now rewrite Ha. }
  assert (Hid : competing_txid_of w2 a t = competing_txid_of w a t).
  { unfold competing_txid_of. now rewrite Ha. }
  assert (Hdet : attack_detail_of w2 a t = attack_detail_of w a t).
  { unfold attack_detail_of. rewrite Hid, Ha. reflexivity. }
  rewrite Htime, Hprob.
  change (block_time_remaining_at w2 (attack_now w2) t)
    with (block_time_remaining_at w (attack_now w) t).
  change (attack_draw w2) with (attack_draw w).
  change (Transaction.fee (txs w2 t)) with (Transaction.fee (txs w t)).
  destruct (Qgtb (attack_time_of w a t) _);
    [| destruct (Qgtb (attack_draw w) _);
       [| destruct (Qeq_bool (Transaction.fee (txs w t)) 0)]];
    simpl; unfold successful_attack; simpl;
    rewrite ?Hid, ?Hdet, ?update_same; simpl; rewrite ?update_same;
    repeat split; reflexivity.
Qed.

(** ** The registry and the builders *)

(** X8.  [create_utxo] checks nothing and cannot fail, also for an amount
    that is zero or negative.  It returns a new object, appended to the
    registry, of the amount and the type asked for, with output index 0,
    unspent, unexposed, never counted, created at the current height; the
    other UTXOs, the transactions, the attackers and the mempool are as
    before. *)
Theorem create_utxo_registers_a_fresh_output
  (w : World) (addr_type : AddressType) (amount : Q) (num_signers : Z) :
  exists w',
    create_utxo addr_type amount num_signers w = (Ok (utxo_count w), w')
    /\ BitcoinNetwork.utxo_set (net w')
       = (BitcoinNetwork.utxo_set (net w) ++ [utxo_count w])%list
    /\ UTXO.amount (utxos w' (utxo_count w)) = amount
    /\ UTXO.address_type (utxos w' (utxo_count w)) = addr_type
    /\ UTXO.vout (utxos w' (utxo_count w)) = 0%Z
    /\ UTXO.spent (utxos w' (utxo_count w)) = false
    /\ UTXO.pubkey_exposed (utxos w' (utxo_count w)) = false
    /\ UTXO.exposure_count (utxos w' (utxo_count w)) = 0%Z
    /\ UTXO.created_block (utxos w' (utxo_count w))
       = BitcoinNetwork.current_block (net w)
    /\ (forall r, r <> utxo_count w -> utxos w' r = utxos w r)
    /\ txs w' = txs w /\ attackers w' = attackers w
    /\ BitcoinNetwork.mempool (net w') = BitcoinNetwork.mempool (net w).
Proof.
  unfold create_utxo.
  unfold bind, draw_random, str_of_float, sha256, get, construct, modify, ret.
  simpl.
  match goal with
  | |- context [let '(address, script) := ?p in _] => destruct p as [address script]
  end.
  simpl. eexists. split; [reflexivity |]. simpl.
  rewrite !update_same. simpl. repeat split.
  intros r Hr. now apply update_other.
Qed.

(** X9.  [create_utxo] does not use [num_signers], and the multisig types
    get the legacy form: the address is the prefix of the type (["1"] for
    P2PKH and for both multisig types, ["bc1q"] for P2WPKH, ["bc1p"] for
    P2TR) followed by the leading characters of the public key hash, and two
    calls that differ only in [num_signers] give the same world. *)
Theorem create_utxo_ignores_num_signers
  (w : World) (addr_type : AddressType) (amount : Q) (n1 n2 : Z) :
  create_utxo addr_type amount n1 w = create_utxo addr_type amount n2 w
  /\ let u := utxos (after (create_utxo addr_type amount n1) w) (utxo_count w) in
     UTXO.address u
     = address_prefix addr_type
         ++ prefix_slice (address_body_length addr_type) (UTXO.pubkey_hash u).
Proof.
  unfold after, create_utxo.
  unfold bind, draw_random, str_of_float, sha256, get, construct, modify, ret.
  destruct addr_type; simpl; rewrite ?update_same; split; reflexivity.
Qed.

Lemma dict_set_twice (k : string) (v : tref) (d : list (string * tref)) :
  dict_set k v (dict_set k v d) = dict_set k v d.
Proof.
  induction d as [| [k' v'] d IH]; simpl.
  - now rewrite String.eqb_refl.
  - destruct (String.eqb k' k) eqn:E; simpl; rewrite E; [reflexivity |].
    now rewrite IH.
Qed.

(** X10.  Broadcasting is idempotent: a second [broadcast_transaction] of
    the same transaction has the outcome of the first and leaves the
    mempool and every transaction as the first left them. *)
Theorem broadcast_twice_is_broadcast_once (w : World) (t : tref) :
  let w1 := after (broadcast_transaction t) w in
  let w2 := after (broadcast_transaction t) w1 in
  fst (broadcast_transaction t w1) = fst (broadcast_transaction t w)
  /\ BitcoinNetwork.mempool (net w2) = BitcoinNetwork.mempool (net w1)
  /\ forall t0, txs w2 t0 = txs w1 t0.
Proof.
  intros w1 w2. unfold w2, w1, after. rewrite (broadcast_transaction_eq t w).
  destruct (Qeq_bool (total_input w t) 0) eqn:Hz; cbn [snd fst].
  - rewrite broadcast_transaction_eq, Hz. repeat split.
  - rewrite broadcast_transaction_eq.
    set (w' := set_net _ (update_tx t (Transaction.set_status BROADCAST) w)).
    assert (Htot : total_input w' t = total_input w t).
    { unfold total_input, w'. simpl. now rewrite update_same. }
    rewrite Htot, Hz. cbn [snd fst]. split; [reflexivity |].
    unfold w'. simpl. rewrite update_same. simpl. split.
    + now rewrite dict_set_twice.
    + intros t0. unfold update. now destruct (Nat.eqb t0 t).
Qed.

(** ** The recorded attack *)

Lemma py_min_le_l (a b : Q) : py_min a b <= a.
Proof.
  unfold py_min. destruct (Qltb b a) eqn:E; [| apply Qle_refl].
  unfold Qltb in E. apply negb_true_iff in E.
  destruct (Qlt_le_dec b a) as [Hlt | Hle]; [now apply Qlt_le_weak |].
  apply Qle_bool_iff in Hle. congruence.
Qed.

Lemma py_min_le_r (a b : Q) : py_min a b <= b.
Proof.
  unfold py_min. destruct (Qltb b a) eqn:E; [apply Qle_refl |].
  unfold Qltb in E. apply negb_false_iff in E. now apply Qle_bool_iff.
Qed.

(** X11.  A successful attack appends one entry to the attack details of
    the transaction.  The entry names the attacker, its fee is at most ten
    times the fee of the transaction and at most half of the input value,
    and its value is at least half of the input value. *)
Theorem recorded_attack_is_bounded (w : World) (a : aref) (t : tref) :
  attack_time_of w a t <= block_time_remaining_at w (attack_now w) t ->
  attack_draw w <= attack_probability w a ->
  ~ Transaction.fee (txs w t) == 0 ->
  exists d,
    details_of (txs (after (_execute_quantum_attack a t) w) t)
    = (details_of (txs w t) ++ [d])%list
    /\ AttackDetail.attacker d = QuantumAttacker.name (attackers w a)
    /\ AttackDetail.competing_txid d = competing_txid_of w a t
    /\ AttackDetail.attack_fee d <= Transaction.fee (txs w t) * 10
    /\ AttackDetail.attack_fee d <= total_input w t * (1 # 2)
    /\ total_input w t * (1 # 2) <= AttackDetail.value d.
Proof.
  intros Htime Hdraw Hfee. unfold after. rewrite execute_quantum_attack_eq.
  apply Qgtb_false in Htime. apply Qgtb_false in Hdraw. rewrite Htime, Hdraw.
  destruct (Qeq_bool (Transaction.fee (txs w t)) 0) eqn:Hz;
    [apply Qeq_bool_iff in Hz; contradiction |].
  exists (attack_detail_of w a t). cbn [snd]. split.
  - unfold successful_attack, update_tx. simpl. rewrite !update_same.
    unfold details_of, append_attack_detail. simpl.
    now destruct (Transaction.attack_details (txs w t)).
  - unfold attack_detail_of, attack_fee_of. simpl.
    split; [reflexivity |]. split; [reflexivity |].
    split; [apply py_min_le_l |]. split; [apply py_min_le_r |].
    pose proof (py_min_le_r (Transaction.fee (txs w t) * 10)
                  (total_input w t * (1 # 2))) as H.
    set (m := py_min _ _) in *. set (v := total_input w t) in *. lra.
Qed.

Lemma recorded_attack_is_bounded_witness :
  exists d,
    details_of (txs (after (_execute_quantum_attack 0%nat 0%nat) carol_world)
                  0%nat)
    = (details_of (txs carol_world 0%nat) ++ [d])%list
    /\ AttackDetail.attacker d = QuantumAttacker.name (attackers carol_world 0%nat)
    /\ AttackDetail.competing_txid d = competing_txid_of carol_world 0%nat 0%nat
    /\ AttackDetail.attack_fee d <= Transaction.fee (txs carol_world 0%nat) * 10
    /\ AttackDetail.attack_fee d <= total_input carol_world 0%nat * (1 # 2)
    /\ total_input carol_world 0%nat * (1 # 2) <= AttackDetail.value d.
Proof.
  apply (recorded_attack_is_bounded carol_world 0%nat 0%nat).
  - vm_compute. discriminate.
  - vm_compute. discriminate.
  - vm_compute. discriminate.
Defined.

(** ** What the operations keep *)

#[export] Instance chain_evolves_frame : Frame chain_evolves.
Proof.
  split; unfold chain_evolves; simpl;
    try solve [intros w; repeat split; auto; try lia; intros; apply Qle_refl].
  intros w1 w2 w3 (H1 & H2 & H3 & H4 & H5 & H6) (K1 & K2 & K3 & K4 & K5 & K6).
  repeat split; try congruence; try lia.
  intros Hpos. eapply Qle_trans; [apply H6, Hpos | apply K6].
  now rewrite H2.
Qed.

Lemma chain_evolves_same (w w' : World) : net w' = net w -> chain_evolves w w'.
Proof.
  intros H. unfold chain_evolves. rewrite H.
  repeat split; auto; try lia. intros _. apply Qle_refl.
Qed.

Ltac chain_leaf :=
  first
    [ apply chain_evolves_same; reflexivity
    | unfold chain_evolves; simpl; repeat split; auto; try lia;
      intros; try apply Qle_refl;
      rewrite <- (Qplus_0_r (BitcoinNetwork.current_time _)) at 1;
      now apply Qplus_le_r ].

Lemma exec_chain_evolves (op : Op) : steps chain_evolves (exec op).
Proof.
  destruct op; unfold exec.
  - unfold create_utxo. frame_all; chain_leaf.
  - unfold create_transaction. frame_all; try chain_leaf.
    unfold expose_input. frame_all; chain_leaf.
  - frame_all; chain_leaf.
  - frame_all; chain_leaf.
  - frame_all; chain_leaf.
  - frame_all; chain_leaf.
Qed.

Lemma run_chain_evolves (ops : list Op) (w : World) : chain_evolves w (run ops w).
Proof.
  revert w. induction ops as [| op ops IH]; intros w; simpl.
  - apply frame_refl.
  - eapply frame_trans; [apply exec_chain_evolves | apply IH].
Qed.

(** X12.  Through any sequence of operations the block height does not
    decrease, and the average block time, the hash rate, the difficulty and
    the list of blocks are never written: on a network created by
    [BitcoinNetwork()] the height stays at 850000 or above, the time at the
    time of creation or later, the block time at 600, and [blockchain]
    stays empty: no block is ever recorded. *)
Theorem chain_never_goes_back (e : Env) (w : World) (ops : list Op) :
  (BitcoinNetwork.current_block (net w)
   <= BitcoinNetwork.current_block (net (run ops w)))%Z
  /\ BitcoinNetwork.block_time_avg (net (run ops w))
     = BitcoinNetwork.block_time_avg (net w)
  /\ BitcoinNetwork.network_hash_rate (net (run ops w))
     = BitcoinNetwork.network_hash_rate (net w)
  /\ BitcoinNetwork.difficulty_adjustment (net (run ops w))
     = BitcoinNetwork.difficulty_adjustment (net w)
  /\ BitcoinNetwork.blockchain (net (run ops w))
     = BitcoinNetwork.blockchain (net w)
  /\ (850000 <= BitcoinNetwork.current_block
                  (net (run ops (BitcoinNetwork_init e))))%Z
  /\ time_time e 0 <= BitcoinNetwork.current_time
                        (net (run ops (BitcoinNetwork_init e)))
  /\ BitcoinNetwork.block_time_avg (net (run ops (BitcoinNetwork_init e))) = 600
  /\ BitcoinNetwork.blockchain (net (run ops (BitcoinNetwork_init e))) = [].
Proof.
  destruct (run_chain_evolves ops w) as (H1 & H2 & H3 & H4 & H5 & _).
  destruct (run_chain_evolves ops (BitcoinNetwork_init e))
    as (K1 & K2 & K3 & _ & _ & K6).
  repeat split; auto. apply K6. discriminate.
Qed.

#[export] Instance utxo_identity_frame : Frame utxo_identity.
Proof.
  split; unfold utxo_identity; simpl; auto.
  intros w1 w2 w3 [H1 H2] [K1 K2]. split; [lia |].
  intros r Hr. rewrite K2 by lia. now apply H2.
Qed.

Lemma utxo_identity_same (w w' : World) :
  utxos w' = utxos w -> utxo_count w' = utxo_count w -> utxo_identity w w'.
Proof. intros H1 H2. unfold utxo_identity. rewrite H1, H2. auto. Qed.

Lemma expose_input_identity (txid : string) (r : uref) :
  steps utxo_identity (expose_input txid r).
Proof.
  intros w. unfold after. destruct (expose_input_eq txid r w) as [p ->]. simpl.
  destruct (UTXO.pubkey_exposed (utxos w r)); [apply frame_refl |].
  unfold utxo_identity. simpl. split; [lia |]. intros r0 _.
  unfold update. now destruct (Nat.eqb r0 r).
Qed.

Lemma exec_utxo_identity (op : Op) : steps utxo_identity (exec op).
Proof.
  destruct op; unfold exec.
  - apply steps_forget; [exact _ |]. intros w. unfold after.
    destruct (create_utxo_eq addr_type amount num_signers w)
      as (u & w' & -> & Hu & Hc & _).
    simpl. unfold utxo_identity. rewrite Hu, Hc. split; [lia |].
    intros r Hr. rewrite update_other; [reflexivity | lia].
  - unfold create_transaction. frame_all.
    + apply expose_input_identity.
    + now apply utxo_identity_same.
  - frame_all; now apply utxo_identity_same.
  - frame_all; now apply utxo_identity_same.
  - frame_all; now apply utxo_identity_same.
  - frame_all; now apply utxo_identity_same.
Qed.

Lemma run_utxo_identity (ops : list Op) (w : World) : utxo_identity w (run ops w).
Proof.
  revert w. induction ops as [| op ops IH]; intros w; simpl.
  - apply frame_refl.
  - eapply frame_trans; [apply exec_utxo_identity | apply IH].
Qed.

(** X13.  A UTXO keeps its identity and its value through any sequence of
    operations: id, output index, address, type, amount, keys, script and
    creation height are never written; spending it in a transaction, also
    one that a block confirms, takes nothing from its amount. *)
Theorem utxo_is_never_rewritten (w : World) (ops : list Op) (r : uref) :
  (r < utxo_count w)%nat ->
  utxo_fixed (utxos (run ops w) r) = utxo_fixed (utxos w r)
  /\ UTXO.amount (utxos (run ops w) r) = UTXO.amount (utxos w r).
Proof.
  intros Hr. destruct (run_utxo_identity ops w) as [_ H].
  specialize (H r Hr). split; [exact H |].
  unfold utxo_fixed in H. now injection H.
Qed.

Lemma utxo_is_never_rewritten_witness :
  utxo_fixed
    (utxos (run [BuildTransaction [0%nat] [mkOutput "1_merchant" (1 # 2)]
                   (1 # 10) false;
                 Broadcast 0%nat; RunAttackScan; MineBlock] one_coin_world)
       0%nat)
  = utxo_fixed (utxos one_coin_world 0%nat)
  /\ UTXO.amount
       (utxos (run [BuildTransaction [0%nat] [mkOutput "1_merchant" (1 # 2)]
                      (1 # 10) false;
                    Broadcast 0%nat; RunAttackScan; MineBlock] one_coin_world)
          0%nat)
     = UTXO.amount (utxos one_coin_world 0%nat).
Proof.
  apply (utxo_is_never_rewritten one_coin_world
           [BuildTransaction [0%nat] [mkOutput "1_merchant" (1 # 2)] (1 # 10) false;
            Broadcast 0%nat; RunAttackScan; MineBlock] 0%nat).
  vm_compute. lia.
Defined.

Lemma tx_evolves_refl (w : World) : tx_evolves w w.
Proof.
  unfold tx_evolves. split; [lia |]. split; [| split; [| auto]].
  - intros t _. repeat split. exists []. now rewrite !app_nil_r.
  - intros t Ht. lia.
Qed.

Lemma tx_evolves_same (w w' : World) :
  txs w' = txs w -> tx_count w' = tx_count w -> tx_evolves w w'.
Proof.
  intros H1 H2. pose proof (tx_evolves_refl w) as H.
  unfold tx_evolves in *. now rewrite H1, H2.
Qed.

Lemma tx_evolves_trans (w1 w2 w3 : World) :
  tx_evolves w1 w2 -> tx_evolves w2 w3 -> tx_evolves w1 w3.
Proof.
  intros (Hc & Hold & Hnew & Hrbf) (Kc & Kold & Knew & Krbf).
  unfold tx_evolves. split; [lia |]. split; [| split].
  - intros t Ht. destruct (Hold t Ht) as (F1 & U1 & ds1 & D1 & C1).
    destruct (Kold t ltac:(lia)) as (F2 & U2 & ds2 & D2 & C2).
    split; [congruence |]. split; [congruence |].
    exists (ds1 ++ ds2)%list. rewrite D2, D1, C2, C1, map_app, !app_assoc.
    now split.
  - intros t Ht. destruct (Nat.lt_ge_cases t (tx_count w2)) as [Hlt | Hge].
    + destruct (Hnew t ltac:(lia)) as [U1 S1].
      destruct (Kold t Hlt) as (_ & U2 & ds & D2 & C2).
      split; [congruence |].
      unfold details_in_sync in *. now rewrite C2, D2, S1, map_app.
    + apply Knew. lia.
  - intros t Ht. apply Hrbf, Krbf, Ht.
Qed.

#[export] Instance tx_evolves_frame : Frame tx_evolves.
Proof.
  split.
  - exact tx_evolves_refl.
  - exact tx_evolves_trans.
  - intros w. now apply tx_evolves_same.
  - intros w. now apply tx_evolves_same.
Qed.

Lemma tx_evolves_status (w : World) (x : tref) (s : TxStatus) :
  s <> RBF_REPLACED ->
  tx_evolves w (update_tx x (Transaction.set_status s) w).
Proof.
  intros Hs. unfold tx_evolves. simpl. split; [lia |]. split; [| split].
  - intros t _. unfold update. destruct (Nat.eqb t x); simpl;
      repeat split; exists []; now rewrite !app_nil_r.
  - intros t Ht. lia.
  - intros t. unfold update. destruct (Nat.eqb t x); simpl; [| auto].
    intros E. congruence.
Qed.

Lemma execute_quantum_attack_tx_evolves (a : aref) (t : tref) :
  steps tx_evolves (_execute_quantum_attack a t).
Proof.
  intros w. unfold after. rewrite execute_quantum_attack_eq.
  repeat match goal with |- context [if ?b then _ else _] => destruct b end;
    simpl; try (now apply tx_evolves_same).
  unfold tx_evolves, successful_attack. simpl. split; [lia |].
  split; [| split].
  - intros t0 _. unfold update. destruct (Nat.eqb t0 t); simpl.
    + unfold append_attack_detail, details_of. simpl.
      split; [now destruct (Transaction.attack_details (txs w t0)) |].
      split; [now destruct (Transaction.attack_details (txs w t0)) |].
      exists [attack_detail_of w a t].
      destruct (Transaction.attack_details (txs w t0)); simpl; now split.
    + repeat split. exists []. now rewrite !app_nil_r.
  - intros t0 Ht0. lia.
  - intros t0. unfold update. destruct (Nat.eqb t0 t); simpl; [| auto].
    unfold append_attack_detail. simpl.
    destruct (Transaction.attack_details (txs w t0)); simpl;
      intros E; discriminate E.
Qed.

Lemma exec_tx_evolves (op : Op) : steps tx_evolves (exec op).
Proof.
  destruct op; unfold exec.
  - unfold create_utxo. frame_all; now apply tx_evolves_same.
  - unfold create_transaction. frame_all.
    + unfold expose_input. frame_all; now apply tx_evolves_same.
    + unfold tx_evolves, new_tx. simpl. split; [lia |]. split; [| split].
      * intros t Ht. rewrite update_other by lia.
        repeat split. exists []. now rewrite !app_nil_r.
      * intros t Ht. assert (t = tx_count w) as -> by lia.
        rewrite update_same. now split.
      * intros t. unfold update. destruct (Nat.eqb t (tx_count w)); simpl;
          [intros E; discriminate E | auto].
  - frame_all; first [apply tx_evolves_status; discriminate
                     | now apply tx_evolves_same].
  - unfold quantum_attack_scan. frame_walk.
    + unfold find_targets, should_attack. frame_walk.
    + apply execute_quantum_attack_tx_evolves.
  - frame_all; first [apply tx_evolves_status; discriminate
                     | now apply tx_evolves_same].
  - frame_all; now apply tx_evolves_same.
Qed.

Lemma run_tx_evolves (ops : list Op) (w : World) : tx_evolves w (run ops w).
Proof.
  revert w. induction ops as [| op ops IH]; intros w; simpl.
  - apply frame_refl.
  - eapply frame_trans; [apply exec_tx_evolves | apply IH].
Qed.

Lemma tx_store_ok_init (e : Env) : tx_store_ok (BitcoinNetwork_init e).
Proof. split; simpl; [intros t Ht; lia | discriminate]. Qed.

Lemma tx_store_ok_evolves (w w' : World) :
  tx_store_ok w -> tx_evolves w w' -> tx_store_ok w'.
Proof.
  intros [Hok Hst] (Hc & Hold & Hnew & Hrbf). split.
  - intros t Ht. destruct (Nat.lt_ge_cases t (tx_count w)) as [Hlt | Hge].
    + destruct (Hok t Hlt) as [U S].
      destruct (Hold t Hlt) as (_ & U' & ds & D & C).
      split; [congruence |].
      unfold details_in_sync in *. now rewrite C, D, S, map_app.
    + apply Hnew. lia.
  - intros t E. apply (Hst t), Hrbf, E.
Qed.

(** X14.  What a transaction is built with is never written again: its
    id, inputs, outputs, fee, exposed keys, signatures, replace-by-fee flag
    and [broadcast_time] are after any sequence of operations what they were
    ([broadcast_time] is the network time of the call that built the
    transaction, not of its broadcast), and its records of attacks only
    grow. *)
Theorem transaction_is_never_rewritten (w : World) (ops : list Op) (t : tref) :
  (t < tx_count w)%nat ->
  tx_fixed (txs (run ops w) t) = tx_fixed (txs w t)
  /\ Transaction.broadcast_time (txs (run ops w) t)
     = Transaction.broadcast_time (txs w t)
  /\ exists ds,
       details_of (txs (run ops w) t) = (details_of (txs w t) ++ ds)%list
       /\ Transaction.competing_txs (txs (run ops w) t)
          = (Transaction.competing_txs (txs w t)
               ++ map AttackDetail.competing_txid ds)%list.
Proof.
  intros Ht. destruct (run_tx_evolves ops w) as (_ & Hold & _).
  destruct (Hold t Ht) as (F & _ & Hds). split; [exact F |].
  split; [| exact Hds]. unfold tx_fixed in F. now injection F.
Qed.

Lemma transaction_is_never_rewritten_witness :
  tx_fixed (txs (run [RunAttackScan; MineBlock] carol_world) 0%nat)
  = tx_fixed (txs carol_world 0%nat)
  /\ Transaction.broadcast_time
       (txs (run [RunAttackScan; MineBlock] carol_world) 0%nat)
     = Transaction.broadcast_time (txs carol_world 0%nat)
  /\ exists ds,
       details_of (txs (run [RunAttackScan; MineBlock] carol_world) 0%nat)
       = (details_of (txs carol_world 0%nat) ++ ds)%list
       /\ Transaction.competing_txs
            (txs (run [RunAttackScan; MineBlock] carol_world) 0%nat)
          = (Transaction.competing_txs (txs carol_world 0%nat)
               ++ map AttackDetail.competing_txid ds)%list.
Proof.
  apply (transaction_is_never_rewritten carol_world [RunAttackScan; MineBlock]
           0%nat).
  vm_compute. lia.
Defined.

(** X15.  On a network created by [BitcoinNetwork()], whatever the
    operations that follow, every transaction has no confirmation time (a
    block that confirms it does not set one), lock time 0 and no witness
    data, its [competing_txs] are the competing ids of its attack details, in
    order, and its status is never [RBF_REPLACED]: the status is one of the
    five others. *)
Theorem transactions_of_a_network (e : Env) (ops : list Op) (t : tref) :
  (t < tx_count (run ops (BitcoinNetwork_init e)))%nat ->
  let x := txs (run ops (BitcoinNetwork_init e)) t in
  Transaction.confirmation_time x = None
  /\ Transaction.locktime x = 0%Z
  /\ Transaction.witness_data x = None
  /\ Transaction.competing_txs x
     = map AttackDetail.competing_txid (details_of x)
  /\ In (Transaction.status x) [CREATED; BROADCAST; ATTACKED; CONFIRMED; STOLEN].
Proof.
  intros Ht x.
  destruct (tx_store_ok_evolves _ _ (tx_store_ok_init e)
              (run_tx_evolves ops (BitcoinNetwork_init e))) as [Hok Hst].
  destruct (Hok t Ht) as [U S]. fold x in U, S. specialize (Hst t). fold x in Hst.
  unfold tx_unused in U. injection U as U1 U2 U3.
  repeat split; auto.
  destruct (Transaction.status x); simpl; auto 6. congruence.
Qed.

Lemma transactions_of_a_network_witness :
  let x := txs (run [CreateOutput P2TR 22 1;
                     BuildTransaction [0%nat] [mkOutput "1_merchant" 21] 1 false;
                     Broadcast 0%nat; MineBlock]
                  (BitcoinNetwork_init demo_env)) 0%nat in
  Transaction.confirmation_time x = None
  /\ Transaction.locktime x = 0%Z
  /\ Transaction.witness_data x = None
  /\ Transaction.competing_txs x
     = map AttackDetail.competing_txid (details_of x)
  /\ In (Transaction.status x) [CREATED; BROADCAST; ATTACKED; CONFIRMED; STOLEN].
Proof.
  apply (transactions_of_a_network demo_env
           [CreateOutput P2TR 22 1;
            BuildTransaction [0%nat] [mkOutput "1_merchant" 21] 1 false;
            Broadcast 0%nat; MineBlock] 0%nat).
  vm_compute. lia.
Defined.

(** ** The attack scan and the crediting *)

#[export] Instance same_objects_frame : Frame same_objects.
Proof.
  split; unfold same_objects; simpl; auto.
  intros w1 w2 w3 (H1 & H2 & H3 & H4) (K1 & K2 & K3 & K4).
  repeat split; congruence.
Qed.

Lemma after_bind {A B : Type} (m : M A) (k : A -> M B) (w : World) :
  after (bind m k) w
  = match fst (m w) with
    | Ok a => after (k a) (after m w)
    | Raise _ => after m w
    end.
Proof. unfold after, bind. now destruct (m w) as [[a | e] w1]. Qed.

Lemma for_each_invariant {A : Type} (I : World -> Prop) (l : list A)
  (body : A -> M unit) :
  (forall x w, In x l -> I w -> I (after (body x) w)) ->
  forall w, I w -> I (after (for_each l body) w).
Proof.
  induction l as [| x l IH]; intros H w Hw; [exact Hw |].
  simpl. rewrite after_bind.
  assert (H1 : I (after (body x) w)) by (apply H; [now left | exact Hw]).
  destruct (fst (body x w)); [| exact H1].
  apply IH; [| exact H1]. intros y w' Hy. apply H. now right.
Qed.

(** The targets of an attacker are transactions of the pool that are not
    under attack, and finding them changes no object. *)
Lemma find_targets_spec (a : aref) (pool : list (string * tref)) (w : World) :
  exists targets w',
    find_targets a pool w = (Ok targets, w')
    /\ same_objects w w'
    /\ forall x, In x targets ->
         In x (map snd pool) /\ Transaction.status (txs w x) <> ATTACKED.
Proof.
  unfold find_targets, bind.
  set (p := fun entry : string * tref => _).
  assert (H : exists found w',
            filter_M p pool w = (Ok found, w') /\ same_objects w w'
            /\ forall e, In e found ->
                 In e pool /\ Transaction.status (txs w (snd e)) <> ATTACKED).
  { revert w. induction pool as [| e pool IH]; intros w.
    - exists [], w. split; [reflexivity |]. split; [apply frame_refl |].
      intros e [].
    - simpl. unfold bind at 1.
      assert (Hp : exists b w1, p e w = (Ok b, w1) /\ same_objects w w1
                     /\ (b = true ->
                         Transaction.status (txs w (snd e)) <> ATTACKED)).
      { unfold p, bind, get.
        destruct (TxStatus_eqb (Transaction.status (txs w (snd e))) ATTACKED)
          eqn:Hst.
        - exists false, w. split; [reflexivity |].
          split; [apply frame_refl | discriminate].
        - rewrite should_attack_eq.
          assert (Hne : Transaction.status (txs w (snd e)) <> ATTACKED)
            by (intros E; rewrite E in Hst; discriminate).
          repeat match goal with
                 | |- context [if ?b then _ else _] => destruct b
                 end;
            eexists; eexists; (split; [reflexivity |]);
            (split; [repeat split | intros _; exact Hne]). }
      destruct Hp as (b & w1 & -> & Hs1 & Hb).
      destruct (IH w1) as (found & w2 & Hf & Hs2 & Hfound).
      unfold bind, ret. rewrite Hf.
      exists (if b then e :: found else found), w2.
      split; [reflexivity |]. split; [exact (frame_trans _ _ _ Hs1 Hs2) |].
      assert (Htx : txs w1 = txs w) by (now destruct Hs1 as (_ & _ & ? & _)).
      intros e' He'. destruct b.
      + destruct He' as [<- | He'].
        * split; [now left | now apply Hb].
        * destruct (Hfound e' He') as [Hin Hst]. rewrite Htx in Hst.
          split; [now right | exact Hst].
      + destruct (Hfound e' He') as [Hin Hst]. rewrite Htx in Hst.
        split; [now right | exact Hst]. }
  destruct H as (found & w' & -> & Hs & Hfound).
  exists (map snd found), w'. split; [reflexivity |]. split; [exact Hs |].
  intros x Hx. apply in_map_iff in Hx. destruct Hx as (e & <- & He).
  destruct (Hfound e He) as [Hin Hst]. split; [now apply in_map | exact Hst].
Qed.

Lemma execute_quantum_attack_other (a : aref) (x t : tref) (w : World) :
  t <> x ->
  net (after (_execute_quantum_attack a x) w) = net w
  /\ utxos (after (_execute_quantum_attack a x) w) = utxos w
  /\ txs (after (_execute_quantum_attack a x) w) t = txs w t.
Proof.
  intros Hne. unfold after. rewrite execute_quantum_attack_eq.
  repeat match goal with |- context [if ?b then _ else _] => destruct b end;
    simpl; repeat split; auto.
  unfold successful_attack. simpl. now rewrite !update_other.
Qed.

(** X16.  [quantum_attack_scan] writes to a transaction only if the
    transaction is in the mempool and not under attack when the scan starts:
    a transaction that is [ATTACKED] already (its attack slot is taken) or
    that is not in the mempool is after the scan as it was.  The scan
    changes neither the network object (height, time, mempool, registry) nor
    any UTXO. *)
Theorem scan_writes_only_to_open_targets (w : World) (t : tref) :
  ~ In t (map snd (BitcoinNetwork.mempool (net w)))
  \/ Transaction.status (txs w t) = ATTACKED ->
  txs (after quantum_attack_scan w) t = txs w t
  /\ net (after quantum_attack_scan w) = net w
  /\ utxos (after quantum_attack_scan w) = utxos w.
Proof.
  intros Ht.
  set (I := fun w' : World =>
              net w' = net w /\ utxos w' = utxos w /\ txs w' t = txs w t).
  assert (HI : I (after quantum_attack_scan w)).
  { unfold quantum_attack_scan. rewrite after_bind. cbn [fst get after snd].
    destruct (BitcoinNetwork.mempool (net w)) as [| entry pool] eqn:Hpool;
      [now repeat split |].
    apply for_each_invariant; [| now repeat split].
    intros a w' _ (Hn & Hu & Htx). rewrite after_bind. cbn [fst get after snd].
    destruct (find_targets_spec a (BitcoinNetwork.mempool (net w')) w')
      as (targets & w1 & Hfind & (Hn1 & Hu1 & Htx1 & _) & Htargets).
    rewrite after_bind. unfold after at 2 3. rewrite Hfind. cbn [fst snd].
    assert (HI1 : I w1) by (unfold I; repeat split; congruence).
    assert (Hnot : forall x, In x targets -> t <> x).
    { intros x Hx E. subst x. destruct (Htargets t Hx) as [Hin Hst].
      rewrite Hn, Hpool in Hin. rewrite Htx in Hst.
      destruct Ht as [Ht | Ht]; [now apply Ht | contradiction]. }
    destruct targets as [| x0 rest]; [exact HI1 |].
    apply for_each_invariant; [| exact HI1].
    intros x w2 Hx (Hn2 & Hu2 & Htx2).
    destruct (execute_quantum_attack_other a x t w2 (Hnot x Hx))
      as (E1 & E2 & E3).
    unfold I. repeat split; congruence. }
  destruct HI as (Hn & Hu & Htx). repeat split; assumption.
Qed.

Lemma scan_writes_only_to_open_targets_witness :
  txs (after quantum_attack_scan carol_attacked) 0%nat = txs carol_attacked 0%nat
  /\ net (after quantum_attack_scan carol_attacked) = net carol_attacked
  /\ utxos (after quantum_attack_scan carol_attacked) = utxos carol_attacked.
Proof.
  apply (scan_writes_only_to_open_targets carol_attacked 0%nat).
  right. reflexivity.
Defined.


Lemma credit_name (v : Q) (x : QuantumAttacker.t) :
  QuantumAttacker.name (QuantumAttacker.credit v x) = QuantumAttacker.name x.
Proof. reflexivity. Qed.

(** One round of the loop over the attackers, on any list of references
    that holds each of its members once. *)
Lemma credit_round (d : AttackDetail.t) (L : list aref) (w : World) :
  NoDup L ->
  let w' :=
    after
      (for_each L (fun a =>
         w <- get ;;
         if String.eqb (QuantumAttacker.name (attackers w a))
              (AttackDetail.attacker d)
         then modify (update_attacker a
                        (QuantumAttacker.credit (AttackDetail.value d)))
         else ret tt)) w in
  same_ledger w w'
  /\ forall a,
       attackers w' a
       = if in_dec Nat.eq_dec a L
         then credit_all [d] (attackers w a)
         else attackers w a.
Proof.
  intros Hnd. simpl. revert w. induction Hnd as [| a0 L Ha0 Hnd IH]; intros w.
  - split; [repeat split | reflexivity].
  - cbn [for_each]. rewrite after_bind.
    set (step := (w0 <- get ;;
                  if String.eqb (QuantumAttacker.name (attackers w0 a0))
                       (AttackDetail.attacker d)
                  then modify (update_attacker a0
                                 (QuantumAttacker.credit (AttackDetail.value d)))
                  else ret tt)).
    assert (Hstep : fst (step w) = Ok tt /\ same_ledger w (after step w)
              /\ attackers (after step w) a0 = credit_all [d] (attackers w a0)
              /\ forall a, a <> a0 -> attackers (after step w) a = attackers w a).
    { unfold after, step, bind, get, credit_all. simpl.
      destruct (String.eqb (QuantumAttacker.name (attackers w a0))
                  (AttackDetail.attacker d)) eqn:E; simpl.
      - split; [reflexivity |]. split; [repeat split |].
        split; [apply update_same |]. intros a Hne. now apply update_other.
      - split; [reflexivity |]. split; [repeat split |].
        split; reflexivity. }
    destruct Hstep as (Hok & Hl1 & Ha1 & Hoth). rewrite Hok.
    destruct (IH (after step w)) as [Hl2 Hatt]. split.
    + exact (frame_trans _ _ _ Hl1 Hl2).
    + intros a. rewrite Hatt.
      destruct (in_dec Nat.eq_dec a L) as [HinL | HninL];
        destruct (in_dec Nat.eq_dec a (a0 :: L)) as [Hin | Hnin].
      * assert (a <> a0) by (intros ->; contradiction).
        now rewrite Hoth.
      * exfalso. apply Hnin. now right.
      * destruct Hin as [<- | Hin]; [exact Ha1 | contradiction].
      * apply Hoth. intros ->. apply Hnin. now left.
Qed.

(** The loop over the attackers for one attack detail. *)
Lemma credit_attackers_spec (d : AttackDetail.t) (w : World) :
  NoDup (BitcoinNetwork.quantum_attackers (net w)) ->
  same_ledger w (after (credit_attackers d) w)
  /\ forall a,
       attackers (after (credit_attackers d) w) a
       = if in_dec Nat.eq_dec a (BitcoinNetwork.quantum_attackers (net w))
         then credit_all [d] (attackers w a)
         else attackers w a.
Proof.
  intros Hnd. unfold credit_attackers. rewrite after_bind.
  cbn [fst get after snd]. exact (credit_round d _ w Hnd).
Qed.

Lemma credit_all_app (ds1 ds2 : list AttackDetail.t) (x : QuantumAttacker.t) :
  credit_all (ds1 ++ ds2) x = credit_all ds2 (credit_all ds1 x).
Proof. unfold credit_all. apply fold_left_app. Qed.

(** The loop over the attack details of a winner. *)
Lemma credit_loop_spec (ds : list AttackDetail.t) (w : World) :
  NoDup (BitcoinNetwork.quantum_attackers (net w)) ->
  forall a,
    attackers (after (for_each ds credit_attackers) w) a
    = if in_dec Nat.eq_dec a (BitcoinNetwork.quantum_attackers (net w))
      then credit_all ds (attackers w a)
      else attackers w a.
Proof.
  revert w. induction ds as [| d ds IH]; intros w Hnd a.
  - simpl. now destruct (in_dec _ _ _).
  - cbn [for_each]. rewrite after_bind.
    destruct (credit_attackers_succeeds d w) as [[] ->].
    destruct (credit_attackers_spec d w Hnd) as [(Hn & _) Hone].
    rewrite IH by (now rewrite Hn). rewrite Hn, Hone.
    destruct (in_dec _ _ _); [| reflexivity].
    change (d :: ds) with ([d] ++ ds)%list. now rewrite credit_all_app.
Qed.

Lemma credit_all_counts (ds : list AttackDetail.t) (x : QuantumAttacker.t) :
  QuantumAttacker.name (credit_all ds x) = QuantumAttacker.name x
  /\ QuantumAttacker.successful_attacks (credit_all ds x)
     = (QuantumAttacker.successful_attacks x
        + Z.of_nat (List.length (credited_to (QuantumAttacker.name x) ds)))%Z
  /\ QuantumAttacker.total_stolen (credit_all ds x)
     = fold_left Qplus (credited_to (QuantumAttacker.name x) ds)
         (QuantumAttacker.total_stolen x)
  /\ QuantumAttacker.btc_balance (credit_all ds x)
     = fold_left Qplus (credited_to (QuantumAttacker.name x) ds)
         (QuantumAttacker.btc_balance x)
  /\ QuantumAttacker.failed_attacks (credit_all ds x)
     = QuantumAttacker.failed_attacks x.
Proof.
  revert x. induction ds as [| d ds IH]; intros x.
  - simpl. repeat split. lia.
  - unfold credit_all, credited_to in *. cbn [fold_left filter].
    destruct (String.eqb (QuantumAttacker.name x) (AttackDetail.attacker d)) eqn:E.
    + destruct (IH (QuantumAttacker.credit (AttackDetail.value d) x))
        as (H1 & H2 & H3 & H4 & H5).
      rewrite H1, H2, H3, H4, H5. rewrite credit_name.
      cbn [map fold_left List.length]. repeat split.
      cbn [QuantumAttacker.successful_attacks QuantumAttacker.credit]. lia.
    + apply IH.
Qed.

(** X17.  When block selection finds an [ATTACKED] transaction first in a
    group of more than one, it marks it [STOLEN] and credits its attack
    details: a registered attacker (the list holding each attacker once)
    gets one more successful attack for every detail that carries its name,
    and the values of those details are added, in order, to its
    [total_stolen] and to its [btc_balance]; a detail that names no
    registered attacker credits nobody, and an attacker that is not
    registered is left as it is. *)
Theorem stolen_value_is_credited
  (w : World) (members : list tref) (x : tref) (details : list AttackDetail.t)
  (a : aref) :
  winner w members = Some x ->
  (1 < List.length members)%nat ->
  Transaction.status (txs w x) = ATTACKED ->
  Transaction.attack_details (txs w x) = Some details ->
  NoDup (BitcoinNetwork.quantum_attackers (net w)) ->
  exists w',
    resolve_group members w = (Ok x, w')
    /\ Transaction.status (txs w' x) = STOLEN
    /\ (In a (BitcoinNetwork.quantum_attackers (net w)) ->
        let mine := credited_to (QuantumAttacker.name (attackers w a)) details in
        QuantumAttacker.successful_attacks (attackers w' a)
        = (QuantumAttacker.successful_attacks (attackers w a)
           + Z.of_nat (List.length mine))%Z
        /\ QuantumAttacker.total_stolen (attackers w' a)
           = fold_left Qplus mine (QuantumAttacker.total_stolen (attackers w a))
        /\ QuantumAttacker.btc_balance (attackers w' a)
           = fold_left Qplus mine (QuantumAttacker.btc_balance (attackers w a))
        /\ QuantumAttacker.failed_attacks (attackers w' a)
           = QuantumAttacker.failed_attacks (attackers w a))
    /\ (~ In a (BitcoinNetwork.quantum_attackers (net w)) ->
        attackers w' a = attackers w a).
Proof.
  intros Hw Hlen Hst Hd Hnd. rewrite resolve_group_eq, Hw, Hst, Hd.
  apply Nat.ltb_lt in Hlen. rewrite Hlen. cbn [andb TxStatus_eqb].
  eexists. split; [reflexivity |]. split; [now rewrite txs_update_tx_same |].
  pose proof (credit_loop_spec details w Hnd a) as Hloop.
  unfold update_tx. cbn [attackers]. rewrite Hloop.
  destruct (in_dec Nat.eq_dec a (BitcoinNetwork.quantum_attackers (net w)))
    as [Hin | Hnin].
  - split; [| intros H; contradiction]. intros _. cbv zeta.
    destruct (credit_all_counts details (attackers w a)) as (_ & H2 & H3 & H4 & H5).
    repeat split; assumption.
  - split; [intros H; contradiction | reflexivity].
Qed.

Lemma stolen_value_is_credited_witness :
  exists w',
    resolve_group [0%nat; 1%nat] double_spend_world = (Ok 0%nat, w')
    /\ Transaction.status (txs w' 0%nat) = STOLEN
    /\ (In 0%nat (BitcoinNetwork.quantum_attackers (net double_spend_world)) ->
        let mine :=
          credited_to (QuantumAttacker.name (attackers double_spend_world 0%nat))
            (details_of (txs double_spend_world 0%nat)) in
        QuantumAttacker.successful_attacks (attackers w' 0%nat)
        = (QuantumAttacker.successful_attacks (attackers double_spend_world 0%nat)
           + Z.of_nat (List.length mine))%Z
        /\ QuantumAttacker.total_stolen (attackers w' 0%nat)
           = fold_left Qplus mine
               (QuantumAttacker.total_stolen (attackers double_spend_world 0%nat))
        /\ QuantumAttacker.btc_balance (attackers w' 0%nat)
           = fold_left Qplus mine
               (QuantumAttacker.btc_balance (attackers double_spend_world 0%nat))
        /\ QuantumAttacker.failed_attacks (attackers w' 0%nat)
           = QuantumAttacker.failed_attacks (attackers double_spend_world 0%nat))
    /\ (~ In 0%nat (BitcoinNetwork.quantum_attackers (net double_spend_world)) ->
        attackers w' 0%nat = attackers double_spend_world 0%nat).
Proof.
  apply (stolen_value_is_credited double_spend_world [0%nat; 1%nat] 0%nat
           (details_of (txs double_spend_world 0%nat)) 0%nat).
  - vm_compute. reflexivity.
  - vm_compute. lia.
  - vm_compute. reflexivity.
  - vm_compute. reflexivity.
  - vm_compute. repeat constructor. intros [].
Defined.

(** ** Block selection, exactly *)

Lemma run_reachable (e : Env) (ops : list Op) (w : World) :
  reachable e w -> valid_run w ops -> reachable e (run ops w).
Proof.
  revert w. induction ops as [| op ops IH]; intros w Hr Hv; [exact Hr |].
  destruct Hv as [Hop Hv]. simpl. apply IH; [| exact Hv].
  now apply reachable_step.
Qed.

(** One turn of the loop over the groups. *)
Lemma resolve_group_exact (members : list tref) (w w1 : World) (x : tref) :
  resolve_group members w = (Ok x, w1) ->
  winner w members = Some x
  /\ Transaction.status (txs w1 x) = decided_status w members x
  /\ forall y, y <> x -> txs w1 y = txs w y.
Proof.
  rewrite resolve_group_eq. unfold decided_status.
  destruct (winner w members) as [x0 |]; [| discriminate].
  destruct ((1 <? List.length members)%nat
            && TxStatus_eqb (Transaction.status (txs w x0)) ATTACKED) eqn:Hc.
  - destruct (Transaction.attack_details (txs w x0)) as [details |];
      [| discriminate].
    intros [= <- <-]. rewrite Hc. split; [reflexivity |].
    split; [now rewrite txs_update_tx_same |].
    intros y Hy. rewrite txs_update_tx_other by exact Hy.
    destruct (credit_loop_ledger details w) as (_ & _ & Ht & _). now rewrite Ht.
  - intros [= <- <-]. rewrite Hc. split; [reflexivity |].
    split; [now rewrite txs_update_tx_same |].
    intros y Hy. now rewrite txs_update_tx_other.
Qed.

Lemma decided_status_ext (w w1 : World) (members : list tref) (x : tref) :
  txs w1 x = txs w x -> decided_status w1 members x = decided_status w members x.
Proof. intros H. unfold decided_status. now rewrite H. Qed.

(** The loop over the groups, when no transaction comes first in two of
    them. *)
Lemma resolve_loop_exact (groups : list (list string * list tref)) (w w' : World)
  (c : list tref) :
  map_M (fun group => resolve_group (snd group)) groups w = (Ok c, w') ->
  NoDup c ->
  Forall2 (fun group x =>
             Transaction.status (txs w' x) = decided_status w (snd group) x)
    groups c.
Proof.
  revert w c. induction groups as [| g groups IH]; intros w c Hrun Hnd.
  - injection Hrun as <- <-. constructor.
  - simpl in Hrun. unfold bind, ret in Hrun.
    destruct (resolve_group (snd g) w) as [[x | e] w1] eqn:Hg; [| discriminate].
    destruct (map_M _ groups w1) as [[c' | e] w2] eqn:Hrest; [| discriminate].
    injection Hrun as <- <-. inversion Hnd as [| ? ? Hx Hnd']; subst.
    destruct (resolve_group_exact _ _ _ _ Hg) as (Hw & Hst & Hoth).
    destruct (resolve_loop groups w1) as [Hres Hloop].
    unfold after in Hres. rewrite Hrest in Hres. simpl in Hres.
    destruct (Hloop c' w2 Hrest) as [Hall _].
    constructor.
    + destruct Hres as (_ & _ & K).
      destruct (K x) as [E | (ms & Hms & Hwx & _)]; [now rewrite E |].
      exfalso. apply Hx. apply in_map_iff in Hms.
      destruct Hms as (g' & <- & Hg').
      destruct (Forall2_in_l _ _ _ _ Hall Hg') as (y & Hy & Hwy).
      simpl in Hwy. congruence.
    + specialize (IH w1 c' Hrest Hnd').
      clear - IH Hoth Hx. induction IH as [| g' y gs ys Hy _ IHf];
        constructor.
      * rewrite Hy. apply decided_status_ext. apply Hoth.
        intros ->. apply Hx. now left.
      * apply IHf. intros Hin. apply Hx. now right.
Qed.

(** In a conflict group, the sorted input ids of each member are the key of
    the group. *)
Lemma conflict_group_key (w : World) (k : list string) (members : list tref)
  (m : tref) :
  In (k, members) (conflict_groups w) -> In m members -> input_key w m = k.
Proof.
  intros Hin Hm.
  destruct (group_by_spec (input_key w) (selection_order w)) as (_ & Hspec & _).
  destruct (Hspec k members Hin) as [-> _].
  unfold members_of in Hm. apply filter_In in Hm. destruct Hm as [_ Hk].
  now apply key_eqb_eq.
Qed.

(** No transaction comes first in two conflict groups. *)
Lemma winners_distinct (w : World) (groups : list (list string * list tref))
  (c : list tref) :
  NoDup (map fst groups) ->
  (forall k ms m, In (k, ms) groups -> In m ms -> input_key w m = k) ->
  Forall2 (fun group x => winner w (snd group) = Some x) groups c ->
  NoDup c.
Proof.
  intros Hnd Hkey Hall. revert Hnd Hkey.
  induction Hall as [| [k ms] x gs c Hx Hall IH]; intros Hnd Hkey;
    [constructor |].
  simpl in *. inversion Hnd as [| ? ? Hk Hnd']; subst. constructor.
  - intros Hin. apply Hk.
    destruct (Forall2_in_r _ _ _ _ Hall Hin) as ([k' ms'] & Hg & Hw').
    simpl in Hw'. apply in_map_iff. exists (k', ms'). split; [| exact Hg].
    simpl. destruct (winner_in _ _ _ Hx) as [H1 _].
    destruct (winner_in _ _ _ Hw') as [H2 _].
    rewrite <- (Hkey k ms x (or_introl eq_refl) H1). symmetry.
    apply (Hkey k' ms' x); [now right | exact H2].
  - apply IH; [exact Hnd' |]. intros k' ms' m Hg. apply Hkey. now right.
Qed.

(** The sorted input ids of the transactions that come first are the keys
    of the groups, in order. *)
Lemma winners_keys (w : World) (groups : list (list string * list tref))
  (c : list tref) :
  (forall k ms m, In (k, ms) groups -> In m ms -> input_key w m = k) ->
  Forall2 (fun group x => winner w (snd group) = Some x) groups c ->
  map (input_key w) c = map fst groups.
Proof.
  intros Hkey Hall. revert Hkey.
  induction Hall as [| [k ms] x gs c Hx Hall IH]; intros Hkey; [reflexivity |].
  simpl in *. destruct (winner_in _ _ _ Hx) as [Hin _]. f_equal.
  - apply (Hkey k ms); [now left | exact Hin].
  - apply IH. intros k' ms' m Hg. apply Hkey. now right.
Qed.

Lemma Forall2_both {A B : Type} (R S : A -> B -> Prop) (l : list A) (l' : list B) :
  Forall2 R l l' -> Forall2 S l l' -> Forall2 (fun a b => R a b /\ S a b) l l'.
Proof.
  induction 1 as [| x y l l' Hxy _ IH]; intros HS; [constructor |].
  inversion HS; subst. constructor; [now split | now apply IH].
Qed.

(** What [mine_block] does in a world where block selection can run. *)
Lemma mine_block_run (w : World) :
  mempool_ready w ->
  exists c w1 w',
    map_M (fun group => resolve_group (snd group)) (conflict_groups w) w
    = (Ok c, w1)
    /\ mine_block w = (Ok c, w')
    /\ Forall2 (fun group x => winner w (snd group) = Some x) (conflict_groups w) c
    /\ NoDup c
    /\ resolved w (map snd (conflict_groups w)) w1
    /\ txs w' = txs w1 /\ attackers w' = attackers w1 /\ utxos w' = utxos w
    /\ BitcoinNetwork.mempool (net w') = []
    /\ BitcoinNetwork.current_block (net w')
       = (BitcoinNetwork.current_block (net w) + 1)%Z
    /\ BitcoinNetwork.current_time (net w')
       = match BitcoinNetwork.mempool (net w) with
         | [] => BitcoinNetwork.current_time (net w)
         | _ :: _ => BitcoinNetwork.current_time (net w)
                     + BitcoinNetwork.block_time_avg (net w)
         end
    /\ BitcoinNetwork.quantum_attackers (net w')
       = BitcoinNetwork.quantum_attackers (net w).
Proof.
  intros Hr. destruct (ready_mempool w Hr) as (Hnd & Hfund & Hdet).
  pose proof (selection_order_perm w) as Hp.
  destruct (group_by_spec (input_key w) (selection_order w)) as (Hkeys & Hspec & _).
  assert (Hgroups : forall g t, In g (conflict_groups w) -> In t (snd g) ->
                      In t (map snd (BitcoinNetwork.mempool (net w)))).
  { intros [k' ms'] t Hg Ht. simpl in Ht.
    destruct (Hspec k' ms' Hg) as [E _]. rewrite E in Ht.
    apply filter_In in Ht. now apply (Permutation_in _ Hp). }
  destruct (resolve_loop_ok (conflict_groups w) w) as [c Hc].
  { intros [k' ms'] Hg. simpl. now destruct (Hspec k' ms' Hg). }
  { intros g t Hg Ht. apply Hdet. now apply (Hgroups g). }
  destruct (resolve_loop (conflict_groups w) w) as [Hres Hloop].
  unfold after in Hres.
  destruct (map_M _ (conflict_groups w) w) as [o w1] eqn:Hrun.
  simpl in Hc, Hres. subst o.
  destruct (Hloop c w1 eq_refl) as [Hall _].
  assert (Hdist : NoDup c).
  { apply (winners_distinct w (conflict_groups w)); [exact Hkeys | | exact Hall].
    intros k ms m. apply conflict_group_key. }
  pose proof Hres as (Hn1 & Hu1 & _).
  rewrite mine_block_eq.
  destruct (BitcoinNetwork.mempool (net w)) as [| entry pool] eqn:Hpool.
  - pose proof Hrun as Hrun'.
    unfold conflict_groups, selection_order in Hrun. rewrite Hpool in Hrun.
    simpl in Hrun. unfold ret in Hrun. injection Hrun as <- <-.
    eexists [], w, _. split; [reflexivity |]. split; [reflexivity |].
    split; [exact Hall |]. split; [exact Hdist |]. split; [exact Hres |].
    simpl. now repeat split.
  - assert (forallb (funded w) (map snd (entry :: pool)) = true) as ->.
    { apply forallb_forall. intros t Ht. unfold funded.
      apply negb_true_iff. apply not_true_iff_false. intros Hz.
      apply Qeq_bool_iff in Hz. now apply (Hfund t). }
    exists c, w1, (finalize_block w1). split; [reflexivity |].
    split; [now rewrite Hrun |].
    split; [exact Hall |]. split; [exact Hdist |]. split; [exact Hres |].
    unfold finalize_block. simpl. rewrite Hn1, Hu1. now repeat split.
Qed.

Lemma set_status_same (x : Transaction.t) :
  Transaction.set_status (Transaction.status x) x = x.
Proof. now destruct x. Qed.

(** X18.  In every world that the operations reach, [mine_block] returns.
    It leaves the mempool empty and the height one higher; the clock moves
    on by [block_time_avg] when the mempool held a transaction, and stands
    still for an empty block.  The block takes one transaction from every
    group of mempool transactions with the same sorted input ids, so that no
    two transactions of the block have the same; the UTXO objects and the
    list of attackers are as before. *)
Theorem mine_block_on_reachable_world (e : Env) (w : World) :
  reachable e w ->
  exists confirmed_txs w',
    mine_block w = (Ok confirmed_txs, w')
    /\ BitcoinNetwork.mempool (net w') = []
    /\ BitcoinNetwork.current_block (net w')
       = (BitcoinNetwork.current_block (net w) + 1)%Z
    /\ BitcoinNetwork.current_time (net w')
       = match BitcoinNetwork.mempool (net w) with
         | [] => BitcoinNetwork.current_time (net w)
         | _ :: _ => BitcoinNetwork.current_time (net w)
                     + BitcoinNetwork.block_time_avg (net w)
         end
    /\ map (input_key w) confirmed_txs = map fst (conflict_groups w)
    /\ NoDup (map (input_key w) confirmed_txs)
    /\ (forall t, In t (map snd (BitcoinNetwork.mempool (net w))) ->
          In (input_key w t) (map (input_key w) confirmed_txs))
    /\ utxos w' = utxos w
    /\ BitcoinNetwork.quantum_attackers (net w')
       = BitcoinNetwork.quantum_attackers (net w).
Proof.
  intros Hr. apply reachable_ready in Hr.
  destruct (mine_block_run w Hr)
    as (c & w1 & w' & _ & Hmine & Hall & _ & _ & _ & _ & Hu & Hpool & Hb & Ht & Ha).
  destruct (group_by_spec (input_key w) (selection_order w)) as (Hkeys & _ & Hcov).
  assert (Hmap : map (input_key w) c = map fst (conflict_groups w)).
  { apply winners_keys; [| exact Hall].
    intros k ms m. apply conflict_group_key. }
  exists c, w'. split; [exact Hmine |]. split; [exact Hpool |].
  split; [exact Hb |]. split; [exact Ht |]. split; [exact Hmap |].
  split; [rewrite Hmap; exact Hkeys |]. split; [| now split].
  intros t Hin. rewrite Hmap. apply Hcov.
  apply (Permutation_in _ (Permutation_sym (selection_order_perm w))). exact Hin.
Qed.

Lemma mine_block_on_reachable_world_witness :
  exists confirmed_txs w',
    mine_block overlap_world = (Ok confirmed_txs, w')
    /\ BitcoinNetwork.mempool (net w') = []
    /\ BitcoinNetwork.current_block (net w')
       = (BitcoinNetwork.current_block (net overlap_world) + 1)%Z
    /\ BitcoinNetwork.current_time (net w')
       = match BitcoinNetwork.mempool (net overlap_world) with
         | [] => BitcoinNetwork.current_time (net overlap_world)
         | _ :: _ => BitcoinNetwork.current_time (net overlap_world)
                     + BitcoinNetwork.block_time_avg (net overlap_world)
         end
    /\ map (input_key overlap_world) confirmed_txs
       = map fst (conflict_groups overlap_world)
    /\ NoDup (map (input_key overlap_world) confirmed_txs)
    /\ (forall t, In t (map snd (BitcoinNetwork.mempool (net overlap_world))) ->
          In (input_key overlap_world t)
            (map (input_key overlap_world) confirmed_txs))
    /\ utxos w' = utxos overlap_world
    /\ BitcoinNetwork.quantum_attackers (net w')
       = BitcoinNetwork.quantum_attackers (net overlap_world).
Proof.
  apply (mine_block_on_reachable_world demo_env overlap_world).
  apply run_reachable; [apply reachable_init |].
  vm_compute. repeat split; intros; intuition lia.
Defined.

(** The transaction that a conflict group puts first, after the block. *)
Lemma mine_block_winner
  (w : World) (k : list string) (members : list tref) (x : tref) :
  mempool_ready w ->
  In (k, members) (conflict_groups w) ->
  winner w members = Some x ->
  exists confirmed_txs w',
    mine_block w = (Ok confirmed_txs, w')
    /\ In x confirmed_txs
    /\ txs w' x
       = Transaction.set_status (decided_status w members x) (txs w x).
Proof.
  intros Hr Hin Hx.
  destruct (mine_block_run w Hr)
    as (c & w1 & w' & Hrun & Hmine & Hall & Hdist & Hres & Ht & _).
  pose proof (resolve_loop_exact _ _ _ _ Hrun Hdist) as Hex.
  destruct (Forall2_in_l _ _ _ _ (Forall2_both _ _ _ _ Hall Hex) Hin)
    as (y & Hy & Hwy & Hst).
  simpl in Hwy, Hst. assert (y = x) by congruence. subst y.
  exists c, w'. split; [exact Hmine |]. split; [exact Hy |].
  rewrite Ht. rewrite <- Hst.
  destruct Hres as (_ & _ & K).
  destruct (K x) as [E | (ms & _ & _ & [E | (E & _)])].
  - rewrite <- E. symmetry. apply set_status_same.
  - rewrite E. reflexivity.
  - rewrite E. reflexivity.
Qed.



Lemma insert_str_perm (x : string) (l : list string) :
  Permutation (insert_str x l) (x :: l).
Proof.
  induction l as [| y l IH]; simpl; [reflexivity |].
  destruct (String.ltb y x); [| reflexivity].
  eapply Permutation_trans; [apply perm_skip, IH | apply perm_swap].
Qed.

Lemma sorted_str_perm (l : list string) : Permutation (sorted_str l) l.
Proof.
  induction l as [| x l IH]; simpl; [reflexivity |].
  eapply Permutation_trans; [apply insert_str_perm | now apply perm_skip].
Qed.

Lemma input_key_outpoints (w : World) (t : tref) :
  input_key w t = sorted_str (map (outpoint w) (Transaction.inputs (txs w t))).
Proof. reflexivity. Qed.

(** Two transactions with the same key spend the same UTXOs, when the
    UTXOs have ids of their own. *)
Lemma same_key_same_inputs (w : World) (t m : tref) (r : uref) :
  distinct_outpoints w ->
  (forall x, In x (Transaction.inputs (txs w t)) -> (x < utxo_count w)%nat) ->
  (forall x, In x (Transaction.inputs (txs w m)) -> (x < utxo_count w)%nat) ->
  input_key w m = input_key w t ->
  In r (Transaction.inputs (txs w t)) -> In r (Transaction.inputs (txs w m)).
Proof.
  intros Hinj Ht Hm Hkey Hr. rewrite !input_key_outpoints in Hkey.
  assert (Hp : Permutation (map (outpoint w) (Transaction.inputs (txs w t)))
                 (map (outpoint w) (Transaction.inputs (txs w m)))).
  { eapply Permutation_trans; [apply Permutation_sym, sorted_str_perm |].
    rewrite <- Hkey. apply sorted_str_perm. }
  assert (Hin : In (outpoint w r)
                  (map (outpoint w) (Transaction.inputs (txs w m)))).
  { apply (Permutation_in _ Hp). now apply in_map. }
  apply in_map_iff in Hin. destruct Hin as (r' & Heq & Hr').
  rewrite <- (Hinj r' r (Hm r' Hr') (Ht r Hr) Heq). exact Hr'.
Qed.

(** A mempool transaction that has its key to itself, after the block. *)
Lemma lone_key_is_confirmed (w : World) (t : tref) :
  mempool_ready w ->
  In t (map snd (BitcoinNetwork.mempool (net w))) ->
  (forall m, In m (map snd (BitcoinNetwork.mempool (net w))) ->
     input_key w m = input_key w t -> m = t) ->
  exists confirmed_txs w',
    mine_block w = (Ok confirmed_txs, w')
    /\ In t confirmed_txs
    /\ txs w' t = Transaction.set_status CONFIRMED (txs w t).
Proof.
  intros Hready Hin Hlone.
  destruct (ready_mempool w Hready) as (Hnd & _ & _).
  pose proof (selection_order_perm w) as Hp.
  destruct (group_by_spec (input_key w) (selection_order w)) as (_ & Hspec & Hcov).
  assert (Hsel : In t (selection_order w))
    by (apply (Permutation_in _ (Permutation_sym Hp)); exact Hin).
  specialize (Hcov t Hsel). apply in_map_iff in Hcov.
  destruct Hcov as ([k members] & Hk & Hg). simpl in Hk. subst k.
  change (In (input_key w t, members) (conflict_groups w)) in Hg.
  destruct (Hspec _ _ Hg) as [Hmem Hne].
  assert (Hall : forall m, In m members -> m = t).
  { intros m Hm. rewrite Hmem in Hm. unfold members_of in Hm.
    apply filter_In in Hm. destruct Hm as [Hm Hkey].
    apply Hlone; [now apply (Permutation_in _ Hp) | now apply key_eqb_eq]. }
  assert (Hdist : NoDup members).
  { rewrite Hmem. apply NoDup_filter.
    now apply (Permutation_NoDup (Permutation_sym Hp)). }
  assert (Hone : members = [t]).
  { destruct members as [| a [| b rest]]; [now destruct Hne | |].
    - now rewrite (Hall a (or_introl eq_refl)).
    - exfalso. inversion Hdist as [| ? ? Ha _]; subst. apply Ha. left.
      rewrite (Hall a), (Hall b); simpl; auto. }
  rewrite Hone in Hg.
  destruct (mine_block_winner w _ [t] t Hready Hg eq_refl)
    as (c & w' & Hmine & Hc & Ht).
  exists c, w'. split; [exact Hmine |]. split; [exact Hc | exact Ht].
Qed.

(** X20.  In every world that the operations reach, a mempool transaction
    whose sorted input ids no other mempool transaction has is in the block
    and ends [CONFIRMED], whatever its status was.  Conflicts are found on
    the whole tuple of input ids: when the UTXOs of the network have ids of
    their own, a mempool transaction is in the block and ends [CONFIRMED] as
    soon as every other mempool transaction differs from it in some input,
    however many inputs they share. *)
Theorem lone_spender_is_confirmed (e : Env) (w : World) (t : tref) :
  let values := map snd (BitcoinNetwork.mempool (net w)) in
  let confirmed :=
    exists confirmed_txs w',
      mine_block w = (Ok confirmed_txs, w')
      /\ In t confirmed_txs
      /\ txs w' t = Transaction.set_status CONFIRMED (txs w t) in
  reachable e w ->
  In t values ->
  ((forall m, In m values -> input_key w m = input_key w t -> m = t) ->
   confirmed)
  /\ (distinct_outpoints w ->
      (forall m, In m values -> m <> t -> inputs_differ w t m) ->
      confirmed).
Proof.
  intros values confirmed Hr Hin. pose proof (reachable_ready e w Hr) as Hready.
  split; [now apply lone_key_is_confirmed |].
  intros Hinj Hdiff. apply (lone_key_is_confirmed w t Hready Hin).
  intros m Hm Hkey. destruct (Nat.eq_dec m t) as [E | Hne]; [exact E |].
  exfalso.
  assert (Hvalid : forall x, In x values ->
            forall r, In r (Transaction.inputs (txs w x)) ->
              (r < utxo_count w)%nat).
  { destruct Hready as (I1 & I2 & _). intros x Hx r Hxr.
    apply in_map_iff in Hx. destruct Hx as ([k x'] & E & Hx). simpl in E.
    subst x'. destruct (I2 k x Hx) as (Hlt & _). exact (I1 x r Hlt Hxr). }
  destruct (Hdiff m Hm Hne) as (r & [[Hrt Hrm] | [Hrm Hrt]]).
  - apply Hrm.
    exact (same_key_same_inputs w t m r Hinj (Hvalid t Hin) (Hvalid m Hm)
             Hkey Hrt).
  - apply Hrt.
    exact (same_key_same_inputs w m t r Hinj (Hvalid m Hm) (Hvalid t Hin)
             (eq_sym Hkey) Hrm).
Qed.

Lemma lone_spender_is_confirmed_witness :
  List.length (Transaction.inputs (txs shared_input_world 0%nat))
  = List.length (Transaction.inputs (txs shared_input_world 1%nat))
  /\ In 0%nat (Transaction.inputs (txs shared_input_world 0%nat))
  /\ In 0%nat (Transaction.inputs (txs shared_input_world 1%nat))
  /\ exists confirmed_txs w',
       mine_block shared_input_world = (Ok confirmed_txs, w')
       /\ In 0%nat confirmed_txs
       /\ txs w' 0%nat
          = Transaction.set_status CONFIRMED (txs shared_input_world 0%nat).
Proof.
  split; [vm_compute; reflexivity |].
  split; [vm_compute; auto |]. split; [vm_compute; auto |].
  assert (Hv : map snd (BitcoinNetwork.mempool (net shared_input_world))
               = [0%nat; 1%nat]) by (vm_compute; reflexivity).
  apply (proj2 (lone_spender_is_confirmed demo_env shared_input_world 0%nat
                  ltac:(apply run_reachable; [apply reachable_init |];
                        vm_compute; repeat split; intros; intuition lia)
                  ltac:(vm_compute; auto))).
  - intros r r' Hr Hr'.
    assert (Hc : utxo_count shared_input_world = 3%nat)
      by (vm_compute; reflexivity).
    rewrite Hc in Hr, Hr'.
    destruct r as [| [| [| r]]]; [| | | lia];
      (destruct r' as [| [| [| r']]]; [| | | lia]);
      vm_compute; intros H; first [reflexivity | discriminate H].
  - intros m Hm Hne. rewrite Hv in Hm. destruct Hm as [<- | [<- | []]].
    + now contradiction Hne.
    + exists 1%nat. left. split; vm_compute; [auto | intuition discriminate].
Defined.
